(** * Drive-to-GitHub importer: a shallow embedding of [server.js]

    The program signs a user into Google Drive, walks a Drive file or
    folder, and publishes what it collected as the initial commit of a
    freshly created GitHub repository.  This development embeds the
    core of [server.js]:

    - [extractDriveId] and [pickExportMimeType] (pure helpers),
    - [collectDriveFiles] with its inner [getMeta], [downloadFileAsBuffer]
      and the recursive, paginated [walkFolder],
    - [createGitHubRepoAndPush],
    - the [POST /create-repo] request handler,
    - the [GET /oauth2callback] handler, [makeOAuthClient] and the
      start-up configuration.

    Remote services are oracles that answer a call given the history of
    the calls already made; every call the program makes is recorded in
    a trace, in the order in which the [await]s complete.  Strings are
    sequences of UTF-8 bytes. *)

From Stdlib Require Import List String Ascii Bool Arith PeanoNat Lia NArith.
From Stdlib Require Import Strings.Byte DecimalString.
Import ListNotations.
Set Warnings "-register-all".
Local Open Scope string_scope.
Local Open Scope list_scope.

(* ===================================================================== *)
(** * The fragment of the JavaScript runtime the program relies on        *)
(* ===================================================================== *)

Module Js.

(** An [Error] object: its [name] and its [message]. *)
Record JsError : Type := mkError { err_name : string; err_message : string }.

(** [new Error(msg)] *)
Definition Error (msg : string) : JsError := mkError "Error" msg.

(** The [TypeError] raised by a property read on [undefined] or [null]. *)
Definition TypeError_read (base key : string) : JsError :=
  mkError "TypeError"
    ("Cannot read properties of " ++ base ++ " (reading '" ++ key ++ "')").

(** The [TypeError] raised by calling a method a value does not have. *)
Definition TypeError_not_a_function (what : string) : JsError :=
  mkError "TypeError" (what ++ " is not a function").

(** [String(err)], that is [Error.prototype.toString]. *)
Definition error_to_string (e : JsError) : string :=
  if (err_name e =? "")%string then err_message e
  else if (err_message e =? "")%string then err_name e
  else (err_name e ++ ": " ++ err_message e)%string.

(** A value or a thrown exception (for a promise: fulfilled or rejected). *)
Inductive Result (A : Type) : Type :=
| Ok (a : A)
| Thrown (e : JsError).
Arguments Ok {A} a.
Arguments Thrown {A} e.

Definition thrown_error {A} (r : Result A) : option JsError :=
  match r with Ok _ => None | Thrown e => Some e end.

(** JSON-like values.  A number is represented by the decimal rendering
    JavaScript gives it ([String(n)]); an object by its own properties. *)
Inductive Json : Type :=
| JUndefined
| JNull
| JBool (b : bool)
| JNum (repr : string)
| JStr (s : string)
| JArr (items : list Json)
| JObj (fields : list (string * Json)).

(** Truthiness, as [if (v)] and [!v] see it. *)
Definition str_truthy (s : string) : bool := negb (s =? "")%string.

Definition js_truthy (v : Json) : bool :=
  match v with
  | JUndefined | JNull => false
  | JBool b => b
  | JNum r => negb ((r =? "0")%string || (r =? "NaN")%string)
  | JStr s => str_truthy s
  | JArr _ | JObj _ => true
  end.

(** Truthiness of a value that is either absent ([null]/[undefined]) or a
    string. *)
Definition opt_truthy (o : option string) : bool :=
  match o with None => false | Some s => str_truthy s end.

(** [String(v)], as used by template literals. *)
Fixpoint js_string_of (v : Json) : string :=
  match v with
  | JUndefined => "undefined"
  | JNull => "null"
  | JBool true => "true"
  | JBool false => "false"
  | JNum r => r
  | JStr s => s
  | JArr items =>
      (fix join (l : list Json) : string :=
         match l with
         | [] => ""
         | x :: rest =>
             let sx := match x with
                       | JUndefined | JNull => ""
                       | _ => js_string_of x
                       end in
             match rest with
             | [] => sx
             | _ :: _ => (sx ++ "," ++ join rest)%string
             end
         end) items
  | JObj _ => "[object Object]"
  end.

Fixpoint lookup_field (k : string) (fields : list (string * Json)) : Json :=
  match fields with
  | [] => JUndefined
  | (k', v) :: rest => if (k =? k')%string then v else lookup_field k rest
  end.

(** [v.k] for a key [k] that is not a prototype property (the program
    reads [owner], [login], [html_url], [sha] and [filesPublished] only). *)
Definition get_prop (v : Json) (k : string) : Result Json :=
  match v with
  | JUndefined => Thrown (TypeError_read "undefined" k)
  | JNull => Thrown (TypeError_read "null" k)
  | JObj fields => Ok (lookup_field k fields)
  | _ => Ok JUndefined
  end.

(** ** Decimal rendering of a length *)
Definition nat_to_string (n : nat) : string :=
  NilZero.string_of_uint (Nat.to_uint n).

(** ** [String.prototype.trim] *)

(** The UTF-8 encodings of the code points [trim] strips: WhiteSpace
    (TAB, VT, FF, SP, NBSP, ZWNBSP and the space separators) and
    LineTerminator (LF, CR, LS, PS). *)
Definition white_space : list (list ascii) :=
  map (map ascii_of_nat)
    ([ [9]; [10]; [11]; [12]; [13]; [32]; [194; 160]; [225; 154; 128] ]
     ++ map (fun k => [226; 128; 128 + k]) (seq 0 11)
     ++ [ [226; 128; 168]; [226; 128; 169]; [226; 128; 175];
          [226; 129; 159]; [227; 128; 128]; [239; 187; 191] ]).

Fixpoint strip_prefix (p s : list ascii) : option (list ascii) :=
  match p, s with
  | [], _ => Some s
  | _ :: _, [] => None
  | a :: p', b :: s' => if (a =? b)%char then strip_prefix p' s' else None
  end.

Fixpoint strip_first (ws : list (list ascii)) (s : list ascii)
  : option (list ascii) :=
  match ws with
  | [] => None
  | w :: ws' =>
      match strip_prefix w s with
      | Some rest => Some rest
      | None => strip_first ws' s
      end
  end.

Fixpoint strip_all (ws : list (list ascii)) (n : nat) (s : list ascii)
  : list ascii :=
  match n with
  | O => s
  | S n' =>
      match strip_first ws s with
      | Some rest => strip_all ws n' rest
      | None => s
      end
  end.

Definition trim (s : string) : string :=
  let l := list_ascii_of_string s in
  let l1 := strip_all white_space (List.length l) l in
  let r := rev l1 in
  string_of_list_ascii
    (rev (strip_all (map (@rev ascii) white_space) (List.length r) r)).

(** [v.trim()] on an arbitrary value. *)
Definition call_trim (what : string) (v : Json) : Result string :=
  match v with
  | JStr s => Ok (trim s)
  | JUndefined => Thrown (TypeError_read "undefined" "trim")
  | JNull => Thrown (TypeError_read "null" "trim")
  | _ => Thrown (TypeError_not_a_function (what ++ ".trim"))
  end.

(** ** The regular expression [/[-\w]{25,}/] *)

Definition between (lo hi : nat) (c : ascii) : bool :=
  ((lo <=? nat_of_ascii c) && (nat_of_ascii c <=? hi))%nat.

(** [\w] without the unicode flag: [[A-Za-z0-9_]]. *)
Definition is_word_char (c : ascii) : bool :=
  between 65 90 c || between 97 122 c || between 48 57 c || (c =? "_")%char.

(** The class [[-\w]]. *)
Definition in_class (c : ascii) : bool := (c =? "-")%char || is_word_char c.

(** The greedy quantifier: the longest run of class characters at the
    head of [s]. *)
Fixpoint class_run (s : string) : string :=
  match s with
  | EmptyString => EmptyString
  | String c rest => if in_class c then String c (class_run rest) else EmptyString
  end.

(** [s.match(/[-\w]{25,}/)]: the matcher tries each start position from
    the left; at a position the greedy quantifier takes the longest run,
    and the attempt succeeds when that run has 25 characters or more
    (backtracking could only shorten it).  [Some m] is [match[0]]. *)
Fixpoint match_id_run (s : string) : option string :=
  match s with
  | EmptyString => None
  | String _ rest =>
      let run := class_run s in
      if (25 <=? String.length run)%nat then Some run else match_id_run rest
  end.

(** ** [Buffer.prototype.toString("base64")] *)

Definition Buffer : Type := list byte.

Definition base64_alphabet : string :=
  "ABCDEFGHIJKLMNOPQRSTUVWXYZabcdefghijklmnopqrstuvwxyz0123456789+/".

Definition base64_digit (n : N) : ascii :=
  match String.get (N.to_nat n) base64_alphabet with
  | Some c => c
  | None => "="%char
  end.

Fixpoint base64 (buf : Buffer) : string :=
  match buf with
  | [] => ""
  | [a] =>
      let x := Byte.to_N a in
      String (base64_digit (x / 4))
        (String (base64_digit ((x mod 4) * 16)) "==")
  | [a; b] =>
      let x := Byte.to_N a in
      let y := Byte.to_N b in
      String (base64_digit (x / 4))
        (String (base64_digit ((x mod 4) * 16 + y / 16))
           (String (base64_digit ((y mod 16) * 4)) "="))
  | a :: b :: c :: rest =>
      let x := Byte.to_N a in
      let y := Byte.to_N b in
      let z := Byte.to_N c in
      String (base64_digit (x / 4))
        (String (base64_digit ((x mod 4) * 16 + y / 16))
           (String (base64_digit ((y mod 16) * 4 + z / 64))
              (String (base64_digit (z mod 64)) (base64 rest))))
  end%N.

End Js.
Import Js.

(* ===================================================================== *)
(** * Sequential effectful code: state, exceptions, and fuel              *)
(* ===================================================================== *)

(** How a computation ends: it returns, it throws, or the model ran out
    of fuel (the JavaScript program would still be running). *)
Inductive Outcome (A : Type) : Type :=
| Ret (a : A)
| Throw (e : JsError)
| OutOfFuel.
Arguments Ret {A} a.
Arguments Throw {A} e.
Arguments OutOfFuel {A}.

(** A computation over a state [S]; the state it leaves is kept in every
    case, so what was done before an exception stays visible. *)
Definition M (S A : Type) : Type := S -> S * Outcome A.

Definition ret {S A} (a : A) : M S A := fun s => (s, Ret a).

Definition throw {S A} (e : JsError) : M S A := fun s => (s, Throw e).

Definition out_of_fuel {S A} : M S A := fun s => (s, OutOfFuel).

Definition bind {S A B} (m : M S A) (k : A -> M S B) : M S B :=
  fun s =>
    match m s with
    | (s', Ret a) => k a s'
    | (s', Throw e) => (s', Throw e)
    | (s', OutOfFuel) => (s', OutOfFuel)
    end.

(** A value computed by pure code that may throw. *)
Definition lift_result {S A} (r : Result A) : M S A :=
  match r with
  | Ok a => ret a
  | Thrown e => throw e
  end.

(** [try { body } catch (err) { handler(err) }] *)
Definition try_catch {S A} (body : M S A) (handler : JsError -> M S A) : M S A :=
  fun s =>
    match body s with
    | (s', Throw e) => handler e s'
    | other => other
    end.

Declare Scope js_scope.
Delimit Scope js_scope with js.
Notation "x <- m ;; k" := (bind m (fun x => k))
  (at level 61, m at next level, right associativity) : js_scope.
Notation "m ;;; k" := (bind m (fun _ => k))
  (at level 61, right associativity) : js_scope.
Local Open Scope js_scope.

(** [for (const x of xs) { body(x) }] *)
Fixpoint for_of {S A} (xs : list A) (body : A -> M S unit) : M S unit :=
  match xs with
  | [] => ret tt
  | x :: rest => body x ;;; for_of rest body
  end.

(* ===================================================================== *)
(** * Pure helpers of [server.js]                                         *)
(* ===================================================================== *)

(** [extractDriveId(linkOrId)]: [None] is [null].  A truthy value that is
    not a string has no [match] method, and the call throws. *)
Definition extractDriveId (linkOrId : Json) : Result (option string) :=
  if negb (js_truthy linkOrId) then Ok None
  else
    match linkOrId with
    | JStr s =>
        match match_id_run s with
        | Some folderMatch => Ok (Some folderMatch)
        | None => Ok (Some s)
        end
    | _ => Thrown (TypeError_not_a_function "linkOrId.match")
    end.

Definition mime_document : string := "application/vnd.google-apps.document".
Definition mime_spreadsheet : string := "application/vnd.google-apps.spreadsheet".
Definition mime_presentation : string := "application/vnd.google-apps.presentation".
Definition mime_folder : string := "application/vnd.google-apps.folder".

(** [pickExportMimeType(mimeType)]: [None] is [null]. *)
Definition pickExportMimeType (mimeType : string) : option string :=
  if (mimeType =? mime_document)%string then Some "text/plain"
  else if (mimeType =? mime_spreadsheet)%string then Some "text/csv"
  else if (mimeType =? mime_presentation)%string then Some "application/pdf"
  else None.

(* ===================================================================== *)
(** * The Google Drive service, as the collector sees it                  *)
(* ===================================================================== *)

(** [res.data] of [drive.files.get] with [fields: "id,name,mimeType,parents"]. *)
Record Meta : Type := mkMeta
  { meta_id : string; meta_name : string; meta_mimeType : string;
    meta_parents : list string }.

(** One entry of [files(id, name, mimeType)]. *)
Record DriveFile : Type := mkFile
  { file_id : string; file_name : string; file_mimeType : string }.

(** [qRes.data] of [drive.files.list]; an absent field is [None]. *)
Record FileList : Type := mkFileList
  { nextPageToken : option string; files : option (list DriveFile) }.

(** [qRes.data.files || []] *)
Definition files_or_empty (r : FileList) : list DriveFile :=
  match files r with Some l => l | None => [] end.

(** The calls the collector issues, with the parameters it passes. *)
Inductive DriveCall : Type :=
| FilesGet (fileId fields : string)
| FilesList (q fields : string) (pageToken : option string)
| FilesExport (fileId mimeType : string)
| FilesGetMedia (fileId : string).

(** A completed call: what was asked, and the error if it was rejected. *)
Record DriveEvent : Type := mkDriveEvent
  { dcall : DriveCall; derror : option JsError }.

Definition DriveTrace : Type := list DriveEvent.

(** The service answers a call knowing the calls made before it. *)
Record Drive : Type := mkDrive
  { files_get : DriveTrace -> string -> Result Meta;
    files_list : DriveTrace -> string -> option string -> Result FileList;
    files_export : DriveTrace -> string -> string -> Result Buffer;
    files_get_media : DriveTrace -> string -> Result Buffer }.

(** A Drive whose answers do not depend on the history: a snapshot. *)
Record Snapshot : Type := mkSnapshot
  { snap_get : string -> Result Meta;
    snap_list : string -> option string -> Result FileList;
    snap_export : string -> string -> Result Buffer;
    snap_media : string -> Result Buffer }.

Definition of_snapshot (s : Snapshot) : Drive :=
  {| files_get := fun _ => snap_get s;
     files_list := fun _ => snap_list s;
     files_export := fun _ => snap_export s;
     files_get_media := fun _ => snap_media s |}.

(* ===================================================================== *)
(** * The collector: [collectDriveFiles]                                  *)
(* ===================================================================== *)

(** An element of [results]: [{ path, buffer }]. *)
Record CollectedFile : Type := mkCollected { path : string; buffer : Buffer }.

(** What the closures of [collectDriveFiles] share: the [results] array
    and the calls made on [drive] so far. *)
Record CState : Type := mkCState
  { results : list CollectedFile; dtrace : DriveTrace }.

(** [await drive.files.X(...)]: the call is logged when it completes; a
    rejected promise is rethrown by [await]. *)
Definition drive_call {A} (c : DriveCall) (answer : DriveTrace -> Result A)
  : M CState A :=
  fun st =>
    let r := answer (dtrace st) in
    ({| results := results st;
        dtrace := dtrace st ++ [mkDriveEvent c (thrown_error r)] |},
     match r with Ok a => Ret a | Thrown e => Throw e end).

(** [results.push(f)] *)
Definition push (f : CollectedFile) : M CState unit :=
  fun st => ({| results := results st ++ [f]; dtrace := dtrace st |}, Ret tt).

Definition meta_fields : string := "id,name,mimeType,parents".
Definition list_fields : string := "nextPageToken, files(id, name, mimeType)".

(** [`'${folderId}' in parents and trashed=false`] *)
Definition list_query (folderId : string) : string :=
  "'" ++ folderId ++ "' in parents and trashed=false".

Section Collector.

Variable drive : Drive.

Definition getMeta (id : string) : M CState Meta :=
  drive_call (FilesGet id meta_fields) (fun t => files_get drive t id).

Definition download_media (id : string) : M CState Buffer :=
  drive_call (FilesGetMedia id) (fun t => files_get_media drive t id).

(** [Buffer.from(r.data)] copies the bytes of the array buffer. *)
Definition downloadFileAsBuffer (id mimeType : string) : M CState Buffer :=
  let exportMime := pickExportMimeType mimeType in
  match exportMime with
  | Some em =>
      if str_truthy em
      then drive_call (FilesExport id em) (fun t => files_export drive t id em)
      else download_media id
  | None => download_media id
  end.

(** The body of [walkFolder] is a [do ... while (pageToken)] loop;
    [walkFolder_from] is that loop entered with a given [pageToken].  One
    unit of fuel is spent per page fetched, and the recursive calls on
    sub-folders run on what is left. *)
Fixpoint walkFolder_from (fuel : nat) (folderId pathPrefix : string)
    (pageToken : option string) : M CState unit :=
  match fuel with
  | O => out_of_fuel
  | S fuel' =>
      qRes <- drive_call (FilesList (list_query folderId) list_fields pageToken)
                (fun t => files_list drive t (list_query folderId) pageToken) ;;
      let pageToken := nextPageToken qRes in
      let files := files_or_empty qRes in
      for_of files (fun f =>
        if (file_mimeType f =? mime_folder)%string
        then walkFolder_from fuel' (file_id f)
               (pathPrefix ++ file_name f ++ "/") None
        else
          buf <- downloadFileAsBuffer (file_id f) (file_mimeType f) ;;
          push {| path := pathPrefix ++ file_name f; buffer := buf |}) ;;;
      if opt_truthy pageToken
      then walkFolder_from fuel' folderId pathPrefix pageToken
      else ret tt
  end.

(** [walkFolder(folderId, pathPrefix)]: [let pageToken = null; do ...] *)
Definition walkFolder (fuel : nat) (folderId pathPrefix : string)
  : M CState unit :=
  walkFolder_from fuel folderId pathPrefix None.

(** The body of the [for (const f of files)] loop of [walkFolder]. *)
Definition walk_entry (fuel : nat) (pathPrefix : string) (f : DriveFile)
  : M CState unit :=
  if (file_mimeType f =? mime_folder)%string
  then walkFolder fuel (file_id f) (pathPrefix ++ file_name f ++ "/")
  else
    buf <- downloadFileAsBuffer (file_id f) (file_mimeType f) ;;
    push {| path := pathPrefix ++ file_name f; buffer := buf |}.

(** The statements of [collectDriveFiles] after [const results = []]. *)
Definition collect_body (fuel : nat) (driveId : string) : M CState unit :=
  meta <- getMeta driveId ;;
  if (meta_mimeType meta =? mime_folder)%string
  then walkFolder fuel driveId (meta_name meta ++ "/")
  else
    buf <- downloadFileAsBuffer driveId (meta_mimeType meta) ;;
    push {| path := meta_name meta; buffer := buf |}.

(** [collectDriveFiles(oauth2Client, driveId)]: [results] is a fresh
    array, and it reaches the caller only through [return results]. *)
Definition collectDriveFiles (fuel : nat) (driveId : string)
  : M DriveTrace (list CollectedFile) :=
  fun t =>
    match collect_body fuel driveId {| results := []; dtrace := t |} with
    | (st, Ret _) => (dtrace st, Ret (results st))
    | (st, Throw e) => (dtrace st, Throw e)
    | (st, OutOfFuel) => (dtrace st, OutOfFuel)
    end.

End Collector.

(* ===================================================================== *)
(** * The GitHub service and the publisher: [createGitHubRepoAndPush]     *)
(* ===================================================================== *)

Inductive Endpoint : Type :=
| UserRepos
| GitBlobs (owner repoName : string)
| GitTrees (owner repoName : string)
| GitCommits (owner repoName : string)
| GitRefs (owner repoName : string).

Definition apiBase : string := "https://api.github.com".

(** The URL each [fetch] is given. *)
Definition url (e : Endpoint) : string :=
  match e with
  | UserRepos => apiBase ++ "/user/repos"
  | GitBlobs o r => apiBase ++ "/repos/" ++ o ++ "/" ++ r ++ "/git/blobs"
  | GitTrees o r => apiBase ++ "/repos/" ++ o ++ "/" ++ r ++ "/git/trees"
  | GitCommits o r => apiBase ++ "/repos/" ++ o ++ "/" ++ r ++ "/git/commits"
  | GitRefs o r => apiBase ++ "/repos/" ++ o ++ "/" ++ r ++ "/git/refs"
  end.

(** A [fetch] request; [body] is the value handed to [JSON.stringify]. *)
Record Request : Type := mkRequest
  { endpoint : Endpoint; method : string;
    headers : list (string * string); body : Json }.

(** A [fetch] response: [res.ok], and what [res.text()] and [res.json()]
    resolve to (or reject with). *)
Record Response : Type := mkResponse
  { ok : bool; text : Result string; json : Result Json }.

(** A completed [fetch]: the request and what the promise settled to. *)
Record HubEvent : Type := mkHubEvent
  { request : Request; response : Result Response }.

Definition HubTrace : Type := list HubEvent.

Definition GitHub : Type := HubTrace -> Request -> Result Response.

(** An element of [blobs]: [{ path, sha }]. *)
Record Blob : Type := mkBlob { blob_path : string; blob_sha : Json }.

Section Publisher.

Variable hub : GitHub.

(** [await fetch(url, { method, headers, body })] *)
Definition fetch (rq : Request) : M HubTrace Response :=
  fun t =>
    let r := hub t rq in
    (t ++ [mkHubEvent rq r],
     match r with Ok a => Ret a | Thrown e => Throw e end).

(** [if (!res.ok) { const txt = await res.text(); throw new Error(what + txt); }] *)
Definition check_ok (res : Response) (what : string) : M HubTrace unit :=
  if negb (ok res)
  then txt <- lift_result (text res) ;; throw (Error (what ++ txt))
  else ret tt.

Definition post (e : Endpoint) (hdrs : list (string * string)) (b : Json)
  : M HubTrace Response :=
  fetch {| endpoint := e; method := "POST";
           headers := hdrs ++ [("Content-Type", "application/json")];
           body := b |}.

(** The [for (const f of files)] loop that fills [blobs]. *)
Fixpoint create_blobs (hdrs : list (string * string)) (owner repoName : string)
    (files : list CollectedFile) (blobs : list Blob) : M HubTrace (list Blob) :=
  match files with
  | [] => ret blobs
  | f :: rest =>
      let b64 := base64 (buffer f) in
      blobRes <- post (GitBlobs owner repoName) hdrs
                   (JObj [("content", JStr b64); ("encoding", JStr "base64")]) ;;
      check_ok blobRes "Failed to create blob: " ;;;
      blobJson <- lift_result (json blobRes) ;;
      sha <- lift_result (get_prop blobJson "sha") ;;
      create_blobs hdrs owner repoName rest
        (blobs ++ [{| blob_path := path f; blob_sha := sha |}])
  end.

Definition tree_item (b : Blob) : Json :=
  JObj [("path", JStr (blob_path b)); ("mode", JStr "100644");
        ("type", JStr "blob"); ("sha", blob_sha b)].

Definition commit_message : string := "Initial commit — import from Google Drive".

(** [createGitHubRepoAndPush(githubToken, ownerOrOrg, repoName, files)];
    [ownerOrOrg] is not used.  The owner read from the response is spliced
    into the URLs by a template literal. *)
Definition createGitHubRepoAndPush (githubToken : string) (ownerOrOrg : Json)
    (repoName : string) (files : list CollectedFile) : M HubTrace Json :=
  let hdrs := [("Authorization", ("token " ++ githubToken)%string);
               ("User-Agent", "drive-to-github-app");
               ("Accept", "application/vnd.github.v3+json")] in
  createRes <- post UserRepos hdrs
                 (JObj [("name", JStr repoName);
                        ("description", JStr "Imported from Google Drive");
                        ("private", JBool false)]) ;;
  check_ok createRes "Failed to create repo: " ;;;
  repoJson <- lift_result (json createRes) ;;
  repoOwner <- lift_result (get_prop repoJson "owner") ;;
  ownerLogin <- lift_result (get_prop repoOwner "login") ;;
  let owner := js_string_of ownerLogin in
  blobs <- create_blobs hdrs owner repoName files [] ;;
  let treeItems := map tree_item blobs in
  treeRes <- post (GitTrees owner repoName) hdrs
               (JObj [("tree", JArr treeItems)]) ;;
  check_ok treeRes "Failed to create tree: " ;;;
  treeJson <- lift_result (json treeRes) ;;
  treeSha <- lift_result (get_prop treeJson "sha") ;;
  commitRes <- post (GitCommits owner repoName) hdrs
                 (JObj [("message", JStr commit_message); ("tree", treeSha)]) ;;
  check_ok commitRes "Failed to create commit: " ;;;
  commitJson <- lift_result (json commitRes) ;;
  commitSha <- lift_result (get_prop commitJson "sha") ;;
  refRes <- post (GitRefs owner repoName) hdrs
              (JObj [("ref", JStr "refs/heads/main"); ("sha", commitSha)]) ;;
  check_ok refRes "Failed to create ref: " ;;;
  html_url <- lift_result (get_prop repoJson "html_url") ;;
  ret (JObj [("html_url", html_url)]).

End Publisher.

(* ===================================================================== *)
(** * The request handler: [app.post("/create-repo", ...)]                *)
(* ===================================================================== *)

(** What the handler reads from [req]: [req.session.googleTokens] and the
    three fields of [req.body] (any JSON value; [JUndefined] when absent). *)
Record HttpRequest : Type := mkHttpRequest
  { session_googleTokens : Json;
    body_githubToken : Json;
    body_repoName : Json;
    body_driveLinkOrId : Json }.

(** The methods the handler calls on [res] and that return, in order. *)
Inductive ResCall : Type :=
| ResStatus (code : nat)
| ResSend (payload : string)
| ResWriteHead (code : nat) (hdrs : list (string * string))
| ResWrite (chunk : string)
| ResEnd.

(** Everything the handler acts on. *)
Record World : Type := mkWorld
  { res_calls : list ResCall;
    console_errors : list JsError;
    drive_trace : DriveTrace;
    hub_trace : HubTrace }.

Definition new_world : World :=
  {| res_calls := []; console_errors := []; drive_trace := []; hub_trace := [] |}.

(** [res.headersSent]: the head of a response goes out with the first
    call that writes to it: [writeHead], [write], [send] or [end];
    [status] only sets [res.statusCode]. *)
Definition sends_head (c : ResCall) : bool :=
  match c with
  | ResStatus _ => false
  | ResSend _ | ResWriteHead _ _ | ResWrite _ | ResEnd => true
  end.

Definition headers_sent (calls : list ResCall) : bool := existsb sends_head calls.

(** The error [ERR_HTTP_HEADERS_SENT] of Node: [setHeader] raises it with
    the verb "set", [writeHead] with the verb "write". *)
Definition headers_sent_error (verb : string) : JsError :=
  mkError "Error"
    ("Cannot " ++ verb ++ " headers after they are sent to the client").

(** What a call on [res] throws, if it does.  [res.send] sets the
    [Content-Type] header before it writes anything, and [res.writeHead]
    checks that no head was written: both throw once the head has gone
    out.  [status], [write] and [end] return. *)
Definition res_throws (sent : list ResCall) (c : ResCall) : option JsError :=
  match c with
  | ResSend _ =>
      if headers_sent sent then Some (headers_sent_error "set") else None
  | ResWriteHead _ _ =>
      if headers_sent sent then Some (headers_sent_error "write") else None
  | ResStatus _ | ResWrite _ | ResEnd => None
  end.

(** A call on [res]: a call that throws leaves the response as it was. *)
Definition res_do (c : ResCall) : M World unit :=
  fun w =>
    match res_throws (res_calls w) c with
    | Some e => (w, Throw e)
    | None =>
        ({| res_calls := res_calls w ++ [c]; console_errors := console_errors w;
            drive_trace := drive_trace w; hub_trace := hub_trace w |}, Ret tt)
    end.

(** Express hands each request a response of its own, on which nothing
    has been called yet; the calls the handler makes on it are added to
    the log of the world. *)
Definition fresh_response (w : World) : World :=
  {| res_calls := []; console_errors := console_errors w;
     drive_trace := drive_trace w; hub_trace := hub_trace w |}.

Definition with_fresh_response {A} (handler : M World A) : M World A :=
  fun w =>
    let (w', o) := handler (fresh_response w) in
    ({| res_calls := res_calls w ++ res_calls w';
        console_errors := console_errors w';
        drive_trace := drive_trace w'; hub_trace := hub_trace w' |}, o).

(** [console.error(err)] *)
Definition console_error (e : JsError) : M World unit :=
  fun w =>
    ({| res_calls := res_calls w; console_errors := console_errors w ++ [e];
        drive_trace := drive_trace w; hub_trace := hub_trace w |}, Ret tt).

(** Run a computation that talks to Drive only. *)
Definition on_drive {A} (m : M DriveTrace A) : M World A :=
  fun w =>
    let (t, o) := m (drive_trace w) in
    ({| res_calls := res_calls w; console_errors := console_errors w;
        drive_trace := t; hub_trace := hub_trace w |}, o).

(** Run a computation that talks to GitHub only. *)
Definition on_hub {A} (m : M HubTrace A) : M World A :=
  fun w =>
    let (t, o) := m (hub_trace w) in
    ({| res_calls := res_calls w; console_errors := console_errors w;
        drive_trace := drive_trace w; hub_trace := t |}, o).

Definition dquote : string := String (ascii_of_nat 34) EmptyString.

Definition msg_sign_in_first : string :=
  "You must sign in with Google first (click 'Sign in with Google' on the main page).".
Definition msg_missing : string :=
  "Missing githubToken, repoName or driveLinkOrId".
Definition msg_no_drive_id : string :=
  "Could not extract Drive ID from the provided link.".
Definition msg_collecting : string :=
  "<p>Collecting files from Google Drive — this may take a few moments...</p>".
Definition msg_no_files : string := "<p>No files found.</p>".
Definition msg_collected (n : nat) : string :=
  "<p>Collected " ++ nat_to_string n
    ++ " file(s). Creating GitHub repo and pushing files...</p>".
Definition msg_done (u : string) : string :=
  "<p>Done! Repo created: <a href=" ++ dquote ++ u ++ dquote
    ++ " target=" ++ dquote ++ "_blank" ++ dquote ++ ">" ++ u ++ "</a></p>".

Section Handler.

Variable drive : Drive.
Variable hub : GitHub.

(** The [try] block.  [drive] stands for
    [google.drive({ version: "v3", auth: oauth2Client })] with the
    session's credentials; the 200 ms pause has no effect on the model. *)
Definition create_repo_try (fuel : nat) (req : HttpRequest) : M World unit :=
  let githubToken := body_githubToken req in
  let repoName := body_repoName req in
  let driveLinkOrId := body_driveLinkOrId req in
  if negb (js_truthy (session_googleTokens req)) then
    res_do (ResStatus 400) ;;; res_do (ResSend msg_sign_in_first)
  else if negb (js_truthy githubToken) || negb (js_truthy repoName)
          || negb (js_truthy driveLinkOrId) then
    res_do (ResStatus 400) ;;; res_do (ResSend msg_missing)
  else
    driveId <- lift_result (extractDriveId driveLinkOrId) ;;
    match driveId with
    | None => res_do (ResStatus 400) ;;; res_do (ResSend msg_no_drive_id)
    | Some id =>
        if negb (str_truthy id) then
          res_do (ResStatus 400) ;;; res_do (ResSend msg_no_drive_id)
        else
          res_do (ResWriteHead 200 [("Content-Type", "text/html; charset=utf-8")]) ;;;
          res_do (ResWrite msg_collecting) ;;;
          files <- on_drive (collectDriveFiles drive fuel id) ;;
          if (List.length files =? 0)%nat then
            res_do (ResWrite msg_no_files) ;;; res_do ResEnd
          else
            res_do (ResWrite (msg_collected (List.length files))) ;;;
            token <- lift_result (call_trim "githubToken" githubToken) ;;
            name <- lift_result (call_trim "repoName" repoName) ;;
            result <- on_hub (createGitHubRepoAndPush hub token JNull name files) ;;
            html_url <- lift_result (get_prop result "html_url") ;;
            res_do (ResWrite (msg_done (js_string_of html_url))) ;;;
            res_do ResEnd
    end.

(** The handler: the [try] block and its [catch (err)], on the response
    of the request.  An error thrown inside the [catch] block leaves the
    handler: its promise is rejected, and the outcome is that [Throw]. *)
Definition create_repo (fuel : nat) (req : HttpRequest) : M World unit :=
  with_fresh_response
    (try_catch (create_repo_try fuel req)
       (fun err =>
          console_error err ;;;
          res_do (ResStatus 500) ;;;
          res_do (ResSend ("Error: " ++ error_to_string err)))).

End Handler.

(* ===================================================================== *)
(** * Source trees: what a snapshot presents to the collector             *)
(* ===================================================================== *)

(** A finite source tree.  A leaf carries the bytes the service delivers
    for it; a container carries its listing, page by page.  A page that is
    followed by another one carries the token that leads to the next. *)
Inductive Node : Type :=
| Leaf (f : DriveFile) (content : Buffer)
| Container (f : DriveFile) (listing : Pages)
with Pages : Type :=
| LastPage (entries : Nodes) (token : option string)
| MorePages (entries : Nodes) (token : string) (rest : Pages)
with Nodes : Type :=
| NoNode
| ConsNode (n : Node) (rest : Nodes).

Scheme Node_mut := Induction for Node Sort Prop
  with Pages_mut := Induction for Pages Sort Prop
  with Nodes_mut := Induction for Nodes Sort Prop.
Combined Scheme Tree_mutind from Node_mut, Pages_mut, Nodes_mut.

Definition root_file (n : Node) : DriveFile :=
  match n with Leaf f _ => f | Container f _ => f end.

Definition node_name (n : Node) : string := file_name (root_file n).

Fixpoint nodes_list (ns : Nodes) : list Node :=
  match ns with
  | NoNode => []
  | ConsNode n rest => n :: nodes_list rest
  end.

(** The entries of a listing, all pages together, in listing order. *)
Fixpoint children (ps : Pages) : list Node :=
  match ps with
  | LastPage entries _ => nodes_list entries
  | MorePages entries _ rest => nodes_list entries ++ children rest
  end.

Fixpoint page_count (ps : Pages) : nat :=
  match ps with
  | LastPage _ _ => 1
  | MorePages _ _ rest => S (page_count rest)
  end.

(** What the service delivers for a leaf: the export in the format picked
    for a native document, the raw bytes otherwise. *)
Definition snap_content (s : Snapshot) (id mimeType : string) : Result Buffer :=
  match pickExportMimeType mimeType with
  | Some em => if str_truthy em then snap_export s id em else snap_media s id
  | None => snap_media s id
  end.

(** [served s n]: the snapshot [s] presents the tree [n].  The pages of a
    container are chained by their tokens: the first page is the answer to
    the listing without a token, each further page is the answer to the
    token the page before it returned, and the last page is the first one
    whose token is absent or empty. *)
Fixpoint served (s : Snapshot) (n : Node) : Prop :=
  match n with
  | Leaf f content =>
      (file_mimeType f =? mime_folder)%string = false
      /\ snap_content s (file_id f) (file_mimeType f) = Ok content
  | Container f listing =>
      (file_mimeType f =? mime_folder)%string = true
      /\ served_pages s (list_query (file_id f)) None listing
  end
with served_pages (s : Snapshot) (q : string) (tok : option string)
    (ps : Pages) : Prop :=
  match ps with
  | LastPage entries token =>
      match snap_list s q tok with
      | Ok r =>
          files_or_empty r = map root_file (nodes_list entries)
          /\ nextPageToken r = token
          /\ opt_truthy token = false
          /\ served_nodes s entries
      | Thrown _ => False
      end
  | MorePages entries token rest =>
      match snap_list s q tok with
      | Ok r =>
          files_or_empty r = map root_file (nodes_list entries)
          /\ nextPageToken r = Some token
          /\ str_truthy token = true
          /\ served_nodes s entries
          /\ served_pages s q (Some token) rest
      | Thrown _ => False
      end
  end
with served_nodes (s : Snapshot) (ns : Nodes) : Prop :=
  match ns with
  | NoNode => True
  | ConsNode n rest => served s n /\ served_nodes s rest
  end.

(** [served_root s driveId n]: the metadata of [driveId] names the root of
    [n], and [s] presents [n] below it. *)
Definition served_root (s : Snapshot) (driveId : string) (n : Node) : Prop :=
  match snap_get s driveId with
  | Ok meta =>
      root_file n = {| file_id := driveId; file_name := meta_name meta;
                       file_mimeType := meta_mimeType meta |}
      /\ served s n
  | Thrown _ => False
  end.

(** The flat collection of a tree: depth first, in listing order, each
    leaf under the names of the containers above it. *)
Fixpoint flatten (prefix : string) (n : Node) : list CollectedFile :=
  match n with
  | Leaf f content => [ {| path := prefix ++ file_name f; buffer := content |} ]
  | Container f listing => flatten_pages (prefix ++ file_name f ++ "/") listing
  end
with flatten_pages (prefix : string) (ps : Pages) : list CollectedFile :=
  match ps with
  | LastPage entries _ => flatten_nodes prefix entries
  | MorePages entries _ rest =>
      flatten_nodes prefix entries ++ flatten_pages prefix rest
  end
with flatten_nodes (prefix : string) (ns : Nodes) : list CollectedFile :=
  match ns with
  | NoNode => []
  | ConsNode n rest => flatten prefix n ++ flatten_nodes prefix rest
  end.

Definition ok_event (c : DriveCall) : DriveEvent :=
  {| dcall := c; derror := None |}.

Definition content_call (id mimeType : string) : DriveCall :=
  match pickExportMimeType mimeType with
  | Some em => if str_truthy em then FilesExport id em else FilesGetMedia id
  | None => FilesGetMedia id
  end.

(** The calls a walk of the tree consists of: one listing call per page,
    followed by the calls for the entries of that page. *)
Fixpoint calls (n : Node) : list DriveEvent :=
  match n with
  | Leaf f _ => [ ok_event (content_call (file_id f) (file_mimeType f)) ]
  | Container f listing => calls_pages (list_query (file_id f)) None listing
  end
with calls_pages (q : string) (tok : option string) (ps : Pages)
  : list DriveEvent :=
  match ps with
  | LastPage entries _ =>
      ok_event (FilesList q list_fields tok) :: calls_nodes entries
  | MorePages entries token rest =>
      ok_event (FilesList q list_fields tok)
        :: calls_nodes entries ++ calls_pages q (Some token) rest
  end
with calls_nodes (ns : Nodes) : list DriveEvent :=
  match ns with
  | NoNode => []
  | ConsNode n rest => calls n ++ calls_nodes rest
  end.

(** The listing calls for query [q] among the events of a trace. *)
Definition page_requests (q : string) (t : DriveTrace) : list (option string) :=
  flat_map (fun ev =>
              match dcall ev with
              | FilesList q' _ tok => if (q' =? q)%string then [tok] else []
              | _ => []
              end) t.

(** The tokens a paginated listing is requested with, page by page. *)
Fixpoint page_tokens (tok : option string) (ps : Pages) : list (option string) :=
  match ps with
  | LastPage _ _ => [tok]
  | MorePages _ token rest => tok :: page_tokens (Some token) rest
  end.

(** Fuel that suffices to walk a tree: the longest chain of page fetches,
    each nested in or following the one before. *)
Fixpoint height (n : Node) : nat :=
  match n with
  | Leaf _ _ => 0
  | Container _ listing => height_pages listing
  end
with height_pages (ps : Pages) : nat :=
  match ps with
  | LastPage entries _ => S (height_nodes entries)
  | MorePages entries _ rest =>
      S (Nat.max (height_nodes entries) (height_pages rest))
  end
with height_nodes (ns : Nodes) : nat :=
  match ns with
  | NoNode => 0
  | ConsNode n rest => Nat.max (height n) (height_nodes rest)
  end.

(** Names that compose unambiguous paths: no separator inside a name, and
    no two entries of one container with the same name. *)
Fixpoint slash_free (s : string) : bool :=
  match s with
  | EmptyString => true
  | String c rest => negb (c =? "/")%char && slash_free rest
  end.

Fixpoint distinct (l : list string) : bool :=
  match l with
  | [] => true
  | x :: rest => negb (existsb (String.eqb x) rest) && distinct rest
  end.

Fixpoint well_named (n : Node) : bool :=
  match n with
  | Leaf _ _ => true
  | Container _ listing =>
      forallb slash_free (map node_name (children listing))
      && distinct (map node_name (children listing))
      && well_named_pages listing
  end
with well_named_pages (ps : Pages) : bool :=
  match ps with
  | LastPage entries _ => well_named_nodes entries
  | MorePages entries _ rest => well_named_nodes entries && well_named_pages rest
  end
with well_named_nodes (ns : Nodes) : bool :=
  match ns with
  | NoNode => true
  | ConsNode n rest => well_named n && well_named_nodes rest
  end.

(** A step down the tree extends the path: what follows the name of a
    node is nothing (the node is the leaf) or starts with the separator. *)
Definition path_tail (rest : string) : Prop :=
  rest = EmptyString \/ exists r, rest = String "/" r.

(** The listing queries of the containers of a tree: of the root, if it
    is a container, and of the containers below it. *)
Fixpoint queries (n : Node) : list string :=
  match n with
  | Leaf _ _ => []
  | Container f listing => list_query (file_id f) :: queries_pages listing
  end
with queries_pages (ps : Pages) : list string :=
  match ps with
  | LastPage entries _ => queries_nodes entries
  | MorePages entries _ rest => queries_nodes entries ++ queries_pages rest
  end
with queries_nodes (ns : Nodes) : list string :=
  match ns with
  | NoNode => []
  | ConsNode n rest => queries n ++ queries_nodes rest
  end.

(** [m] only appends to [results], and only files below [prefix]. *)
Definition appends_under {A} (prefix : string) (m : M CState A) : Prop :=
  forall st st' o,
    m st = (st', o) ->
    exists added,
      results st' = results st ++ added
      /\ Forall (fun c => exists r, path c = (prefix ++ r)%string) added.

(** What a computation adds to the trace of Drive calls: no call but the
    last can have failed, and the computation throws exactly when the last
    call failed, with the error of that call. *)
Definition all_ok (evs : DriveTrace) : Prop :=
  Forall (fun ev => derror ev = None) evs.

Definition fails_last {A} (made : DriveTrace) (o : Outcome A) : Prop :=
  match o with
  | Throw e => exists pre c, made = pre ++ [mkDriveEvent c (Some e)] /\ all_ok pre
  | _ => all_ok made
  end.

Definition tracked {A} (m : M CState A) : Prop :=
  forall st st' o,
    m st = (st', o) ->
    exists made, dtrace st' = dtrace st ++ made /\ fails_last made o.

(** The state after more files were pushed and more calls completed. *)
Definition extend (st : CState) (fs : list CollectedFile) (evs : DriveTrace)
  : CState :=
  {| results := results st ++ fs; dtrace := dtrace st ++ evs |}.

(* ===================================================================== *)
(** * Runs of identifier characters in a link                             *)
(* ===================================================================== *)

Fixpoint all_in_class (s : string) : bool :=
  match s with
  | EmptyString => true
  | String c rest => in_class c && all_in_class rest
  end.

Definition starts_in_class (s : string) : bool :=
  match s with
  | EmptyString => false
  | String c _ => in_class c
  end.

Fixpoint ends_in_class (s : string) : bool :=
  match s with
  | EmptyString => false
  | String c EmptyString => in_class c
  | String _ rest => ends_in_class rest
  end.

(** A run of 25 or more word or hyphen characters. *)
Definition long_run (m : string) : Prop :=
  all_in_class m = true /\ 25 <= String.length m.

Definition has_long_run (s : string) : Prop :=
  exists pre m post, s = (pre ++ m ++ post)%string /\ long_run m.

(** [r] is the first maximal long run of [s]: it cannot be extended to
    the left or to the right, and no long run lies before it. *)
Definition first_maximal_run (s r : string) : Prop :=
  exists pre post,
    s = (pre ++ r ++ post)%string
    /\ long_run r
    /\ ends_in_class pre = false
    /\ starts_in_class post = false
    /\ ~ has_long_run pre.

(** [m] adds to [res] only calls that pass [P], and leaves the rest of
    the world to the computations it runs. *)
Definition responds {A} (P : ResCall -> Prop) (m : M World A) : Prop :=
  forall w w' o,
    m w = (w', o) ->
    exists made, res_calls w' = res_calls w ++ made /\ Forall P made.

(* ===================================================================== *)
(** * Stages of a publication                                             *)
(* ===================================================================== *)

(** The stage a call belongs to; a blob upload is told by its payload. *)
Inductive Stage : Type :=
| RepoStage
| BlobStage (payload : Json)
| TreeStage
| CommitStage
| RefStage.

Definition stage_for (e : Endpoint) (b : Json) : Stage :=
  match e with
  | UserRepos => RepoStage
  | GitBlobs _ _ => BlobStage b
  | GitTrees _ _ => TreeStage
  | GitCommits _ _ => CommitStage
  | GitRefs _ _ => RefStage
  end.

Definition stage_of (ev : HubEvent) : Stage :=
  stage_for (endpoint (request ev)) (body (request ev)).

(** The call returned, and its response was [ok]. *)
Definition returned_ok (ev : HubEvent) : Prop :=
  exists r, response ev = Ok r /\ ok r = true.

(** The payload of the upload of a collected file. *)
Definition blob_payload (f : CollectedFile) : Json :=
  JObj [("content", JStr (base64 (buffer f))); ("encoding", JStr "base64")].

Definition blob_stages (files : list CollectedFile) : list Stage :=
  map (fun f => BlobStage (blob_payload f)) files.

(** The stages of a complete publication of [files]. *)
Definition stage_plan (files : list CollectedFile) : list Stage :=
  RepoStage :: blob_stages files ++ [TreeStage; CommitStage; RefStage].

(** [m] makes the calls of [plan], in order, as far as it gets: it goes
    on to the next call only after the one before returned with [ok], and
    it returns only after all of them did. *)
Definition follows_plan {A} (plan : list Stage) (m : M HubTrace A) : Prop :=
  forall t t' o,
    m t = (t', o) ->
    o <> OutOfFuel
    /\ exists made,
         t' = t ++ made
         /\ Forall returned_ok (removelast made)
         /\ (exists rest, map stage_of made ++ rest = plan)
         /\ (forall a, o = Ret a ->
               map stage_of made = plan /\ Forall returned_ok made).

(** The headers every request carries, and the first request of a
    publication. *)
Definition auth_headers (githubToken : string) : list (string * string) :=
  [("Authorization", ("token " ++ githubToken)%string);
   ("User-Agent", "drive-to-github-app");
   ("Accept", "application/vnd.github.v3+json")].

Definition repo_request (githubToken repoName : string) : Request :=
  {| endpoint := UserRepos; method := "POST";
     headers := auth_headers githubToken ++ [("Content-Type", "application/json")];
     body := JObj [("name", JStr repoName);
                   ("description", JStr "Imported from Google Drive");
                   ("private", JBool false)] |}.

(* ===================================================================== *)
(** * Concrete services used to exercise the model                        *)
(* ===================================================================== *)

Module Demo.

Definition not_found : JsError := mkError "GaxiosError" "File not found".

Definition csv_bytes : Buffer := list_byte_of_string "item,cost".
Definition png_bytes : Buffer := [x89; x50; x4e; x47].

Definition proj : DriveFile := mkFile "1proj" "proj" mime_folder.
Definition docs : DriveFile := mkFile "2docs" "docs" mime_folder.
Definition budget : DriveFile := mkFile "3budget" "budget" mime_spreadsheet.
Definition logo : DriveFile := mkFile "4logo" "logo.png" "image/png".

(** A folder [proj] whose listing comes in two pages: the sub-folder
    [docs], holding the native spreadsheet [budget], then the binary
    file [logo.png]. *)
Definition snapshot : Snapshot :=
  {| snap_get := fun id =>
       if (id =? "1proj")%string then Ok (mkMeta "1proj" "proj" mime_folder [])
       else if (id =? "4logo")%string
            then Ok (mkMeta "4logo" "logo.png" "image/png" ["1proj"])
       else Thrown not_found;
     snap_list := fun q tok =>
       if (q =? list_query "1proj")%string then
         match tok with
         | None => Ok (mkFileList (Some "page2") (Some [docs]))
         | Some t =>
             if (t =? "page2")%string then Ok (mkFileList None (Some [logo]))
             else Thrown not_found
         end
       else if (q =? list_query "2docs")%string then
         match tok with
         | None => Ok (mkFileList None (Some [budget]))
         | Some _ => Thrown not_found
         end
       else Thrown not_found;
     snap_export := fun id em =>
       if ((id =? "3budget") && (em =? "text/csv"))%string then Ok csv_bytes
       else Thrown not_found;
     snap_media := fun id =>
       if (id =? "4logo")%string then Ok png_bytes else Thrown not_found |}.

Definition tree : Node :=
  Container proj
    (MorePages
       (ConsNode
          (Container docs (LastPage (ConsNode (Leaf budget csv_bytes) NoNode) None))
          NoNode)
       "page2"
       (LastPage (ConsNode (Leaf logo png_bytes) NoNode) None)).

(** A folder [R] listing two files that are both named [L]. *)
Definition twin_a : DriveFile := mkFile "a" "L" "text/plain".
Definition twin_b : DriveFile := mkFile "b" "L" "text/plain".

Definition twins : Snapshot :=
  {| snap_get := fun id =>
       if (id =? "r")%string then Ok (mkMeta "r" "R" mime_folder [])
       else Thrown not_found;
     snap_list := fun q tok =>
       if (q =? list_query "r")%string then
         match tok with
         | None => Ok (mkFileList None (Some [twin_a; twin_b]))
         | Some _ => Thrown not_found
         end
       else Thrown not_found;
     snap_export := fun _ _ => Thrown not_found;
     snap_media := fun id =>
       if (id =? "a")%string then Ok [x61]
       else if (id =? "b")%string then Ok [x62]
       else Thrown not_found |}.

Definition twins_tree : Node :=
  Container (mkFile "r" "R" mime_folder)
    (LastPage (ConsNode (Leaf twin_a [x61]) (ConsNode (Leaf twin_b [x62]) NoNode))
       None).

(** The first snapshot, except that the download of [logo.png] is
    rejected. *)
Definition rate_limit : JsError := mkError "GaxiosError" "Rate limit exceeded".

Definition broken : Snapshot :=
  {| snap_get := snap_get snapshot;
     snap_list := snap_list snapshot;
     snap_export := snap_export snapshot;
     snap_media := fun _ => Thrown rate_limit |}.

Definition failed_download : DriveEvent :=
  {| dcall := FilesGetMedia "4logo"; derror := Some rate_limit |}.

(** An empty folder. *)
Definition hollow : Snapshot :=
  {| snap_get := fun id => Ok (mkMeta id "empty" mime_folder []);
     snap_list := fun _ _ => Ok (mkFileList None (Some []));
     snap_export := fun _ _ => Thrown not_found;
     snap_media := fun _ => Thrown not_found |}.

(** The collection of the first snapshot. *)
Definition two_files : list CollectedFile :=
  [ {| path := "proj/docs/budget"; buffer := csv_bytes |};
    {| path := "proj/logo.png"; buffer := png_bytes |} ].

Definition json_response (v : Json) : Response :=
  {| ok := true; text := Ok ""; json := Ok v |}.

(** A GitHub that accepts everything; blobs are numbered by the calls
    made before them. *)
Definition hub : GitHub :=
  fun history rq =>
    match endpoint rq with
    | UserRepos =>
        Ok (json_response
              (JObj [("owner", JObj [("login", JStr "octocat")]);
                     ("html_url", JStr "https://github.com/octocat/demo")]))
    | GitBlobs _ _ =>
        Ok (json_response
              (JObj [("sha", JStr ("blob" ++ nat_to_string (List.length history)))]))
    | GitTrees _ _ => Ok (json_response (JObj [("sha", JStr "tree1")]))
    | GitCommits _ _ => Ok (json_response (JObj [("sha", JStr "commit1")]))
    | GitRefs _ _ => Ok (json_response (JObj [("ref", JStr "refs/heads/main")]))
    end.

Definition refusal : Response :=
  {| ok := false; text := Ok "Validation Failed";
     json := Ok (JObj [("message", JStr "Validation Failed")]) |}.

(** The same, except that the second blob is refused. *)
Definition stingy : GitHub :=
  fun history rq =>
    match endpoint rq with
    | GitBlobs _ _ =>
        if (List.length history =? 2)%nat then Ok refusal else hub history rq
    | _ => hub history rq
    end.

(** A request of a signed-in user for the folder of the first snapshot. *)
Definition drive_link : string :=
  "https://drive.google.com/drive/folders/1AbCdEfGhIjKlMnOpQrStUvWxYz_-0123?usp=sharing".

Definition request_for (link : string) : HttpRequest :=
  {| session_googleTokens := JObj [("access_token", JStr "ya29.token")];
     body_githubToken := JStr " ghp_token ";
     body_repoName := JStr "demo";
     body_driveLinkOrId := JStr link |}.

End Demo.

(* ===================================================================== *)
(** * Start-up configuration and the OAuth client                         *)
(* ===================================================================== *)

(** The environment variables the program reads; an unset variable is
    [None]. *)
Record Env : Type := mkEnv
  { env_PORT : option string;
    env_BASE_URL : option string;
    env_GOOGLE_CLIENT_ID : option string;
    env_GOOGLE_CLIENT_SECRET : option string;
    env_SESSION_SECRET : option string }.

(** [process.env.X || fallback], and [process.env.X ? a : b]. *)
Definition env_or {A} (o : option string) (present : string -> A) (absent : A) : A :=
  match o with
  | Some v => if str_truthy v then present v else absent
  | None => absent
  end.

(** [const PORT = process.env.PORT || 3000] *)
Definition PORT (env : Env) : Json :=
  env_or (env_PORT env) JStr (JNum "3000").

(** Whether the start-up check prints its warning. *)
Definition warns_at_startup (env : Env) : bool :=
  negb (opt_truthy (env_GOOGLE_CLIENT_ID env))
  || negb (opt_truthy (env_GOOGLE_CLIENT_SECRET env))
  || negb (opt_truthy (env_SESSION_SECRET env)).

(** [secret: process.env.SESSION_SECRET || "dev-secret"] *)
Definition session_secret (env : Env) : string :=
  env_or (env_SESSION_SECRET env) (fun v => v) "dev-secret".

(** [`App listening on port ${PORT}`] *)
Definition listening_message (env : Env) : string :=
  "App listening on port " ++ js_string_of (PORT env).

(** The arguments of [new google.auth.OAuth2(...)]. *)
Record OAuthClient : Type := mkOAuthClient
  { client_id : option string;
    client_secret : option string;
    redirect_uri : string }.

Definition makeOAuthClient (env : Env) : OAuthClient :=
  {| client_id := env_GOOGLE_CLIENT_ID env;
     client_secret := env_GOOGLE_CLIENT_SECRET env;
     redirect_uri :=
       (env_or (env_BASE_URL env) (fun b => b)
          (env_or (env_PORT env) (fun p => "http://localhost:" ++ p)
             "http://localhost:3000")
        ++ "/oauth2callback")%string |}.

(* ===================================================================== *)
(** * The OAuth callback: [app.get("/oauth2callback", ...)]               *)
(* ===================================================================== *)

(** A call of [oauth2Client.getToken(code)]. *)
Record TokenRequest : Type := mkTokenRequest
  { asking_client : OAuthClient; asked_code : Json }.

(** Google's token endpoint: what [getToken] resolves to, or the error it
    rejects with, given the requests made before. *)
Definition OAuth : Type := list TokenRequest -> OAuthClient -> Json -> Result Json.

(** What the callback acts on: [res], the console, the session's
    [googleTokens] ([JUndefined] until set) and the token requests made. *)
Record AuthWorld : Type := mkAuthWorld
  { auth_res : list ResCall;
    auth_console : list JsError;
    session_tokens : Json;
    token_requests : list TokenRequest }.

Definition newline : string := String (ascii_of_nat 10) EmptyString.

Definition msg_granted : string :=
  newline
  ++ "      <p>Google Drive access granted. You can now go back to the <a href="
  ++ dquote ++ "/" ++ dquote ++ ">main page</a> and create a repo.</p>"
  ++ newline
  ++ "      <p>If you're done, close this window or go back to the main page.</p>"
  ++ newline ++ "    ".

(** [const { k } = v]: destructuring [undefined] or [null] throws. *)
Definition destructure (v : Json) (k what : string) : Result Json :=
  match v with
  | JUndefined =>
      Thrown (mkError "TypeError"
                ("Cannot destructure property '" ++ k ++ "' of '" ++ what
                 ++ "' as it is undefined."))
  | JNull =>
      Thrown (mkError "TypeError"
                ("Cannot destructure property '" ++ k ++ "' of '" ++ what
                 ++ "' as it is null."))
  | JObj fields => Ok (lookup_field k fields)
  | _ => Ok JUndefined
  end.

(** A call on [res].  The callback calls [res.send] at most once in a run
    and writes nothing before it, so no call of it finds the head sent. *)
Definition auth_res_do (c : ResCall) : M AuthWorld unit :=
  fun w =>
    ({| auth_res := auth_res w ++ [c]; auth_console := auth_console w;
        session_tokens := session_tokens w;
        token_requests := token_requests w |}, Ret tt).

Definition auth_console_error (e : JsError) : M AuthWorld unit :=
  fun w =>
    ({| auth_res := auth_res w; auth_console := auth_console w ++ [e];
        session_tokens := session_tokens w;
        token_requests := token_requests w |}, Ret tt).

(** [req.session.googleTokens = tokens] *)
Definition store_tokens (tokens : Json) : M AuthWorld unit :=
  fun w =>
    ({| auth_res := auth_res w; auth_console := auth_console w;
        session_tokens := tokens;
        token_requests := token_requests w |}, Ret tt).

Section Callback.

Variable env : Env.
Variable oauth : OAuth.

(** [await oauth2Client.getToken(code)] *)
Definition getToken (client : OAuthClient) (code : Json) : M AuthWorld Json :=
  fun w =>
    ({| auth_res := auth_res w; auth_console := auth_console w;
        session_tokens := session_tokens w;
        token_requests := token_requests w ++ [mkTokenRequest client code] |},
     match oauth (token_requests w) client code with
     | Ok v => Ret v
     | Thrown e => Throw e
     end).

(** The handler; [code] is [req.query.code].  [setCredentials] changes
    only the client object, which the handler drops when it returns. *)
Definition oauth2callback (code : Json) : M AuthWorld unit :=
  try_catch
    (let oauth2Client := makeOAuthClient env in
     answer <- getToken oauth2Client code ;;
     tokens <- lift_result (destructure answer "tokens" "(intermediate value)") ;;
     store_tokens tokens ;;;
     auth_res_do (ResSend msg_granted))
    (fun err =>
       auth_console_error err ;;;
       auth_res_do (ResStatus 500) ;;;
       auth_res_do (ResSend ("Google OAuth error: " ++ error_to_string err))).

End Callback.

(** The request [/create-repo] sees in a session: its [googleTokens] and
    the posted fields. *)
Definition request_in_session (tokens githubToken repoName driveLinkOrId : Json)
  : HttpRequest :=
  {| session_googleTokens := tokens;
     body_githubToken := githubToken;
     body_repoName := repoName;
     body_driveLinkOrId := driveLinkOrId |}.

(* ===================================================================== *)
(** * Further vocabulary for runs                                         *)
(* ===================================================================== *)

(** The number of leaves of a tree. *)
Fixpoint leaf_count (n : Node) : nat :=
  match n with
  | Leaf _ _ => 1
  | Container _ listing => leaf_count_pages listing
  end
with leaf_count_pages (ps : Pages) : nat :=
  match ps with
  | LastPage entries _ => leaf_count_nodes entries
  | MorePages entries _ rest => leaf_count_nodes entries + leaf_count_pages rest
  end
with leaf_count_nodes (ns : Nodes) : nat :=
  match ns with
  | NoNode => 0
  | ConsNode n rest => leaf_count n + leaf_count_nodes rest
  end.

(** A call that fetches the content of a file. *)
Definition is_content_call (ev : DriveEvent) : bool :=
  match dcall ev with
  | FilesExport _ _ | FilesGetMedia _ => true
  | _ => false
  end.

(** [m] pushes one file per content call that succeeded. *)
Definition counted {A} (m : M CState A) : Prop :=
  forall st st' o,
    m st = (st', o) ->
    exists made added,
      dtrace st' = dtrace st ++ made
      /\ results st' = results st ++ added
      /\ List.length added
         = List.length
             (filter (fun ev => is_content_call ev
                                && match derror ev with None => true | Some _ => false end)
                made).

(** The prefix of the error message of each stage. *)
Definition failure_label (stg : Stage) : string :=
  match stg with
  | RepoStage => "Failed to create repo: "
  | BlobStage _ => "Failed to create blob: "
  | TreeStage => "Failed to create tree: "
  | CommitStage => "Failed to create commit: "
  | RefStage => "Failed to create ref: "
  end.

(** When the last call of [m] got a response that is not [ok], [m]
    throws the error that names the stage and carries the response's
    text. *)
Definition names_failure {A} (m : M HubTrace A) : Prop :=
  forall t t' o,
    m t = (t', o) ->
    forall pre ev r txt,
      t' = t ++ pre ++ [ev] ->
      response ev = Ok r -> ok r = false -> text r = Ok txt ->
      o = Throw (Error (failure_label (stage_of ev) ++ txt)).

(** Every call [m] makes passes [P]. *)
Definition sends {A} (P : HubEvent -> Prop) (m : M HubTrace A) : Prop :=
  forall t t' o,
    m t = (t', o) -> exists made, t' = t ++ made /\ Forall P made.

(** [(await res.json()).sha] of a completed call. *)
Definition response_sha (ev : HubEvent) : Result Json :=
  match response ev with
  | Ok r =>
      match json r with
      | Ok j => get_prop j "sha"
      | Thrown e => Thrown e
      end
  | Thrown e => Thrown e
  end.

(** The repository an endpoint belongs to. *)
Definition repo_target (e : Endpoint) : option (string * string) :=
  match e with
  | UserRepos => None
  | GitBlobs o r | GitTrees o r | GitCommits o r | GitRefs o r => Some (o, r)
  end.

(** The login of the owner in the response to the repository creation. *)
Definition created_owner (ev : HubEvent) : Result Json :=
  match response ev with
  | Ok r =>
      match json r with
      | Ok j =>
          match get_prop j "owner" with
          | Ok o => get_prop o "login"
          | Thrown e => Thrown e
          end
      | Thrown e => Thrown e
      end
  | Thrown e => Thrown e
  end.

(** The answer of the handler to an error caught by its [catch]. *)
Definition error_answer (e : JsError) : list ResCall :=
  [ ResStatus 500; ResSend ("Error: " ++ error_to_string e) ].

Definition head_200 : ResCall :=
  ResWriteHead 200 [("Content-Type", "text/html; charset=utf-8")].

(** The calls that finish a response: [res.send] and [res.end]. *)
Definition ends_response (c : ResCall) : bool :=
  match c with
  | ResSend _ | ResEnd => true
  | _ => false
  end.

(** The world after the handler made more calls. *)
Definition answered (w : World) (calls : list ResCall) (errs : list JsError)
    (dt : DriveTrace) (ht : HubTrace) : World :=
  {| res_calls := res_calls w ++ calls;
     console_errors := console_errors w ++ errs;
     drive_trace := dt;
     hub_trace := ht |}.

(** The route to each leaf of a tree, in listing order: the names from
    the root down to the leaf. *)
Fixpoint routes (n : Node) : list (list string) :=
  match n with
  | Leaf f _ => [[file_name f]]
  | Container f listing => map (cons (file_name f)) (routes_pages listing)
  end
with routes_pages (ps : Pages) : list (list string) :=
  match ps with
  | LastPage entries _ => routes_nodes entries
  | MorePages entries _ rest => routes_nodes entries ++ routes_pages rest
  end
with routes_nodes (ns : Nodes) : list (list string) :=
  match ns with
  | NoNode => []
  | ConsNode n rest => routes n ++ routes_nodes rest
  end.

(** The names of a route joined by "/", the root's name first. *)
Definition join_path (route : list string) : string := String.concat "/" route.

(** The characters of the class [[-\w]], spelled out one by one: the
    hyphen, the underscore, the digits and the letters.  The notions below
    speak of runs of these characters without the tests of the matcher. *)
Definition id_alphabet : string :=
  "-_0123456789ABCDEFGHIJKLMNOPQRSTUVWXYZabcdefghijklmnopqrstuvwxyz".

Definition id_char (c : ascii) : Prop :=
  In c (list_ascii_of_string id_alphabet).

Fixpoint id_chars (s : string) : Prop :=
  match s with
  | EmptyString => True
  | String c rest => id_char c /\ id_chars rest
  end.

(** A run of 25 or more identifier characters. *)
Definition id_run (m : string) : Prop :=
  id_chars m /\ 25 <= String.length m.

Definition holds_id_run (s : string) : Prop :=
  exists pre m post, s = (pre ++ m ++ post)%string /\ id_run m.

(** [r] is the first maximal run of [s]: a run that is preceded and
    followed by no identifier character, with no run before it. *)
Definition first_id_run (s r : string) : Prop :=
  exists pre post,
    s = (pre ++ r ++ post)%string
    /\ id_run r
    /\ (forall pre' c, pre = (pre' ++ String c EmptyString)%string -> ~ id_char c)
    /\ (forall c post', post = String c post' -> ~ id_char c)
    /\ ~ holds_id_run pre.

(** Usual shapes of a Drive link. *)
Definition folder_link_prefix : string := "https://drive.google.com/drive/folders/".
Definition file_link_prefix : string := "https://drive.google.com/file/d/".
Definition open_link_prefix : string := "https://drive.google.com/open?id=".

(** Further services to exercise the model. *)
Module Sample.

Definition env : Env :=
  {| env_PORT := Some "8080"; env_BASE_URL := None;
     env_GOOGLE_CLIENT_ID := Some "client-id";
     env_GOOGLE_CLIENT_SECRET := Some "client-secret";
     env_SESSION_SECRET := Some "s3cret" |}.

Definition granted_tokens : Json :=
  JObj [("access_token", JStr "ya29.token"); ("token_type", JStr "Bearer")].

(** A token endpoint that accepts the code ["good"] only. *)
Definition oauth : OAuth :=
  fun _ _ code =>
    match code with
    | JStr c =>
        if (c =? "good")%string
        then Ok (JObj [("tokens", granted_tokens); ("res", JNull)])
        else Thrown (mkError "GaxiosError" "invalid_grant")
    | _ => Thrown (mkError "GaxiosError" "invalid_request")
    end.

Definition fresh : AuthWorld :=
  {| auth_res := []; auth_console := []; session_tokens := JUndefined;
     token_requests := [] |}.

(** A GitHub on which the repository name is taken. *)
Definition name_taken : Response :=
  {| ok := false; text := Ok "name already exists on this account";
     json := Ok (JObj [("message", JStr "Repository creation failed.")]) |}.

Definition crowded : GitHub := fun _ _ => Ok name_taken.

Definition a_folder_id : string := "1AbCdEfGhIjKlMnOpQrStUvWxYz_-0123".

(** The tree the empty-folder snapshot presents below that identifier. *)
Definition hollow_tree : Node :=
  Container (mkFile a_folder_id "empty" mime_folder) (LastPage NoNode None).

(** A single file whose name is the empty string. *)
Definition nameless : Snapshot :=
  {| snap_get := fun id => Ok (mkMeta id "" "text/plain" []);
     snap_list := fun _ _ => Thrown (mkError "Error" "not a folder");
     snap_export := fun _ _ => Thrown (mkError "Error" "not a document");
     snap_media := fun _ => Ok [x68; x69] |}.

(** A folder whose listing always announces a further page. *)
Definition endless : Snapshot :=
  {| snap_get := fun id => Ok (mkMeta id "loop" mime_folder []);
     snap_list := fun _ _ => Ok (mkFileList (Some "next") (Some []));
     snap_export := fun _ _ => Thrown (mkError "Error" "no such file");
     snap_media := fun _ => Thrown (mkError "Error" "no such file") |}.

End Sample.

(* ===================================================================== *)
(** * Facts about sequencing                                              *)
(* ===================================================================== *)

Section MonadFacts.

Context {S A B : Type}.

Lemma bind_ret (m : M S A) (k : A -> M S B) s s' a :
  m s = (s', Ret a) -> bind m k s = k a s'.
Proof. intros H. unfold bind. now rewrite H. Qed.

Lemma bind_throw (m : M S A) (k : A -> M S B) s s' e :
  m s = (s', Throw e) -> bind m k s = (s', Throw e).
Proof. intros H. unfold bind. now rewrite H. Qed.

Lemma bind_out_of_fuel (m : M S A) (k : A -> M S B) s s' :
  m s = (s', OutOfFuel) -> bind m k s = (s', OutOfFuel).
Proof. intros H. unfold bind. now rewrite H. Qed.

(** A sequence ends the way its first part does, unless that part
    returns. *)
Lemma bind_inv (m : M S A) (k : A -> M S B) s s2 o :
  bind m k s = (s2, o) ->
  (exists s1 a, m s = (s1, Ret a) /\ k a s1 = (s2, o))
  \/ (exists e, m s = (s2, Throw e) /\ o = Throw e)
  \/ (m s = (s2, OutOfFuel) /\ o = OutOfFuel).
Proof.
  unfold bind. destruct (m s) as [s1 [a | e | ]]; intros H.
  - left. now exists s1, a.
  - right. left. inversion H; subst. now exists e.
  - right. right. inversion H; subst. now split.
Qed.

End MonadFacts.

Lemma for_of_app {S A} (xs ys : list A) (body : A -> M S unit) s s' :
  for_of xs body s = (s', Ret tt) ->
  for_of (xs ++ ys) body s = for_of ys body s'.
Proof.
  revert s. induction xs as [| x xs IH]; intros s H; simpl in *.
  - unfold ret in H. now inversion H.
  - unfold bind in *. destruct (body x s) as [s1 [[] | e | ]]; try discriminate.
    now apply IH.
Qed.

(* ===================================================================== *)
(** * The collector on a snapshot: walking a presented tree               *)
(* ===================================================================== *)

Section Walk.

Variable s : Snapshot.
Let d : Drive := of_snapshot s.

Lemma extend_nil st : extend st [] [] = st.
Proof. destruct st; unfold extend; simpl. now rewrite !app_nil_r. Qed.

Lemma extend_extend st f1 e1 f2 e2 :
  extend (extend st f1 e1) f2 e2 = extend st (f1 ++ f2) (e1 ++ e2).
Proof. unfold extend; simpl. now rewrite !app_assoc. Qed.

Lemma walkFolder_from_S fuel id prefix tok :
  walkFolder_from d (S fuel) id prefix tok =
  (qRes <- drive_call (FilesList (list_query id) list_fields tok)
             (fun t => files_list d t (list_query id) tok) ;;
   for_of (files_or_empty qRes) (walk_entry d fuel prefix) ;;;
   if opt_truthy (nextPageToken qRes)
   then walkFolder_from d fuel id prefix (nextPageToken qRes)
   else ret tt).
Proof. reflexivity. Qed.

Lemma list_call_ok id tok r st :
  snap_list s (list_query id) tok = Ok r ->
  drive_call (FilesList (list_query id) list_fields tok)
    (fun t => files_list d t (list_query id) tok) st
  = (extend st [] [ok_event (FilesList (list_query id) list_fields tok)], Ret r).
Proof.
  intros H. unfold drive_call, extend, d; simpl. rewrite H; simpl.
  now rewrite app_nil_r.
Qed.

Lemma download_ok id mime content st :
  snap_content s id mime = Ok content ->
  downloadFileAsBuffer d id mime st
  = (extend st [] [ok_event (content_call id mime)], Ret content).
Proof.
  unfold snap_content, downloadFileAsBuffer, content_call, download_media,
    drive_call, extend, d.
  destruct (pickExportMimeType mime) as [em |]; [destruct (str_truthy em) |];
    simpl; intros H; rewrite H; simpl; now rewrite app_nil_r.
Qed.

(** Walking a presented tree with enough fuel returns, having appended
    the flat collection of the tree and made exactly its calls. *)
Lemma walk_served :
  (forall n, forall fuel prefix st,
      served s n -> height n <= fuel ->
      walk_entry d fuel prefix (root_file n) st
      = (extend st (flatten prefix n) (calls n), Ret tt))
  /\ (forall ps, forall fuel id prefix tok st,
         served_pages s (list_query id) tok ps -> height_pages ps <= fuel ->
         walkFolder_from d fuel id prefix tok st
         = (extend st (flatten_pages prefix ps)
              (calls_pages (list_query id) tok ps), Ret tt))
  /\ (forall ns, forall fuel prefix st,
         served_nodes s ns -> height_nodes ns <= fuel ->
         for_of (map root_file (nodes_list ns)) (walk_entry d fuel prefix) st
         = (extend st (flatten_nodes prefix ns) (calls_nodes ns), Ret tt)).
Proof.
  apply Tree_mutind.
  - (* leaf *)
    intros f content fuel prefix st [Hm Hc] _. unfold walk_entry; simpl.
    rewrite Hm. erewrite bind_ret by (apply download_ok; eassumption).
    unfold push, extend; simpl. now rewrite app_nil_r.
  - (* container *)
    intros f listing IH fuel prefix st [Hm Hs] Hf. unfold walk_entry; simpl.
    rewrite Hm. unfold walkFolder. now apply IH.
  - (* last page *)
    intros entries IH token fuel id prefix tok st Hs Hf. simpl in Hs, Hf.
    destruct (snap_list s (list_query id) tok) as [r |] eqn:Hl; [| contradiction].
    destruct Hs as (Hfiles & Hnext & Hfalsy & Hentries).
    destruct fuel as [| fuel]; [lia |].
    rewrite walkFolder_from_S.
    erewrite bind_ret by (apply list_call_ok; eassumption).
    rewrite Hfiles.
    erewrite bind_ret by (apply IH; [assumption | lia]).
    rewrite Hnext, Hfalsy. unfold ret. now rewrite extend_extend.
  - (* a page followed by more *)
    intros entries IHe token rest IHr fuel id prefix tok st Hs Hf.
    simpl in Hs, Hf.
    destruct (snap_list s (list_query id) tok) as [r |] eqn:Hl; [| contradiction].
    destruct Hs as (Hfiles & Hnext & Htruthy & Hentries & Hrest).
    destruct fuel as [| fuel]; [lia |].
    rewrite walkFolder_from_S.
    erewrite bind_ret by (apply list_call_ok; eassumption).
    rewrite Hfiles.
    erewrite bind_ret by (apply IHe; [assumption | lia]).
    rewrite Hnext.
    change (opt_truthy (Some token)) with (str_truthy token). rewrite Htruthy.
    rewrite IHr by (try assumption; lia).
    rewrite !extend_extend. reflexivity.
  - (* no entry *)
    intros fuel prefix st _ _. simpl. unfold ret. now rewrite extend_nil.
  - (* an entry and the rest *)
    intros n IHn rest IHr fuel prefix st [Hn Hr] Hf. simpl in Hf.
    simpl nodes_list. simpl map. simpl for_of.
    erewrite bind_ret by (apply IHn; [assumption | lia]).
    rewrite IHr by (try assumption; lia).
    now rewrite extend_extend.
Qed.

Lemma download_inv id mime st st' content :
  downloadFileAsBuffer d id mime st = (st', Ret content) ->
  snap_content s id mime = Ok content.
Proof.
  unfold snap_content, downloadFileAsBuffer, download_media, drive_call, d.
  destruct (pickExportMimeType mime) as [em |]; [destruct (str_truthy em) |];
    simpl.
  - destruct (snap_export s id em); now inversion 1.
  - destruct (snap_media s id); now inversion 1.
  - destruct (snap_media s id); now inversion 1.
Qed.

Lemma list_call_inv id tok st st' r :
  drive_call (FilesList (list_query id) list_fields tok)
    (fun t => files_list d t (list_query id) tok) st = (st', Ret r) ->
  snap_list s (list_query id) tok = Ok r.
Proof.
  unfold drive_call, d; simpl.
  destruct (snap_list s (list_query id) tok); now inversion 1.
Qed.

(** The entries of one page: if the loop over them returns, they are the
    roots of presented trees. *)
Lemma entries_presented fuel prefix :
  (forall id p st st',
      walkFolder_from d fuel id p None st = (st', Ret tt) ->
      exists ps, served_pages s (list_query id) None ps
                 /\ height_pages ps <= fuel) ->
  forall fs st st',
    for_of fs (walk_entry d fuel prefix) st = (st', Ret tt) ->
    exists ns, map root_file (nodes_list ns) = fs
               /\ served_nodes s ns /\ height_nodes ns <= fuel.
Proof.
  intros IH fs. induction fs as [| f fs IHfs]; intros st st' H.
  - exists NoNode. simpl. repeat split; lia.
  - simpl in H. apply bind_inv in H.
    destruct H as [(st1 & [] & Hf & Hrest) | [(e & _ & He) | [_ He]]];
      try discriminate.
    destruct (IHfs _ _ Hrest) as (ns & Hmap & Hserved & Hh).
    unfold walk_entry in Hf.
    destruct (file_mimeType f =? mime_folder)%string eqn:Hm.
    + destruct (IH _ _ _ _ Hf) as (ps & Hps & Hhp).
      exists (ConsNode (Container f ps) ns). simpl.
      rewrite Hmap. repeat split; try assumption. lia.
    + apply bind_inv in Hf.
      destruct Hf as [(st2 & buf & Hd & _) | [(e & _ & He) | [_ He]]];
        try discriminate.
      apply download_inv in Hd.
      exists (ConsNode (Leaf f buf) ns). simpl.
      rewrite Hmap. repeat split; try assumption.
Qed.

(** Every walk that returns is the walk of a presented listing. *)
Lemma walk_presented fuel :
  forall id prefix tok st st',
    walkFolder_from d fuel id prefix tok st = (st', Ret tt) ->
    exists ps, served_pages s (list_query id) tok ps /\ height_pages ps <= fuel.
Proof.
  induction fuel as [| fuel IH]; intros id prefix tok st st' H.
  - discriminate.
  - rewrite walkFolder_from_S in H. apply bind_inv in H.
    destruct H as [(st1 & r & Hl & H) | [(e & _ & He) | [_ He]]];
      try discriminate.
    apply list_call_inv in Hl.
    apply bind_inv in H.
    destruct H as [(st2 & [] & Hfor & H) | [(e & _ & He) | [_ He]]];
      try discriminate.
    destruct (entries_presented fuel prefix
                (fun id p st st' => IH id p None st st') _ _ _ Hfor)
      as (ns & Hmap & Hserved & Hh).
    destruct (opt_truthy (nextPageToken r)) eqn:Ht.
    + destruct (nextPageToken r) as [token |] eqn:Hn; [| discriminate].
      destruct (IH _ _ _ _ _ H) as (ps & Hps & Hhp).
      exists (MorePages ns token ps). simpl. rewrite Hl.
      repeat split; try assumption; try (now symmetry). lia.
    + exists (LastPage ns (nextPageToken r)). simpl. rewrite Hl.
      repeat split; try assumption; try (now symmetry). lia.
Qed.

End Walk.
(** After the metadata call, [collectDriveFiles] treats the root the way
    the walk treats an entry, with an empty prefix. *)
Lemma collect_body_eq d fuel driveId :
  collect_body d fuel driveId =
  (meta <- getMeta d driveId ;;
   walk_entry d fuel ""
     {| file_id := driveId; file_name := meta_name meta;
        file_mimeType := meta_mimeType meta |}).
Proof. reflexivity. Qed.

(** The whole collector on a presented tree. *)
Lemma collect_served s driveId n fuel t :
  served_root s driveId n -> height n <= fuel ->
  collectDriveFiles (of_snapshot s) fuel driveId t
  = (t ++ ok_event (FilesGet driveId meta_fields) :: calls n,
     Ret (flatten "" n)).
Proof.
  unfold served_root. destruct (snap_get s driveId) as [meta |] eqn:Hg;
    [| contradiction].
  intros [Hroot Hserved] Hfuel.
  unfold collectDriveFiles. rewrite collect_body_eq.
  erewrite bind_ret.
  2:{ unfold getMeta, drive_call. simpl files_get. rewrite Hg. reflexivity. }
  rewrite <- Hroot.
  rewrite (proj1 (walk_served s) n fuel "" _ Hserved Hfuel).
  unfold extend; simpl. now rewrite <- app_assoc.
Qed.

(* ===================================================================== *)
(** * Paths                                                               *)
(* ===================================================================== *)

Lemma append_assoc (a b c : string) : ((a ++ b) ++ c = a ++ (b ++ c))%string.
Proof. induction a as [| x a IH]; simpl; [reflexivity | now rewrite IH]. Qed.

Lemma append_nil_r (a : string) : (a ++ "")%string = a.
Proof. induction a as [| x a IH]; simpl; [reflexivity | now rewrite IH]. Qed.

Lemma append_inv_head (p a b : string) : (p ++ a = p ++ b)%string -> a = b.
Proof.
  induction p as [| x p IH]; simpl; intros H; [assumption |].
  inversion H. now apply IH.
Qed.

Lemma flatten_nodes_flat_map prefix ns :
  flatten_nodes prefix ns = flat_map (flatten prefix) (nodes_list ns).
Proof. induction ns as [| n ns IH]; simpl; [reflexivity | now rewrite IH]. Qed.

Lemma flatten_pages_flat_map prefix ps :
  flatten_pages prefix ps = flat_map (flatten prefix) (children ps).
Proof.
  induction ps as [es tok | es tok rest IH]; simpl.
  - apply flatten_nodes_flat_map.
  - now rewrite flat_map_app, flatten_nodes_flat_map, IH.
Qed.

Lemma flatten_paths :
  (forall n prefix c, In c (flatten prefix n) ->
     exists rest, path c = (prefix ++ node_name n ++ rest)%string
                  /\ path_tail rest)
  /\ (forall ps prefix c, In c (flatten_pages prefix ps) ->
        exists r, path c = (prefix ++ r)%string)
  /\ (forall ns prefix c, In c (flatten_nodes prefix ns) ->
        exists r, path c = (prefix ++ r)%string).
Proof.
  apply Tree_mutind.
  - intros f content prefix c [<- | []]. exists EmptyString. split.
    + unfold node_name; simpl. now rewrite append_nil_r.
    + now left.
  - intros f listing IH prefix c Hin. simpl in Hin.
    destruct (IH _ _ Hin) as (r & Hr).
    exists (String "/" r). split; [| right; now exists r].
    rewrite Hr. unfold node_name; simpl.
    now rewrite !append_assoc.
  - intros es IH tok prefix c Hin. now apply IH.
  - intros es IHe tok rest IHr prefix c Hin. simpl in Hin.
    apply in_app_or in Hin as [Hin | Hin]; [now apply IHe | now apply IHr].
  - intros prefix c [].
  - intros n IHn rest IHr prefix c Hin. simpl in Hin.
    apply in_app_or in Hin as [Hin | Hin].
    + destruct (IHn _ _ Hin) as (r & Hr & _).
      now exists (node_name n ++ r)%string.
    + now apply IHr.
Qed.

(** Two separator-free names followed by path tails agree only if the
    names are the same. *)
Lemma names_agree (a b ra rb : string) :
  slash_free a = true -> slash_free b = true ->
  path_tail ra -> path_tail rb ->
  (a ++ ra = b ++ rb)%string -> a = b.
Proof.
  revert b. induction a as [| x a IH]; intros b Ha Hb Hra Hrb H.
  - destruct b as [| y b]; [reflexivity |]. simpl in H, Hb.
    apply andb_prop in Hb as [Hy _].
    destruct Hra as [-> | [r ->]]; [discriminate |].
    inversion H; subst. now rewrite Ascii.eqb_refl in Hy.
  - destruct b as [| y b]; simpl in H, Ha.
    + apply andb_prop in Ha as [Hx _].
      destruct Hrb as [-> | [r ->]]; [discriminate |].
      inversion H; subst. now rewrite Ascii.eqb_refl in Hx.
    + simpl in Hb. apply andb_prop in Ha as [_ Ha].
      apply andb_prop in Hb as [_ Hb].
      inversion H; subst. f_equal. now apply (IH b).
Qed.

Lemma distinct_cons_inv x l :
  distinct (x :: l) = true -> ~ In x l /\ distinct l = true.
Proof.
  simpl. intros H. apply andb_prop in H as [Hx Hl]. split; [| assumption].
  intros Hin. apply negb_true_iff in Hx.
  assert (existsb (String.eqb x) l = true) as He; [| congruence].
  apply existsb_exists. exists x. split; [assumption | apply String.eqb_refl].
Qed.

(** Entries with distinct, separator-free names have disjoint and
    duplicate-free paths, if each of them has. *)
Lemma sibling_paths_NoDup prefix (l : list Node) :
  forallb slash_free (map node_name l) = true ->
  distinct (map node_name l) = true ->
  (forall n, In n l -> NoDup (map path (flatten prefix n))) ->
  NoDup (map path (flat_map (flatten prefix) l)).
Proof.
  induction l as [| n l IH]; intros Hs Hd Hn; simpl; [constructor |].
  simpl in Hs. apply andb_prop in Hs as [Hsn Hsl].
  apply distinct_cons_inv in Hd as [Hnotin Hdl].
  rewrite map_app. apply NoDup_app.
  - apply Hn. now left.
  - apply IH; try assumption. intros m Hm. apply Hn. now right.
  - intros p Hp1 Hp2.
    apply in_map_iff in Hp1 as (c1 & <- & Hc1).
    apply in_map_iff in Hp2 as (c2 & Heq & Hc2).
    apply in_flat_map in Hc2 as (m & Hm & Hc2).
    destruct (proj1 flatten_paths _ _ _ Hc1) as (r1 & Hr1 & Ht1).
    destruct (proj1 flatten_paths _ _ _ Hc2) as (r2 & Hr2 & Ht2).
    rewrite Hr1, Hr2 in Heq. apply append_inv_head in Heq.
    apply Hnotin. apply in_map_iff. exists m. split; [| assumption].
    apply (names_agree _ _ r2 r1); try assumption.
    rewrite forallb_forall in Hsl. apply Hsl. now apply in_map.
Qed.

Lemma well_named_children :
  (forall ps, well_named_pages ps = true ->
     forall n, In n (children ps) -> well_named n = true)
  /\ (forall ns, well_named_nodes ns = true ->
        forall n, In n (nodes_list ns) -> well_named n = true).
Proof.
  assert (Hns : forall ns, well_named_nodes ns = true ->
                  forall n, In n (nodes_list ns) -> well_named n = true).
  { induction ns as [| m ns IH]; simpl; intros H n Hin; [contradiction |].
    apply andb_prop in H as [Hm Hrest].
    destruct Hin as [<- | Hin]; [assumption | now apply IH]. }
  split; [| exact Hns].
  induction ps as [es tok | es tok rest IH]; simpl; intros H n Hin.
  - now apply (Hns es).
  - apply andb_prop in H as [He Hr].
    apply in_app_or in Hin as [Hin | Hin]; [now apply (Hns es) | now apply IH].
Qed.

(** In a well-named tree no two leaves compose the same path. *)
Lemma well_named_NoDup :
  forall n, well_named n = true ->
            forall prefix, NoDup (map path (flatten prefix n)).
Proof.
  apply (proj1 (Tree_mutind
    (fun n => well_named n = true ->
              forall prefix, NoDup (map path (flatten prefix n)))
    (fun ps => forall n, In n (children ps) -> well_named n = true ->
               forall prefix, NoDup (map path (flatten prefix n)))
    (fun ns => forall n, In n (nodes_list ns) -> well_named n = true ->
               forall prefix, NoDup (map path (flatten prefix n)))
    ltac:(intros f content _ prefix; simpl; constructor; [intros [] | constructor])
    ltac:(intros f listing IH H prefix; simpl in H;
          apply andb_prop in H as [H Hps]; apply andb_prop in H as [Hs Hd];
          simpl; rewrite flatten_pages_flat_map;
          apply sibling_paths_NoDup; try assumption;
          intros m Hm; apply IH; [assumption |];
          now apply (proj1 well_named_children listing))
    ltac:(intros es IH tok n Hin; now apply IH)
    ltac:(intros es IHe tok rest IHr n Hin; simpl in Hin;
          apply in_app_or in Hin as [Hin | Hin];
          [now apply IHe | now apply IHr])
    ltac:(intros n [])
    ltac:(intros m IHm rest IHr n [<- | Hin]; [exact IHm | now apply IHr]))).
Qed.

Lemma child_flatten prefix ps n :
  In n (children ps) -> incl (flatten prefix n) (flatten_pages prefix ps).
Proof.
  intros Hn c Hc. rewrite flatten_pages_flat_map. apply in_flat_map.
  now exists n.
Qed.

(** Every run of the collector on a snapshot that returns is the walk of
    a tree the snapshot presents. *)
Lemma collect_presented s fuel driveId t t' files :
  collectDriveFiles (of_snapshot s) fuel driveId t = (t', Ret files) ->
  exists n, served_root s driveId n /\ height n <= fuel.
Proof.
  unfold collectDriveFiles. rewrite collect_body_eq.
  destruct (bind _ _ _) as [st o] eqn:H. destruct o as [[] | e |]; try discriminate.
  intros _. apply bind_inv in H.
  destruct H as [(st1 & meta & Hg & H) | [(e & _ & He) | [_ He]]];
    try discriminate.
  assert (snap_get s driveId = Ok meta) as Hmeta.
  { unfold getMeta, drive_call in Hg. simpl files_get in Hg.
    destruct (snap_get s driveId); now inversion Hg. }
  unfold walk_entry, walkFolder in H.
  cbn [file_mimeType file_id file_name] in H.
  destruct (meta_mimeType meta =? mime_folder)%string eqn:Hm.
  - apply walk_presented in H as (ps & Hps & Hh).
    exists (Container (mkFile driveId (meta_name meta) (meta_mimeType meta)) ps).
    unfold served_root. rewrite Hmeta. simpl. now rewrite Hm.
  - apply bind_inv in H.
    destruct H as [(st2 & buf & Hd & _) | [(e & _ & He) | [_ He]]];
      try discriminate.
    apply download_inv in Hd.
    exists (Leaf (mkFile driveId (meta_name meta) (meta_mimeType meta)) buf).
    unfold served_root. rewrite Hmeta. simpl. rewrite Hm. repeat split; auto.
    lia.
Qed.

(* ===================================================================== *)
(** * Path composition                                                    *)
(* ===================================================================== *)

(** The paths of a flat collection are the routes of the leaves, each
    joined by the separator. *)
Lemma join_path_cons name route :
  route <> [] ->
  join_path (name :: route) = (name ++ "/" ++ join_path route)%string.
Proof. destruct route; [congruence | reflexivity]. Qed.

Lemma flatten_routes :
  (forall n prefix,
      map path (flatten prefix n)
      = map (fun r => (prefix ++ join_path r)%string) (routes n)
      /\ Forall (fun r => r <> []) (routes n))
  /\ (forall ps prefix,
         map path (flatten_pages prefix ps)
         = map (fun r => (prefix ++ join_path r)%string) (routes_pages ps)
         /\ Forall (fun r => r <> []) (routes_pages ps))
  /\ (forall ns prefix,
         map path (flatten_nodes prefix ns)
         = map (fun r => (prefix ++ join_path r)%string) (routes_nodes ns)
         /\ Forall (fun r => r <> []) (routes_nodes ns)).
Proof.
  apply Tree_mutind.
  - intros f content prefix. simpl. split; [reflexivity |].
    constructor; [discriminate | constructor].
  - intros f listing IH prefix. simpl.
    destruct (IH (prefix ++ file_name f ++ "/")%string) as [E F].
    split.
    + rewrite E, map_map. apply map_ext_in. intros r Hr.
      rewrite Forall_forall in F.
      rewrite (join_path_cons _ _ (F r Hr)). now rewrite !append_assoc.
    + apply Forall_forall. intros r Hr.
      apply in_map_iff in Hr as (r' & <- & _). discriminate.
  - intros es IH tok prefix. apply IH.
  - intros es IHe tok rest IHr prefix. simpl.
    destruct (IHe prefix) as [E1 F1]. destruct (IHr prefix) as [E2 F2].
    rewrite !map_app, E1, E2. split; [reflexivity | now apply Forall_app].
  - intros prefix. simpl. split; [reflexivity | constructor].
  - intros n IHn rest IHr prefix. simpl.
    destruct (IHn prefix) as [E1 F1]. destruct (IHr prefix) as [E2 F2].
    rewrite !map_app, E1, E2. split; [reflexivity | now apply Forall_app].
Qed.

Lemma flatten_joined n :
  map path (flatten "" n) = map join_path (routes n).
Proof. apply (proj1 flatten_routes n ""). Qed.




(* ===================================================================== *)
(** * Paths of a run on an arbitrary Drive                                *)
(* ===================================================================== *)

Section Prefixes.

Variable drive : Drive.

Lemma appends_drive_call {A} prefix c (answer : DriveTrace -> Result A) :
  appends_under prefix (drive_call c answer).
Proof.
  intros st st' o H. unfold drive_call in H. inversion H; subst; simpl.
  exists []. now rewrite app_nil_r.
Qed.

Lemma appends_download prefix id mime :
  appends_under prefix (downloadFileAsBuffer drive id mime).
Proof.
  unfold downloadFileAsBuffer, download_media.
  destruct (pickExportMimeType mime) as [em |]; [destruct (str_truthy em) |];
    apply appends_drive_call.
Qed.

Lemma download_results id mime st st' o :
  downloadFileAsBuffer drive id mime st = (st', o) -> results st' = results st.
Proof.
  unfold downloadFileAsBuffer, download_media, drive_call.
  destruct (pickExportMimeType mime) as [em |]; [destruct (str_truthy em) |];
    intros H; inversion H; reflexivity.
Qed.

Lemma appends_bind {A B} prefix (m : M CState A) (k : A -> M CState B) :
  appends_under prefix m -> (forall a, appends_under prefix (k a)) ->
  appends_under prefix (bind m k).
Proof.
  intros Hm Hk st st' o H. apply bind_inv in H.
  destruct H as [(st1 & a & H1 & H2) | [(e & H1 & _) | [H1 _]]].
  - destruct (Hm _ _ _ H1) as (a1 & E1 & F1).
    destruct (Hk a _ _ _ H2) as (a2 & E2 & F2).
    exists (a1 ++ a2). rewrite E2, E1, app_assoc. split; [reflexivity |].
    apply Forall_app. now split.
  - now apply (Hm _ _ _ H1).
  - now apply (Hm _ _ _ H1).
Qed.

Lemma appends_for_of {A} prefix (xs : list A) (body : A -> M CState unit) :
  (forall x, appends_under prefix (body x)) ->
  appends_under prefix (for_of xs body).
Proof.
  intros Hb. induction xs as [| x xs IH]; simpl.
  - intros st st' o H. inversion H; subst. exists []. now rewrite app_nil_r.
  - apply appends_bind; [apply Hb | intros _; exact IH].
Qed.

Lemma appends_weaken {A} prefix more (m : M CState A) :
  appends_under (prefix ++ more) m -> appends_under prefix m.
Proof.
  intros Hm st st' o H. destruct (Hm _ _ _ H) as (added & E & F).
  exists added. split; [assumption |].
  eapply Forall_impl; [| exact F]. intros c [r Hr].
  exists (more ++ r)%string. now rewrite Hr, append_assoc.
Qed.

Lemma appends_walk fuel :
  forall id prefix tok,
    appends_under prefix (walkFolder_from drive fuel id prefix tok).
Proof.
  induction fuel as [| fuel IH]; intros id prefix tok.
  - intros st st' o H. inversion H; subst. exists []. now rewrite app_nil_r.
  - cbn [walkFolder_from]. apply appends_bind; [apply appends_drive_call |].
    intros qRes. apply appends_bind.
    + apply appends_for_of. intros f.
      destruct (file_mimeType f =? mime_folder)%string.
      * apply (appends_weaken prefix (file_name f ++ "/")). apply IH.
      * apply appends_bind; [apply appends_download |].
        intros buf st st' o H. unfold push in H. inversion H; subst; simpl.
        exists [ {| path := prefix ++ file_name f; buffer := buf |} ].
        split; [reflexivity |]. constructor; [| constructor].
        now exists (file_name f).
    + intros _. destruct (opt_truthy (nextPageToken qRes)); [apply IH |].
      intros st st' o H. inversion H; subst. exists []. now rewrite app_nil_r.
Qed.

End Prefixes.

(* ===================================================================== *)
(** * Paths of a collection                                               *)
(* ===================================================================== *)



(* ===================================================================== *)
(** * Pagination                                                          *)
(* ===================================================================== *)

Section Pagination.

Variable s : Snapshot.

(** A snapshot presents one tree below a given root. *)
Lemma served_unique :
  (forall n n', root_file n' = root_file n ->
                served s n -> served s n' -> n = n')
  /\ (forall ps q tok ps',
         served_pages s q tok ps -> served_pages s q tok ps' -> ps = ps')
  /\ (forall ns ns',
         map root_file (nodes_list ns') = map root_file (nodes_list ns) ->
         served_nodes s ns -> served_nodes s ns' -> ns = ns').
Proof.
  apply Tree_mutind.
  - intros f content [f' content' | f' l'] Hf [Hm Hc] [Hm' Hc'];
      simpl in Hf; subst f'.
    + rewrite Hc in Hc'. now inversion Hc'.
    + congruence.
  - intros f l IH [f' content' | f' l'] Hf [Hm Hs] [Hm' Hs'];
      simpl in Hf; subst f'.
    + congruence.
    + f_equal. now apply (IH _ _ _ Hs Hs').
  - intros es IH tok0 q tok [es' tok' | es' tok' rest'] H H'; simpl in H, H';
      destruct (snap_list s q tok) as [r |]; try contradiction.
    + destruct H as (Hf & Hn & _ & Hs). destruct H' as (Hf' & Hn' & _ & Hs').
      f_equal; [| congruence]. apply IH; congruence.
    + destruct H as (_ & Hn & Ht & _). destruct H' as (_ & Hn' & Ht' & _).
      rewrite Hn' in Hn. subst tok0. simpl in Ht. congruence.
  - intros es IHe tok0 rest IHr q tok [es' tok' | es' tok' rest'] H H';
      simpl in H, H'; destruct (snap_list s q tok) as [r |]; try contradiction.
    + destruct H as (_ & Hn & Ht & _). destruct H' as (_ & Hn' & Ht' & _).
      rewrite Hn in Hn'. subst tok'. simpl in Ht'. congruence.
    + destruct H as (Hf & Hn & _ & Hs & Hr).
      destruct H' as (Hf' & Hn' & _ & Hs' & Hr').
      assert (tok' = tok0) by congruence. subst tok'.
      f_equal; [apply IHe; congruence | now apply (IHr _ _ _ Hr Hr')].
  - intros [| n' ns'] Hmap _ _; [reflexivity | discriminate].
  - intros n IHn rest IHr [| n' ns'] Hmap [Hn Hr] H'; [discriminate |].
    destruct H' as [Hn' Hr']. simpl in Hmap. inversion Hmap.
    f_equal; [now apply IHn | now apply IHr].
Qed.

(** The listing of a container below a tree is shorter to walk than the
    tree. *)
Lemma inner_listing :
  (forall n, served s n -> forall q, In q (queries n) ->
     exists ps', served_pages s q None ps' /\ height_pages ps' <= height n)
  /\ (forall ps q0 tok, served_pages s q0 tok ps ->
        forall q, In q (queries_pages ps) ->
        exists ps', served_pages s q None ps'
                    /\ height_pages ps' < height_pages ps)
  /\ (forall ns, served_nodes s ns -> forall q, In q (queries_nodes ns) ->
        exists ps', served_pages s q None ps'
                    /\ height_pages ps' <= height_nodes ns).
Proof.
  apply Tree_mutind.
  - intros f content _ q [].
  - intros f l IH [_ Hs] q [<- | Hin].
    + exists l. split; [assumption | simpl; lia].
    + destruct (IH _ _ Hs q Hin) as (ps' & Hps' & Hh).
      exists ps'. split; [assumption | simpl; lia].
  - intros es IH tok0 q0 tok H q Hin. simpl in H.
    destruct (snap_list s q0 tok) as [r |]; [| contradiction].
    destruct H as (_ & _ & _ & Hs).
    destruct (IH Hs q Hin) as (ps' & Hps' & Hh).
    exists ps'. split; [assumption | simpl; lia].
  - intros es IHe tok0 rest IHr q0 tok H q Hin. simpl in H, Hin.
    destruct (snap_list s q0 tok) as [r |]; [| contradiction].
    destruct H as (_ & _ & _ & Hs & Hr).
    apply in_app_or in Hin as [Hin | Hin].
    + destruct (IHe Hs q Hin) as (ps' & Hps' & Hh).
      exists ps'. split; [assumption | simpl; lia].
    + destruct (IHr _ _ Hr q Hin) as (ps' & Hps' & Hh).
      exists ps'. split; [assumption | simpl; lia].
  - intros _ q [].
  - intros n IHn rest IHr [Hn Hr] q Hin. simpl in Hin.
    apply in_app_or in Hin as [Hin | Hin].
    + destruct (IHn Hn q Hin) as (ps' & Hps' & Hh).
      exists ps'. split; [assumption | simpl; lia].
    + destruct (IHr Hr q Hin) as (ps' & Hps' & Hh).
      exists ps'. split; [assumption | simpl; lia].
Qed.

(** A presented container does not occur below itself. *)
Lemma not_below_itself q ps :
  served_pages s q None ps -> ~ In q (queries_pages ps).
Proof.
  intros Hs Hin.
  destruct (proj1 (proj2 inner_listing) _ _ _ Hs q Hin) as (ps' & Hps' & Hh).
  rewrite (proj1 (proj2 served_unique) _ _ _ _ Hs Hps') in Hh. lia.
Qed.

Lemma page_requests_app q t1 t2 :
  page_requests q (t1 ++ t2) = page_requests q t1 ++ page_requests q t2.
Proof. apply flat_map_app. Qed.

(** The walk of a tree that has no container with query [q] makes no
    listing call for [q]. *)
Lemma requests_elsewhere q :
  (forall n, ~ In q (queries n) -> page_requests q (calls n) = [])
  /\ (forall ps q0 tok, q0 <> q -> ~ In q (queries_pages ps) ->
        page_requests q (calls_pages q0 tok ps) = [])
  /\ (forall ns, ~ In q (queries_nodes ns) -> page_requests q (calls_nodes ns) = []).
Proof.
  apply Tree_mutind.
  - intros f content _. simpl. unfold content_call.
    destruct (pickExportMimeType (file_mimeType f)) as [em |];
      [destruct (str_truthy em) |]; reflexivity.
  - intros f l IH Hq. simpl in *. apply IH; tauto.
  - intros es IH tok0 q0 tok Hne Hq. simpl in *.
    destruct (String.eqb_spec q0 q); [contradiction |]. simpl. now apply IH.
  - intros es IHe tok0 rest IHr q0 tok Hne Hq. simpl in *.
    destruct (String.eqb_spec q0 q); [contradiction |]. simpl.
    rewrite page_requests_app, IHe, IHr; try assumption; try reflexivity;
      intros Hin; apply Hq, in_or_app; tauto.
  - reflexivity.
  - intros n IHn rest IHr Hq. simpl in *.
    rewrite page_requests_app, IHn, IHr; try reflexivity;
      intros Hin; apply Hq, in_or_app; tauto.
Qed.

(** The listing calls for a container are one per page, each with the
    token that leads to the page. *)
Lemma requests_own q ps :
  forall tok, ~ In q (queries_pages ps) ->
              page_requests q (calls_pages q tok ps) = page_tokens tok ps.
Proof.
  induction ps as [es tok0 | es tok0 rest IH]; intros tok Hq; simpl in *.
  - rewrite String.eqb_refl. simpl.
    now rewrite (proj2 (proj2 (requests_elsewhere q)) es Hq).
  - rewrite String.eqb_refl. simpl. rewrite page_requests_app.
    rewrite (proj2 (proj2 (requests_elsewhere q)) es), IH; try reflexivity;
      intros Hin; apply Hq, in_or_app; tauto.
Qed.

End Pagination.




(* ===================================================================== *)
(** * Failures during collection                                          *)
(* ===================================================================== *)

Section Failures.

Variable drive : Drive.

Lemma tracked_drive_call {A} c (answer : DriveTrace -> Result A) :
  tracked (drive_call c answer).
Proof.
  intros st st' o H. unfold drive_call in H.
  destruct (answer (dtrace st)) as [a | e]; inversion H; subst; simpl;
    eexists; (split; [reflexivity |]); simpl.
  - repeat constructor.
  - exists [], c. split; [reflexivity | constructor].
Qed.

Lemma tracked_silent {A} (m : M CState A) :
  (forall st, exists a, m st = ({| results := fst a; dtrace := dtrace st |},
                                  snd a)
                        /\ forall e, snd a <> Throw e) ->
  tracked m.
Proof.
  intros Hm st st' o H. destruct (Hm st) as ([r o'] & E & Hne).
  rewrite E in H. inversion H; subst. simpl in *.
  exists []. rewrite app_nil_r. split; [reflexivity |].
  destruct o; simpl; try constructor. now destruct (Hne e).
Qed.

Lemma tracked_push f : tracked (push f).
Proof.
  apply tracked_silent. intros st. exists (results st ++ [f], Ret tt).
  split; [reflexivity | discriminate].
Qed.

Lemma tracked_ret {A} (a : A) : tracked (ret a).
Proof.
  apply tracked_silent. intros st. exists (results st, Ret a).
  split; [now destruct st | discriminate].
Qed.

Lemma tracked_out_of_fuel {A} : tracked (@out_of_fuel CState A).
Proof.
  apply tracked_silent. intros st. exists (results st, OutOfFuel).
  split; [now destruct st | discriminate].
Qed.

Lemma tracked_bind {A B} (m : M CState A) (k : A -> M CState B) :
  tracked m -> (forall a, tracked (k a)) -> tracked (bind m k).
Proof.
  intros Hm Hk st st' o H. apply bind_inv in H.
  destruct H as [(st1 & a & H1 & H2) | [(e & H1 & ->) | [H1 ->]]].
  - destruct (Hm _ _ _ H1) as (m1 & E1 & F1).
    destruct (Hk a _ _ _ H2) as (m2 & E2 & F2).
    exists (m1 ++ m2). rewrite E2, E1, app_assoc. split; [reflexivity |].
    simpl in F1. destruct o as [b | e |]; simpl in *.
    + apply Forall_app. now split.
    + destruct F2 as (pre & c & -> & Hpre).
      exists (m1 ++ pre), c. rewrite app_assoc. split; [reflexivity |].
      apply Forall_app. now split.
    + apply Forall_app. now split.
  - destruct (Hm _ _ _ H1) as (m1 & E1 & F1). now exists m1.
  - destruct (Hm _ _ _ H1) as (m1 & E1 & F1). now exists m1.
Qed.

Lemma tracked_for_of {A} (xs : list A) (body : A -> M CState unit) :
  (forall x, tracked (body x)) -> tracked (for_of xs body).
Proof.
  intros Hb. induction xs as [| x xs IH]; simpl.
  - apply tracked_ret.
  - apply tracked_bind; [apply Hb | intros _; exact IH].
Qed.

Lemma tracked_download id mime : tracked (downloadFileAsBuffer drive id mime).
Proof.
  unfold downloadFileAsBuffer, download_media.
  destruct (pickExportMimeType mime) as [em |]; [destruct (str_truthy em) |];
    apply tracked_drive_call.
Qed.

Lemma tracked_walk fuel :
  forall id prefix tok, tracked (walkFolder_from drive fuel id prefix tok).
Proof.
  induction fuel as [| fuel IH]; intros id prefix tok.
  - apply tracked_out_of_fuel.
  - cbn [walkFolder_from]. apply tracked_bind; [apply tracked_drive_call |].
    intros qRes. apply tracked_bind.
    + apply tracked_for_of. intros f.
      destruct (file_mimeType f =? mime_folder)%string; [apply IH |].
      apply tracked_bind; [apply tracked_download | intros; apply tracked_push].
    + intros _. destruct (opt_truthy (nextPageToken qRes));
        [apply IH | apply tracked_ret].
Qed.

Lemma tracked_collect fuel driveId : tracked (collect_body drive fuel driveId).
Proof.
  unfold collect_body. apply tracked_bind; [apply tracked_drive_call |].
  intros meta. destruct (meta_mimeType meta =? mime_folder)%string.
  - apply tracked_walk.
  - apply tracked_bind; [apply tracked_download | intros; apply tracked_push].
Qed.

End Failures.

(** C7. In every run of the collector, on any Drive: if a call made
    during the run (the metadata fetch of the root, a listing, an export
    or a download) fails, then that call is the last one of the run, all
    calls before it succeeded, and the run ends by throwing the error of
    that call: the caller receives the error and no collection. *)
Theorem collection_aborts drive fuel driveId t t' o ev e :
  collectDriveFiles drive fuel driveId t = (t', o) ->
  derror ev = Some e ->
  forall made, t' = t ++ made -> In ev made ->
    o = Throw e
    /\ (forall collected, o <> Ret collected)
    /\ exists pre, made = pre ++ [ev] /\ all_ok pre.
Proof.
  unfold collectDriveFiles. intros H Hev made Ht Hin.
  destruct (collect_body drive fuel driveId {| results := []; dtrace := t |})
    as [st o'] eqn:Hrun.
  destruct (tracked_collect drive fuel driveId _ _ _ Hrun) as (made' & E & F).
  simpl in E.
  assert (made' = made) as ->.
  { apply (app_inv_head t). rewrite <- E.
    destruct o' as [[] | e' |]; inversion H; subst; assumption. }
  assert (~ all_ok made) as Hbad.
  { intros Hok. unfold all_ok in Hok. rewrite Forall_forall in Hok.
    specialize (Hok ev Hin). congruence. }
  destruct o' as [[] | e' |]; simpl in F; try contradiction.
  destruct F as (pre & c & -> & Hpre).
  inversion H; subst. clear H.
  apply in_app_or in Hin as [Hin | [<- | []]].
  - unfold all_ok in Hpre. rewrite Forall_forall in Hpre.
    specialize (Hpre ev Hin). congruence.
  - simpl in Hev. inversion Hev; subst.
    split; [reflexivity |]. split; [discriminate |]. now exists pre.
Qed.

Lemma collection_aborts_witness :
  snd (collectDriveFiles (of_snapshot Demo.broken) 5 "1proj" [])
  = Throw Demo.rate_limit
  /\ (forall collected,
        snd (collectDriveFiles (of_snapshot Demo.broken) 5 "1proj" [])
        <> Ret collected)
  /\ exists pre,
       fst (collectDriveFiles (of_snapshot Demo.broken) 5 "1proj" [])
       = pre ++ [Demo.failed_download]
       /\ all_ok pre.
Proof.
  apply (collection_aborts (of_snapshot Demo.broken) 5 "1proj" []
           (fst (collectDriveFiles (of_snapshot Demo.broken) 5 "1proj" []))
           (snd (collectDriveFiles (of_snapshot Demo.broken) 5 "1proj" []))
           Demo.failed_download Demo.rate_limit).
  - apply surjective_pairing.
  - reflexivity.
  - reflexivity.
  - vm_compute. do 5 right. left. reflexivity.
Defined.

(* ===================================================================== *)
(** * The export policy                                                   *)
(* ===================================================================== *)

(** C4. The export format is a fixed function of the content type: a
    native document is exported as plain text, a native spreadsheet as
    CSV, a native presentation as PDF, and no other content type has an
    export format.  A leaf with an export format is fetched by one export
    call in that format; any other leaf is fetched by one raw download;
    in both cases the buffer returned is the bytes the service gave. *)
Theorem export_policy :
  pickExportMimeType mime_document = Some "text/plain"
  /\ pickExportMimeType mime_spreadsheet = Some "text/csv"
  /\ pickExportMimeType mime_presentation = Some "application/pdf"
  /\ (forall m, m <> mime_document -> m <> mime_spreadsheet ->
                m <> mime_presentation -> pickExportMimeType m = None)
  /\ (forall drive id m em st,
         pickExportMimeType m = Some em ->
         downloadFileAsBuffer drive id m st
         = ({| results := results st;
               dtrace := dtrace st
                 ++ [ {| dcall := FilesExport id em;
                         derror :=
                           thrown_error (files_export drive (dtrace st) id em) |} ] |},
            match files_export drive (dtrace st) id em with
            | Ok bytes => Ret bytes
            | Thrown e => Throw e
            end))
  /\ (forall drive id m st,
         pickExportMimeType m = None ->
         downloadFileAsBuffer drive id m st
         = ({| results := results st;
               dtrace := dtrace st
                 ++ [ {| dcall := FilesGetMedia id;
                         derror :=
                           thrown_error (files_get_media drive (dtrace st) id) |} ] |},
            match files_get_media drive (dtrace st) id with
            | Ok bytes => Ret bytes
            | Thrown e => Throw e
            end)).
Proof.
  repeat split.
  - intros m H1 H2 H3. unfold pickExportMimeType.
    destruct (String.eqb_spec m mime_document); [contradiction |].
    destruct (String.eqb_spec m mime_spreadsheet); [contradiction |].
    destruct (String.eqb_spec m mime_presentation); [contradiction |].
    reflexivity.
  - intros drive id m em st H. unfold downloadFileAsBuffer. rewrite H.
    assert (str_truthy em = true) as ->; [| reflexivity].
    unfold pickExportMimeType in H.
    destruct (m =? mime_document)%string; [now inversion H |].
    destruct (m =? mime_spreadsheet)%string; [now inversion H |].
    destruct (m =? mime_presentation)%string; [now inversion H | discriminate].
  - intros drive id m st H. unfold downloadFileAsBuffer. now rewrite H.
Qed.

Lemma export_policy_witness :
  pickExportMimeType "image/png" = None
  /\ snd (downloadFileAsBuffer (of_snapshot Demo.snapshot) "4logo" "image/png"
            {| results := []; dtrace := [] |}) = Ret Demo.png_bytes
  /\ snd (downloadFileAsBuffer (of_snapshot Demo.snapshot) "3budget"
            mime_spreadsheet {| results := []; dtrace := [] |})
     = Ret Demo.csv_bytes.
Proof.
  destruct export_policy as (_ & _ & _ & Hnone & Hexport & Hraw).
  split; [| split].
  - apply Hnone; discriminate.
  - rewrite (Hraw (of_snapshot Demo.snapshot) "4logo" "image/png");
      reflexivity.
  - rewrite (Hexport (of_snapshot Demo.snapshot) "3budget" mime_spreadsheet
               "text/csv"); reflexivity.
Defined.

(* ===================================================================== *)
(** * The publisher follows its plan                                      *)
(* ===================================================================== *)

Lemma removelast_ok {A} (P : A -> Prop) (l1 l2 : list A) :
  Forall P l1 -> Forall P (removelast l2) -> Forall P (removelast (l1 ++ l2)).
Proof.
  intros H1 H2. destruct l2 as [| x l2].
  - rewrite app_nil_r. clear H2.
    induction H1 as [| y l Hy Hl IH]; [constructor |].
    destruct l; [constructor |]. simpl in *. constructor; assumption.
  - rewrite removelast_app by discriminate. apply Forall_app. now split.
Qed.

Lemma Forall_before_last {A} (P : A -> Prop) (pre : list A) x post :
  Forall P (removelast (pre ++ x :: post)) -> Forall P pre.
Proof.
  rewrite removelast_app by discriminate. intros H.
  now apply Forall_app in H as [H _].
Qed.

Section Plan.

Variable hub : GitHub.

Lemma follows_ret {A} (a : A) : follows_plan [] (ret a).
Proof.
  intros t t' o H. inversion H; subst. split; [discriminate |].
  exists []. rewrite app_nil_r. repeat split; try constructor.
  now exists [].
Qed.

Lemma follows_bind {A B} p1 p2 (m : M HubTrace A) (k : A -> M HubTrace B) :
  follows_plan p1 m -> (forall a, follows_plan p2 (k a)) ->
  follows_plan (p1 ++ p2) (bind m k).
Proof.
  intros Hm Hk t t' o H. apply bind_inv in H.
  destruct H as [(t1 & a & H1 & H2) | [(e & H1 & ->) | [H1 ->]]].
  - destruct (Hm _ _ _ H1) as (_ & m1 & -> & _ & _ & Hret).
    destruct (Hret a eq_refl) as [Hs1 Hok1].
    destruct (Hk a _ _ _ H2) as (Hne & m2 & -> & Hl2 & [rest Hp2] & Hret2).
    split; [assumption |]. exists (m1 ++ m2). rewrite app_assoc.
    split; [reflexivity |]. split; [now apply removelast_ok |]. split.
    + exists rest. now rewrite map_app, <- app_assoc, Hp2, Hs1.
    + intros b Hb. destruct (Hret2 b Hb) as [Hs2 Hok2]. split.
      * now rewrite map_app, Hs1, Hs2.
      * apply Forall_app. now split.
  - destruct (Hm _ _ _ H1) as (Hne & m1 & -> & Hl & [rest Hp] & _).
    split; [discriminate |]. exists m1. repeat split; try assumption.
    + exists (rest ++ p2). now rewrite app_assoc, Hp.
    + discriminate.
    + discriminate.
  - destruct (Hm _ _ _ H1) as (Hne & _). now destruct Hne.
Qed.

(** Pure code between two calls has no stage of its own. *)
Lemma follows_lift {A B} p (r : Result A) (k : A -> M HubTrace B) :
  (forall a, follows_plan p (k a)) -> follows_plan p (bind (lift_result r) k).
Proof.
  intros Hk. destruct r as [a | e].
  - intros t t' o H. apply (Hk a t t' o). exact H.
  - intros t t' o H. inversion H; subst. split; [discriminate |].
    exists []. rewrite app_nil_r. repeat split; try constructor;
      try discriminate.
    now exists p.
Qed.

(** A call, the check of its response, and what comes after: the rest
    runs only if the call returned with [ok]. *)
Lemma follows_post {B} p e hdrs b what (k : Response -> M HubTrace B) :
  (forall res, follows_plan p (k res)) ->
  follows_plan (stage_for e b :: p)
    (res <- post hub e hdrs b ;; check_ok res what ;;; k res).
Proof.
  intros Hk t t' o H. unfold bind at 1 in H. unfold post, fetch in H.
  set (rq := {| endpoint := e; method := "POST";
                headers := hdrs ++ [("Content-Type", "application/json")];
                body := b |}) in *.
  destruct (hub t rq) as [res | err] eqn:Hr.
  - unfold bind, check_ok in H. destruct (ok res) eqn:Hok; simpl in H.
    + destruct (Hk res _ _ _ H) as (Hne & m2 & -> & Hl2 & [rest Hp2] & Hret2).
      split; [assumption |].
      assert (returned_ok (mkHubEvent rq (Ok res))) as Hev by now exists res.
      exists (mkHubEvent rq (Ok res) :: m2). rewrite <- app_assoc.
      split; [reflexivity |].
      split; [apply (removelast_ok _ [_] m2); [now constructor | assumption] |].
      split.
      * exists rest. simpl. now rewrite Hp2.
      * intros a Ha. destruct (Hret2 a Ha) as [Hs2 Hok2]. split.
        -- simpl. now rewrite Hs2.
        -- now constructor.
    + assert (exists e', o = Throw e' /\ t' = t ++ [mkHubEvent rq (Ok res)])
        as (e' & -> & ->).
      { unfold lift_result, ret, throw in H.
        destruct (text res); inversion H; subst; eexists; split; reflexivity. }
      split; [discriminate |]. exists [mkHubEvent rq (Ok res)].
      repeat split; try constructor; try discriminate. now exists p.
  - inversion H; subst. split; [discriminate |].
    exists [mkHubEvent rq (Thrown err)].
    repeat split; try constructor; try discriminate. now exists p.
Qed.

Lemma create_blobs_follows hdrs owner repoName files :
  forall blobs,
    follows_plan (blob_stages files)
      (create_blobs hub hdrs owner repoName files blobs).
Proof.
  induction files as [| f files IH]; intros blobs.
  - apply follows_ret.
  - cbn [create_blobs blob_stages map].
    apply (follows_post (blob_stages files) (GitBlobs owner repoName) hdrs
             (blob_payload f)).
    intros res. apply follows_lift. intros blobJson.
    apply follows_lift. intros sha. apply IH.
Qed.

(** [createGitHubRepoAndPush] follows the plan: the repository, one blob
    per file in order, the tree, the commit, the reference. *)
Lemma publisher_follows_plan githubToken ownerOrOrg repoName files :
  follows_plan (stage_plan files)
    (createGitHubRepoAndPush hub githubToken ownerOrOrg repoName files).
Proof.
  unfold createGitHubRepoAndPush, stage_plan.
  apply (follows_post _ UserRepos). intros createRes.
  apply follows_lift. intros repoJson.
  apply follows_lift. intros repoOwner.
  apply follows_lift. intros ownerLogin.
  apply follows_bind; [apply create_blobs_follows |]. intros blobs.
  apply (follows_post [CommitStage; RefStage] (GitTrees _ _)). intros treeRes.
  apply follows_lift. intros treeJson.
  apply follows_lift. intros treeSha.
  apply (follows_post [RefStage] (GitCommits _ _)). intros commitRes.
  apply follows_lift. intros commitJson.
  apply follows_lift. intros commitSha.
  apply (follows_post [] (GitRefs _ _)). intros refRes.
  apply follows_lift. intros html_url.
  apply follows_ret.
Qed.

End Plan.

(* ===================================================================== *)
(** * Stage ordering                                                      *)
(* ===================================================================== *)

(** An element that occurs once in a list splits the list in one way. *)
Lemma split_at_unique {A} (a : A) (l1 l2 r1 r2 : list A) :
  l1 ++ a :: l2 = r1 ++ a :: r2 -> ~ In a r1 -> ~ In a r2 ->
  l1 = r1 /\ l2 = r2.
Proof.
  revert r1. induction l1 as [| x l1 IH]; intros [| y r1] H Hr1 Hr2;
    simpl in H; inversion H; subst.
  - now split.
  - destruct Hr1. now left.
  - destruct Hr2. apply in_or_app. right. now left.
  - destruct (IH r1 H2) as [-> ->]; [| assumption | now split].
    intros Hin. apply Hr1. now right.
Qed.

Lemma blob_stages_only files stg :
  In stg (blob_stages files) -> exists b, stg = BlobStage b.
Proof.
  unfold blob_stages. intros H. apply in_map_iff in H as (f & <- & _).
  now eexists.
Qed.

Lemma plan_tree_position files l1 l2 :
  l1 ++ TreeStage :: l2 = stage_plan files ->
  l1 = RepoStage :: blob_stages files /\ l2 = [CommitStage; RefStage].
Proof.
  intros H.
  apply (split_at_unique TreeStage l1 l2 (RepoStage :: blob_stages files)
           [CommitStage; RefStage]).
  - exact H.
  - intros [Hin | Hin]; [discriminate |].
    apply blob_stages_only in Hin as [b Hb]. discriminate.
  - intros [Hin | [Hin | []]]; discriminate.
Qed.

Lemma plan_commit_position files l1 l2 :
  l1 ++ CommitStage :: l2 = stage_plan files ->
  l1 = (RepoStage :: blob_stages files) ++ [TreeStage] /\ l2 = [RefStage].
Proof.
  intros H.
  apply (split_at_unique CommitStage l1 l2).
  - rewrite H. unfold stage_plan. simpl. now rewrite <- app_assoc.
  - intros Hin. apply in_app_or in Hin as [[Hin | Hin] | [Hin | []]];
      try discriminate.
    apply blob_stages_only in Hin as [b Hb]. discriminate.
  - intros [Hin | []]; discriminate.
Qed.

Lemma plan_ref_position files l1 l2 :
  l1 ++ RefStage :: l2 = stage_plan files ->
  l1 = (RepoStage :: blob_stages files) ++ [TreeStage; CommitStage] /\ l2 = [].
Proof.
  intros H.
  apply (split_at_unique RefStage l1 l2).
  - rewrite H. unfold stage_plan. simpl. now rewrite <- app_assoc.
  - intros Hin. apply in_app_or in Hin as [[Hin | Hin] | [Hin | [Hin | []]]];
      try discriminate.
    apply blob_stages_only in Hin as [b Hb]. discriminate.
  - intros [].
Qed.

(** A list whose image ends with [x] ends with an element mapped to [x]. *)
Lemma map_ends_with {A B} (f : A -> B) (l : list A) (l1 : list B) (x : B) :
  map f l = l1 ++ [x] -> exists l' a, l = l' ++ [a] /\ map f l' = l1 /\ f a = x.
Proof.
  intros H. destruct (exists_last (l := l)) as (l' & a & ->).
  { intros ->. destruct l1; discriminate. }
  rewrite map_app in H. simpl in H. apply app_inj_tail in H as [H1 H2].
  now exists l', a.
Qed.

(** C1. In every run of the publisher, whatever GitHub answers: the
    tree-creation call is made only after the repository call and one
    blob-creation call per file of the current file set, in order, and all
    of them have returned successfully; the commit-creation call is made
    right after the tree-creation call has returned, successfully; and the
    reference-creation call right after the commit-creation call has
    returned, successfully. *)
Theorem stage_ordering hub githubToken ownerOrOrg repoName files t :
  exists made,
    fst (createGitHubRepoAndPush hub githubToken ownerOrOrg repoName files t)
    = t ++ made
    /\ forall pre ev post,
         made = pre ++ ev :: post ->
         (stage_of ev = TreeStage ->
            map stage_of pre = RepoStage :: blob_stages files
            /\ Forall returned_ok pre)
         /\ (stage_of ev = CommitStage ->
               exists pre' tree_ev,
                 pre = pre' ++ [tree_ev]
                 /\ stage_of tree_ev = TreeStage /\ returned_ok tree_ev)
         /\ (stage_of ev = RefStage ->
               exists pre' commit_ev,
                 pre = pre' ++ [commit_ev]
                 /\ stage_of commit_ev = CommitStage /\ returned_ok commit_ev).
Proof.
  destruct (createGitHubRepoAndPush hub githubToken ownerOrOrg repoName files t)
    as [t' o] eqn:Hrun.
  destruct (publisher_follows_plan hub _ _ _ _ _ _ _ Hrun)
    as (_ & made & -> & Hlast & [rest Hplan] & _).
  exists made. split; [reflexivity |].
  intros pre ev post ->.
  pose proof (Forall_before_last _ _ _ _ Hlast) as Hpre.
  rewrite map_app, <- app_assoc in Hplan. simpl in Hplan.
  split; [| split]; intros Hstage; rewrite Hstage in Hplan.
  - apply plan_tree_position in Hplan as [Hl _]. now split.
  - apply plan_commit_position in Hplan as [Hl _].
    apply map_ends_with in Hl as (pre' & a & -> & _ & Ha).
    exists pre', a. repeat split; try assumption.
    apply Forall_app in Hpre as [_ Hpre]. now inversion Hpre.
  - apply plan_ref_position in Hplan as [Hl _].
    change ((RepoStage :: blob_stages files) ++ [TreeStage; CommitStage])
      with (RepoStage :: blob_stages files ++ [TreeStage; CommitStage]) in Hl.
    replace (RepoStage :: blob_stages files ++ [TreeStage; CommitStage])
      with ((RepoStage :: blob_stages files ++ [TreeStage]) ++ [CommitStage])
      in Hl by (simpl; now rewrite <- app_assoc).
    apply map_ends_with in Hl as (pre' & a & -> & _ & Ha).
    exists pre', a. repeat split; try assumption.
    apply Forall_app in Hpre as [_ Hpre]. now inversion Hpre.
Qed.

Lemma stage_ordering_witness :
  map stage_of
    (firstn 3 (fst (createGitHubRepoAndPush Demo.hub "tok" JNull "demo"
                      Demo.two_files [])))
  = RepoStage :: blob_stages Demo.two_files
  /\ Forall returned_ok
       (firstn 3 (fst (createGitHubRepoAndPush Demo.hub "tok" JNull "demo"
                         Demo.two_files []))).
Proof.
  destruct (stage_ordering Demo.hub "tok" JNull "demo" Demo.two_files [])
    as (made & E & H).
  change ([] ++ made) with made in E. subst made.
  destruct (H (firstn 3 (fst (createGitHubRepoAndPush Demo.hub "tok" JNull "demo"
                                Demo.two_files [])))
              (nth 3 (fst (createGitHubRepoAndPush Demo.hub "tok" JNull "demo"
                             Demo.two_files []))
                 (mkHubEvent (repo_request "tok" "demo") (Ok Demo.refusal)))
              (skipn 4 (fst (createGitHubRepoAndPush Demo.hub "tok" JNull "demo"
                               Demo.two_files []))))
    as (Htree & _).
  - vm_compute. reflexivity.
  - apply Htree. reflexivity.
Defined.

(* ===================================================================== *)
(** * Failure of a blob upload                                            *)
(* ===================================================================== *)

(** C2. In every run of the publisher, for every file sequence: if a
    blob-creation call of the run fails (its response is not [ok], or the
    request itself is rejected), then the publisher throws an error, and
    the run contains no tree-creation call. *)
Theorem blob_failure_aborts hub githubToken ownerOrOrg repoName files t t' o
    made ev payload :
  createGitHubRepoAndPush hub githubToken ownerOrOrg repoName files t = (t', o) ->
  t' = t ++ made ->
  In ev made ->
  stage_of ev = BlobStage payload ->
  ~ returned_ok ev ->
  (exists e, o = Throw e)
  /\ forall ev', In ev' made -> stage_of ev' <> TreeStage.
Proof.
  intros Hrun Ht Hin Hblob Hfail.
  destruct (publisher_follows_plan hub _ _ _ _ _ _ _ Hrun)
    as (Hne & made' & Ht' & Hlast & [rest Hplan] & Hret).
  assert (made' = made) as -> by (apply (app_inv_head t); congruence).
  split.
  - destruct o as [a | e |]; [| now exists e | now destruct Hne].
    destruct (Hret a eq_refl) as [_ Hall].
    rewrite Forall_forall in Hall. now destruct (Hfail (Hall ev Hin)).
  - intros ev' Hin' Hstage.
    apply in_split in Hin' as (pre & post & ->).
    pose proof (Forall_before_last _ _ _ _ Hlast) as Hpre.
    rewrite map_app, <- app_assoc in Hplan. simpl in Hplan.
    rewrite Hstage in Hplan.
    apply plan_tree_position in Hplan as [_ Hpost].
    apply in_app_or in Hin as [Hin | [<- | Hin]].
    + rewrite Forall_forall in Hpre. now destruct (Hfail (Hpre ev Hin)).
    + congruence.
    + assert (In (stage_of ev) (map stage_of post ++ rest)) as Hs
          by (apply in_or_app; left; now apply in_map).
      rewrite Hpost, Hblob in Hs.
      destruct Hs as [Hs | [Hs | []]]; discriminate.
Qed.

Lemma blob_failure_aborts_witness :
  (exists e,
      snd (createGitHubRepoAndPush Demo.stingy "tok" JNull "demo"
             Demo.two_files []) = Throw e)
  /\ forall ev',
       In ev' (fst (createGitHubRepoAndPush Demo.stingy "tok" JNull "demo"
                      Demo.two_files [])) ->
       stage_of ev' <> TreeStage.
Proof.
  apply (blob_failure_aborts Demo.stingy "tok" JNull "demo" Demo.two_files []
           (fst (createGitHubRepoAndPush Demo.stingy "tok" JNull "demo"
                   Demo.two_files []))
           (snd (createGitHubRepoAndPush Demo.stingy "tok" JNull "demo"
                   Demo.two_files []))
           (fst (createGitHubRepoAndPush Demo.stingy "tok" JNull "demo"
                   Demo.two_files []))
           (mkHubEvent
              (mkRequest (GitBlobs "octocat" "demo") "POST"
                 (auth_headers "tok" ++ [("Content-Type", "application/json")])
                 (blob_payload (mkCollected "proj/logo.png" Demo.png_bytes)))
              (Ok Demo.refusal))
           (blob_payload (mkCollected "proj/logo.png" Demo.png_bytes))).
  - apply surjective_pairing.
  - reflexivity.
  - vm_compute. right. right. left. reflexivity.
  - reflexivity.
  - intros (r & Hr & Hok). inversion Hr; subst. discriminate.
Defined.

(* ===================================================================== *)
(** * Steps of a publication that returns                                 *)
(* ===================================================================== *)

Section Returns.

Variable hub : GitHub.

Lemma post_ret e hdrs b t t1 res :
  post hub e hdrs b t = (t1, Ret res) ->
  hub t (mkRequest e "POST" (hdrs ++ [("Content-Type", "application/json")]) b)
  = Ok res
  /\ t1 = t ++ [mkHubEvent
                  (mkRequest e "POST"
                     (hdrs ++ [("Content-Type", "application/json")]) b)
                  (Ok res)].
Proof.
  unfold post, fetch.
  destruct (hub t _) as [r | err]; intros H; inversion H; subst.
  now split.
Qed.

Lemma check_ok_ret res what t t1 u :
  check_ok res what t = (t1, Ret u) -> ok res = true /\ t1 = t.
Proof.
  unfold check_ok. destruct (ok res); simpl.
  - intros H. inversion H. now split.
  - unfold bind, lift_result. destruct (text res); discriminate.
Qed.

Lemma lift_ret {S A} (r : Result A) (t t1 : S) a :
  lift_result r t = (t1, Ret a) -> r = Ok a /\ t1 = t.
Proof. destruct r; intros H; inversion H; now split. Qed.

Lemma create_blobs_ret hdrs owner repoName files :
  forall blobs0 t t1 blobs,
    create_blobs hub hdrs owner repoName files blobs0 t = (t1, Ret blobs) ->
    map blob_path blobs = map blob_path blobs0 ++ map path files.
Proof.
  induction files as [| f files IH]; intros blobs0 t t1 blobs H.
  - inversion H; subst. simpl. now rewrite app_nil_r.
  - cbn [create_blobs] in H.
    apply bind_inv in H.
    destruct H as [(s1 & res & _ & H) | [(e & _ & He) | [_ He]]];
      try discriminate.
    apply bind_inv in H.
    destruct H as [(s2 & [] & _ & H) | [(e & _ & He) | [_ He]]];
      try discriminate.
    apply bind_inv in H.
    destruct H as [(s3 & blobJson & _ & H) | [(e & _ & He) | [_ He]]];
      try discriminate.
    apply bind_inv in H.
    destruct H as [(s4 & sha & _ & H) | [(e & _ & He) | [_ He]]];
      try discriminate.
    apply IH in H. rewrite H, map_app, <- app_assoc. reflexivity.
Qed.

End Returns.

Ltac returned H x Hx :=
  apply bind_inv in H;
  destruct H as [(? & x & Hx & H) | [(? & _ & ?) | [_ ?]]];
  [ | discriminate | discriminate ].

(* ===================================================================== *)
(** * The request handler                                                 *)
(* ===================================================================== *)

Section Responses.

Variable P : ResCall -> Prop.

Lemma responds_res_do c : P c -> responds P (res_do c).
Proof.
  intros Hc w w' o H. unfold res_do in H.
  destruct (res_throws (res_calls w) c); inversion H; subst; simpl.
  - exists []. rewrite app_nil_r. split; [reflexivity | constructor].
  - exists [c]. split; [reflexivity | now constructor].
Qed.

Lemma responds_fresh {A} (m : M World A) :
  responds P m -> responds P (with_fresh_response m).
Proof.
  intros Hm w w' o H. unfold with_fresh_response in H.
  destruct (m (fresh_response w)) as [w1 o1] eqn:H1.
  destruct (Hm _ _ _ H1) as (made & E & F).
  injection H as <- <-. simpl. exists made. now rewrite E.
Qed.

Lemma responds_silent {A} (m : M World A) :
  (forall w, res_calls (fst (m w)) = res_calls w) -> responds P m.
Proof.
  intros Hm w w' o H. exists []. rewrite app_nil_r.
  split; [| constructor]. specialize (Hm w). now rewrite H in Hm.
Qed.

Lemma responds_lift {A} (r : Result A) : responds P (lift_result r).
Proof. apply responds_silent. intros w. now destruct r. Qed.

Lemma responds_on_drive {A} (m : M DriveTrace A) : responds P (on_drive m).
Proof.
  apply responds_silent. intros w. unfold on_drive.
  now destruct (m (drive_trace w)).
Qed.

Lemma responds_on_hub {A} (m : M HubTrace A) : responds P (on_hub m).
Proof.
  apply responds_silent. intros w. unfold on_hub.
  now destruct (m (hub_trace w)).
Qed.

Lemma responds_console e : responds P (console_error e).
Proof. apply responds_silent. reflexivity. Qed.

Lemma responds_bind {A B} (m : M World A) (k : A -> M World B) :
  responds P m -> (forall a, responds P (k a)) -> responds P (bind m k).
Proof.
  intros Hm Hk w w' o H. apply bind_inv in H.
  destruct H as [(w1 & a & H1 & H2) | [(e & H1 & _) | [H1 _]]].
  - destruct (Hm _ _ _ H1) as (m1 & E1 & F1).
    destruct (Hk a _ _ _ H2) as (m2 & E2 & F2).
    exists (m1 ++ m2). rewrite E2, E1, app_assoc. split; [reflexivity |].
    apply Forall_app. now split.
  - now apply (Hm _ _ _ H1).
  - now apply (Hm _ _ _ H1).
Qed.

Lemma responds_try_catch {A} (m : M World A) (h : JsError -> M World A) :
  responds P m -> (forall e, responds P (h e)) -> responds P (try_catch m h).
Proof.
  intros Hm Hh w w' o H. unfold try_catch in H.
  destruct (m w) as [w1 o1] eqn:H1.
  destruct (Hm _ _ _ H1) as (m1 & E1 & F1).
  destruct o1 as [a | e |]; try (inversion H; subst; now exists m1).
  destruct (Hh e _ _ _ H) as (m2 & E2 & F2).
  exists (m1 ++ m2). rewrite E2, E1, app_assoc. split; [reflexivity |].
  apply Forall_app. now split.
Qed.

End Responses.

(** What [extractDriveId] returns for a truthy argument is a truthy
    string. *)
Lemma match_id_run_truthy s r : match_id_run s = Some r -> str_truthy r = true.
Proof.
  induction s as [| c s IH]; [discriminate |].
  cbn [match_id_run]. remember (class_run (String c s)) as run.
  destruct (25 <=? String.length run)%nat eqn:Hlen.
  - intros H. injection H as <-. apply Nat.leb_le in Hlen.
    destruct run; [simpl in Hlen; lia | reflexivity].
  - exact IH.
Qed.

Lemma extractDriveId_truthy v driveId :
  js_truthy v = true -> extractDriveId v = Ok driveId ->
  exists id, driveId = Some id /\ str_truthy id = true.
Proof.
  unfold extractDriveId. intros Hv. rewrite Hv. simpl.
  destruct v; try discriminate.
  destruct (match_id_run s) as [r |] eqn:Hm; intros H; inversion H; subst.
  - exists r. split; [reflexivity | now apply (match_id_run_truthy s)].
  - exists s. now split.
Qed.

(** The handler never sends the "Could not extract Drive ID" answer. *)
Lemma no_drive_id_answer_dead drive hub fuel req :
  responds (fun c => c <> ResSend msg_no_drive_id)
    (create_repo drive hub fuel req).
Proof.
  unfold create_repo. apply responds_fresh. apply responds_try_catch.
  - unfold create_repo_try.
    destruct (negb (js_truthy (session_googleTokens req))).
    { apply responds_bind; [| intros _]; apply responds_res_do; discriminate. }
    destruct (js_truthy (body_githubToken req)); simpl;
      [| apply responds_bind; [| intros _]; apply responds_res_do; discriminate].
    destruct (js_truthy (body_repoName req)); simpl;
      [| apply responds_bind; [| intros _]; apply responds_res_do; discriminate].
    destruct (js_truthy (body_driveLinkOrId req)) eqn:Hv; simpl;
      [| apply responds_bind; [| intros _]; apply responds_res_do; discriminate].
    destruct (extractDriveId (body_driveLinkOrId req)) as [driveId | e] eqn:Hx.
    + destruct (extractDriveId_truthy _ _ Hv Hx) as (id & -> & Hid).
      cbn [lift_result]. intros w w' o H. unfold bind at 1, ret in H.
      rewrite Hid in H. simpl negb in H. cbv iota in H. revert w w' o H.
      apply responds_bind; [apply responds_res_do; discriminate | intros _].
      apply responds_bind; [apply responds_res_do; discriminate | intros _].
      apply responds_bind; [apply responds_on_drive | intros files].
      destruct (List.length files =? 0)%nat.
      * apply responds_bind; [| intros _]; apply responds_res_do; discriminate.
      * apply responds_bind; [apply responds_res_do; discriminate | intros _].
        apply responds_bind; [apply responds_lift | intros token].
        apply responds_bind; [apply responds_lift | intros name].
        apply responds_bind; [apply responds_on_hub | intros result].
        apply responds_bind; [apply responds_lift | intros html_url].
        apply responds_bind; [| intros _]; apply responds_res_do; discriminate.
    + intros w w' o H. unfold bind, lift_result, throw in H.
      inversion H; subst. exists []. rewrite app_nil_r.
      split; [reflexivity | constructor].
  - intros e. apply responds_bind; [apply responds_console | intros _].
    apply responds_bind; [| intros _]; apply responds_res_do; discriminate.
Qed.

(* ===================================================================== *)
(** * Extraction of the Drive identifier                                  *)
(* ===================================================================== *)

Lemma run_prefix_length m rest :
  all_in_class m = true ->
  String.length m <= String.length (class_run (m ++ rest)).
Proof.
  induction m as [| c m IH]; simpl; intros H; [lia |].
  apply andb_prop in H as [Hc Hm]. rewrite Hc. simpl.
  specialize (IH Hm). lia.
Qed.

Lemma class_run_spec s :
  exists post,
    s = (class_run s ++ post)%string
    /\ starts_in_class post = false
    /\ all_in_class (class_run s) = true.
Proof.
  induction s as [| c s (post & E & Hp & Ha)].
  - exists EmptyString. now repeat split.
  - simpl. destruct (in_class c) eqn:Hc.
    + exists post. simpl. rewrite Hc, Ha. repeat split; try assumption.
      now rewrite <- E.
    + exists (String c s). now repeat split.
Qed.

Lemma no_long_run_empty : ~ has_long_run EmptyString.
Proof.
  intros (a & m & b & E & [_ Hl]).
  destruct a; [| discriminate]. destruct m; [simpl in Hl; lia | discriminate].
Qed.

(** If the match fails at the first character, a long run further on
    starts after that character. *)
Lemma no_early_run c pre tail :
  String.length (class_run (String c (pre ++ tail))) < 25 ->
  ~ has_long_run pre -> ~ has_long_run (String c pre).
Proof.
  intros Hlen Hpre (a & m & b & E & [Hm Hl]). destruct a as [| x a].
  - simpl in E.
    assert (String c (pre ++ tail) = (m ++ (b ++ tail))%string) as Hs.
    { change (String c (pre ++ tail)) with ((String c pre) ++ tail)%string.
      now rewrite E, append_assoc. }
    rewrite Hs in Hlen. pose proof (run_prefix_length m (b ++ tail) Hm). lia.
  - simpl in E. inversion E; subst. apply Hpre. now exists a, m, b.
Qed.

(** The matcher finds the first maximal long run, and fails only when
    the string has no long run. *)
Lemma match_id_run_spec s :
  match match_id_run s with
  | Some r => first_maximal_run s r
  | None => ~ has_long_run s
  end.
Proof.
  induction s as [| c s IH]; [exact no_long_run_empty |].
  cbn [match_id_run]. remember (class_run (String c s)) as run eqn:Hrun.
  destruct (25 <=? String.length run)%nat eqn:Hlen.
  - apply Nat.leb_le in Hlen.
    destruct (class_run_spec (String c s)) as (post & E & Hp & Ha).
    rewrite <- Hrun in E, Ha.
    exists EmptyString, post. simpl. repeat split; try assumption.
    exact no_long_run_empty.
  - apply Nat.leb_gt in Hlen. subst run.
    destruct (match_id_run s) as [r |].
    + destruct IH as (pre & post & E & [Hall Hl] & He & Hs & Hno).
      exists (String c pre), post. simpl. rewrite <- E.
      repeat split; try assumption.
      * destruct pre as [| x pre]; [| exact He].
        simpl in E. simpl. destruct (in_class c) eqn:Hc; [| reflexivity].
        exfalso. simpl in Hlen. rewrite Hc in Hlen. simpl in Hlen.
        pose proof (run_prefix_length r post Hall) as Hr.
        rewrite <- E in Hr. lia.
      * apply (no_early_run c pre (r ++ post)); [| assumption].
        now rewrite <- E.
    + apply (no_early_run c s EmptyString); [| assumption].
      now rewrite append_nil_r.
Qed.

(* ===================================================================== *)
(** * An empty collection                                                 *)
(* ===================================================================== *)

(** C10. When the request passes the handler's checks and the collector
    returns an empty collection, the handler writes "No files found." and
    ends the response; it makes no call to GitHub, whatever GitHub would
    answer, and it returns without an error. *)
Theorem empty_collection_skips_publisher drive hub fuel req w id t :
  js_truthy (session_googleTokens req) = true ->
  js_truthy (body_githubToken req) = true ->
  js_truthy (body_repoName req) = true ->
  js_truthy (body_driveLinkOrId req) = true ->
  extractDriveId (body_driveLinkOrId req) = Ok (Some id) ->
  collectDriveFiles drive fuel id (drive_trace w) = (t, Ret []) ->
  create_repo drive hub fuel req w
  = ({| res_calls :=
          res_calls w
            ++ [ ResWriteHead 200 [("Content-Type", "text/html; charset=utf-8")];
                 ResWrite msg_collecting;
                 ResWrite msg_no_files;
                 ResEnd ];
        console_errors := console_errors w;
        drive_trace := t;
        hub_trace := hub_trace w |}, Ret tt).
Proof.
  intros H1 H2 H3 H4 Hx Hc.
  destruct (extractDriveId_truthy _ _ H4 Hx) as (id' & Hid' & Hid).
  inversion Hid'; subst id'.
  unfold create_repo, with_fresh_response, try_catch, create_repo_try.
  rewrite H1, H2, H3, H4, Hx.
  cbn [negb orb].
  erewrite bind_ret by reflexivity.
  cbv beta iota. rewrite Hid. cbn [negb].
  erewrite bind_ret by reflexivity.
  erewrite bind_ret by reflexivity.
  erewrite bind_ret
    by (unfold on_drive; simpl drive_trace; rewrite Hc; reflexivity).
  cbn [List.length Nat.eqb].
  erewrite bind_ret by reflexivity.
  reflexivity.
Qed.

Lemma empty_collection_skips_publisher_witness :
  create_repo (of_snapshot Demo.hollow) Demo.hub 3
    (Demo.request_for Demo.drive_link) new_world
  = ({| res_calls :=
          [ ResWriteHead 200 [("Content-Type", "text/html; charset=utf-8")];
            ResWrite msg_collecting;
            ResWrite msg_no_files;
            ResEnd ];
        console_errors := [];
        drive_trace :=
          [ ok_event (FilesGet "1AbCdEfGhIjKlMnOpQrStUvWxYz_-0123" meta_fields);
            ok_event (FilesList (list_query "1AbCdEfGhIjKlMnOpQrStUvWxYz_-0123")
                        list_fields None) ];
        hub_trace := [] |}, Ret tt).
Proof.
  apply (empty_collection_skips_publisher (of_snapshot Demo.hollow) Demo.hub 3
           (Demo.request_for Demo.drive_link) new_world
           "1AbCdEfGhIjKlMnOpQrStUvWxYz_-0123");
    reflexivity.
Defined.

(* ===================================================================== *)
(** * Fuel                                                                *)
(* ===================================================================== *)

Section Fuel.

Variable drive : Drive.

Lemma for_of_more_fuel {A} (xs : list A) (body body' : A -> M CState unit) :
  (forall x st st' o,
      body x st = (st', o) -> o <> OutOfFuel -> body' x st = (st', o)) ->
  forall st st' o,
    for_of xs body st = (st', o) -> o <> OutOfFuel ->
    for_of xs body' st = (st', o).
Proof.
  intros Hb. induction xs as [| x xs IH]; intros st st' o H Ho; [exact H |].
  simpl in *. apply bind_inv in H.
  destruct H as [(s1 & [] & H1 & H2) | [(e & H1 & ->) | [_ ->]]].
  - erewrite bind_ret by (apply Hb; [exact H1 | discriminate]).
    now apply IH.
  - erewrite bind_throw by (apply Hb; [exact H1 | discriminate]).
    reflexivity.
  - now destruct Ho.
Qed.

(** A walk that ends with a given amount of fuel ends the same way with
    more: fuel bounds the model, not the program. *)
Lemma walk_more_fuel fuel :
  forall fuel' id prefix tok st st' o,
    fuel <= fuel' ->
    walkFolder_from drive fuel id prefix tok st = (st', o) ->
    o <> OutOfFuel ->
    walkFolder_from drive fuel' id prefix tok st = (st', o).
Proof.
  induction fuel as [| fuel IH]; intros fuel' id prefix tok st st' o Hle H Ho.
  - inversion H; subst. now destruct Ho.
  - destruct fuel' as [| fuel']; [lia |].
    cbn [walkFolder_from] in *. apply bind_inv in H.
    destruct H as [(s1 & qRes & H1 & H) | [(e & H1 & ->) | [H1 ->]]];
      [| now erewrite bind_throw by exact H1 | now destruct Ho].
    erewrite bind_ret by exact H1.
    assert (forall f s s' o',
               (if (file_mimeType f =? mime_folder)%string
                then walkFolder_from drive fuel (file_id f)
                       (prefix ++ file_name f ++ "/") None
                else
                  buf <- downloadFileAsBuffer drive (file_id f) (file_mimeType f) ;;
                  push {| path := prefix ++ file_name f; buffer := buf |}) s
               = (s', o') ->
               o' <> OutOfFuel ->
               (if (file_mimeType f =? mime_folder)%string
                then walkFolder_from drive fuel' (file_id f)
                       (prefix ++ file_name f ++ "/") None
                else
                  buf <- downloadFileAsBuffer drive (file_id f) (file_mimeType f) ;;
                  push {| path := prefix ++ file_name f; buffer := buf |}) s
               = (s', o')) as Hbody.
    { intros f s s' o' Hf Ho'.
      destruct (file_mimeType f =? mime_folder)%string; [| exact Hf].
      apply (IH fuel'); [lia | exact Hf | exact Ho']. }
    apply bind_inv in H.
    destruct H as [(s2 & [] & H2 & H) | [(e & H2 & ->) | [H2 ->]]].
    + erewrite bind_ret
        by (apply (for_of_more_fuel _ _ _ Hbody); [exact H2 | discriminate]).
      destruct (opt_truthy (nextPageToken qRes)); [| exact H].
      apply (IH fuel'); [lia | exact H | exact Ho].
    + erewrite bind_throw
        by (apply (for_of_more_fuel _ _ _ Hbody); [exact H2 | discriminate]).
      reflexivity.
    + now destruct Ho.
Qed.

Lemma collect_more_fuel fuel fuel' driveId t t' o :
  fuel <= fuel' ->
  collectDriveFiles drive fuel driveId t = (t', o) ->
  o <> OutOfFuel ->
  collectDriveFiles drive fuel' driveId t = (t', o).
Proof.
  intros Hle H Ho. unfold collectDriveFiles, collect_body in *.
  destruct (bind (getMeta drive driveId) _ _) as [st o1] eqn:H1 in H.
  assert (o1 <> OutOfFuel) as Ho1.
  { intros ->. inversion H; subst. now destruct Ho. }
  apply bind_inv in H1.
  destruct H1 as [(s1 & meta & Hg & H1) | [(e & Hg & ->) | [_ ->]]].
  - erewrite bind_ret by exact Hg.
    destruct (meta_mimeType meta =? mime_folder)%string.
    + unfold walkFolder in *.
      now rewrite (walk_more_fuel fuel fuel' _ _ _ _ _ _ Hle H1 Ho1).
    + now rewrite H1.
  - now erewrite bind_throw by exact Hg.
  - now destruct Ho1.
Qed.

End Fuel.

(* ===================================================================== *)
(** * Worked examples                                                     *)
(* ===================================================================== *)

Example extract_from_link :
  extractDriveId (JStr Demo.drive_link)
  = Ok (Some "1AbCdEfGhIjKlMnOpQrStUvWxYz_-0123").
Proof. reflexivity. Qed.

Example extract_short_id : extractDriveId (JStr "abc") = Ok (Some "abc").
Proof. reflexivity. Qed.

Example extract_nothing : extractDriveId (JStr "") = Ok None.
Proof. reflexivity. Qed.

Example extract_from_number :
  extractDriveId (JNum "7") = Thrown (TypeError_not_a_function "linkOrId.match").
Proof. reflexivity. Qed.

Example trim_token : trim " ghp_token " = "ghp_token".
Proof. reflexivity. Qed.

Example base64_png : base64 Demo.png_bytes = "iVBORw==".
Proof. reflexivity. Qed.

(** The end-to-end scenario: folder [proj] with sub-folder [docs] holding
    the native spreadsheet [budget], and the binary file [logo.png]. *)
Example collect_proj :
  snd (collectDriveFiles (of_snapshot Demo.snapshot) 2 "1proj" [])
  = Ret Demo.two_files.
Proof. reflexivity. Qed.

Example collect_proj_presented :
  served_root Demo.snapshot "1proj" Demo.tree
  /\ height Demo.tree = 2
  /\ well_named Demo.tree = true
  /\ flatten "" Demo.tree = Demo.two_files.
Proof. vm_compute. repeat split; reflexivity. Qed.

Example publish_proj_stages :
  map stage_of
    (fst (createGitHubRepoAndPush Demo.hub "tok" JNull "demo" Demo.two_files []))
  = stage_plan Demo.two_files.
Proof. reflexivity. Qed.

Example publish_refused_stages :
  map stage_of
    (fst (createGitHubRepoAndPush Demo.stingy "tok" JNull "demo" Demo.two_files []))
  = [RepoStage; BlobStage (blob_payload (mkCollected "proj/docs/budget" Demo.csv_bytes));
     BlobStage (blob_payload (mkCollected "proj/logo.png" Demo.png_bytes))]
  /\ snd (createGitHubRepoAndPush Demo.stingy "tok" JNull "demo" Demo.two_files [])
     = Throw (Error "Failed to create blob: Validation Failed").
Proof. split; reflexivity. Qed.

Example create_repo_proj :
  res_calls
    (fst (create_repo (of_snapshot Demo.snapshot) Demo.hub 2
            (Demo.request_for "1proj") new_world))
  = [ ResWriteHead 200 [("Content-Type", "text/html; charset=utf-8")];
      ResWrite msg_collecting;
      ResWrite (msg_collected 2);
      ResWrite (msg_done "https://github.com/octocat/demo");
      ResEnd ].
Proof. reflexivity. Qed.

Example create_repo_not_signed_in :
  res_calls
    (fst (create_repo (of_snapshot Demo.snapshot) Demo.hub 2
            {| session_googleTokens := JUndefined;
               body_githubToken := JStr "ghp_token";
               body_repoName := JStr "demo";
               body_driveLinkOrId := JStr "1proj" |} new_world))
  = [ ResStatus 400; ResSend msg_sign_in_first ].
Proof. reflexivity. Qed.

(* ===================================================================== *)
(** * More on the extraction of the Drive identifier                      *)
(* ===================================================================== *)

Lemma class_run_all id post :
  all_in_class id = true -> starts_in_class post = false ->
  class_run (id ++ post) = id.
Proof.
  induction id as [| c id IH]; simpl; intros Hid Hpost.
  - destruct post as [| x post]; [reflexivity |]. simpl in *. now rewrite Hpost.
  - apply andb_prop in Hid as [Hc Hid]. rewrite Hc. now rewrite IH.
Qed.

(** A run that starts in a prefix whose last character is not of the
    class ends in that prefix. *)
Lemma class_run_stops pre tail :
  pre <> EmptyString -> ends_in_class pre = false ->
  class_run (pre ++ tail) = class_run pre.
Proof.
  induction pre as [| c pre IH]; intros Hne Hends; [now destruct Hne |].
  destruct pre as [| d pre].
  - simpl in *. now rewrite Hends.
  - change (ends_in_class (String c (String d pre)))
      with (ends_in_class (String d pre)) in Hends.
    simpl. destruct (in_class c); [| reflexivity].
    f_equal. apply IH; [discriminate | assumption].
Qed.

Lemma long_run_tail c pre : ~ has_long_run (String c pre) -> ~ has_long_run pre.
Proof.
  intros H (a & m & b & E & Hm). apply H.
  exists (String c a), m, b. simpl. now rewrite E.
Qed.

(** The matcher finds a long run that is delimited on both sides and has
    no long run before it. *)
Lemma match_id_run_complete pre :
  forall id post,
    ~ has_long_run pre -> ends_in_class pre = false ->
    all_in_class id = true -> 25 <= String.length id ->
    starts_in_class post = false ->
    match_id_run (pre ++ id ++ post) = Some id.
Proof.
  induction pre as [| c pre IH]; intros id post Hno Hends Hid Hlen Hpost.
  - simpl. destruct id as [| x id]; [simpl in Hlen; lia |].
    change ((String x id ++ post)%string) with (String x (id ++ post)).
    cbn [match_id_run].
    change (String x (id ++ post)) with ((String x id ++ post)%string).
    rewrite (class_run_all _ _ Hid Hpost).
    apply Nat.leb_le in Hlen. now rewrite Hlen.
  - change ((String c pre ++ id ++ post)%string)
      with (String c (pre ++ id ++ post)).
    cbn [match_id_run].
    change (String c (pre ++ id ++ post))
      with ((String c pre ++ (id ++ post))%string).
    rewrite (class_run_stops (String c pre) (id ++ post))
      by (try discriminate; assumption).
    assert (String.length (class_run (String c pre)) < 25) as Hshort.
    { destruct (class_run_spec (String c pre)) as (rest & E & _ & Hall).
      destruct (Nat.lt_ge_cases (String.length (class_run (String c pre))) 25)
        as [Hlt | Hge]; [assumption |].
      exfalso. apply Hno.
      exists EmptyString, (class_run (String c pre)), rest.
      split; [exact E | now split]. }
    apply Nat.leb_gt in Hshort. rewrite Hshort.
    apply IH; try assumption.
    + now apply (long_run_tail c).
    + destruct pre as [| d pre]; [reflexivity | exact Hends].
Qed.

Lemma no_long_run_by_matching s : match_id_run s = None -> ~ has_long_run s.
Proof. intros H. pose proof (match_id_run_spec s) as Hs. now rewrite H in Hs. Qed.

(** The tests of the matcher accept exactly the characters of the
    alphabet. *)
Lemma in_class_alphabet c :
  in_class c = existsb (Ascii.eqb c) (list_ascii_of_string id_alphabet).
Proof. destruct c as [[] [] [] [] [] [] [] []]; reflexivity. Qed.

Lemma in_class_id_char c : in_class c = true <-> id_char c.
Proof.
  rewrite in_class_alphabet. unfold id_char. rewrite existsb_exists. split.
  - intros (x & Hin & Heq). apply Ascii.eqb_eq in Heq. now subst.
  - intros Hin. exists c. split; [assumption | apply Ascii.eqb_refl].
Qed.

Lemma not_in_class_id_char c : in_class c = false <-> ~ id_char c.
Proof.
  rewrite <- in_class_id_char. destruct (in_class c); split; intros H;
    try reflexivity; try discriminate; try (intros H'; discriminate).
  now destruct H.
Qed.

Lemma all_in_class_id_chars s : all_in_class s = true <-> id_chars s.
Proof.
  induction s as [| c s IH]; simpl; [tauto |].
  rewrite andb_true_iff, IH, in_class_id_char. tauto.
Qed.

Lemma long_run_id_run m : long_run m <-> id_run m.
Proof. unfold long_run, id_run. now rewrite all_in_class_id_chars. Qed.

Lemma has_long_run_holds s : has_long_run s <-> holds_id_run s.
Proof.
  unfold has_long_run, holds_id_run.
  split; intros (pre & m & post & E & H); exists pre, m, post;
    (split; [exact E | now apply long_run_id_run]).
Qed.

Lemma starts_in_class_spec post :
  starts_in_class post = false
  <-> forall c post', post = String c post' -> ~ id_char c.
Proof.
  destruct post as [| c post]; simpl.
  - split; [intros _ c post' H; discriminate | reflexivity].
  - rewrite not_in_class_id_char. split.
    + intros H c' post' E. now inversion E; subst.
    + intros H. now apply (H c post).
Qed.

Lemma ends_in_class_spec pre :
  ends_in_class pre = false
  <-> forall pre' c, pre = (pre' ++ String c EmptyString)%string -> ~ id_char c.
Proof.
  induction pre as [| x pre IH].
  - simpl. split; [| reflexivity].
    intros _ pre' c H. destruct pre'; discriminate.
  - destruct pre as [| y pre].
    + simpl. rewrite not_in_class_id_char. split.
      * intros H pre' c E. destruct pre' as [| z pre'].
        -- simpl in E. now inversion E; subst.
        -- simpl in E. inversion E. destruct pre'; discriminate.
      * intros H. now apply (H EmptyString x).
    + change (ends_in_class (String x (String y pre)))
        with (ends_in_class (String y pre)).
      rewrite IH. split.
      * intros H pre' c E. destruct pre' as [| z pre'].
        -- simpl in E. discriminate.
        -- simpl in E. inversion E; subst. now apply (H pre' c).
      * intros H pre' c E. apply (H (String x pre') c). simpl. now rewrite E.
Qed.

Lemma first_maximal_run_spec s r : first_maximal_run s r <-> first_id_run s r.
Proof.
  unfold first_maximal_run, first_id_run.
  split; intros (pre & post & E & Hr & He & Hs & Hno); exists pre, post;
    (split; [exact E |]).
  - split; [now apply long_run_id_run |].
    split; [now apply ends_in_class_spec |].
    split; [now apply starts_in_class_spec |].
    now rewrite <- has_long_run_holds.
  - split; [now apply long_run_id_run |].
    split; [now apply ends_in_class_spec |].
    split; [now apply starts_in_class_spec |].
    now rewrite has_long_run_holds.
Qed.

(** What the matcher returns, in terms of the runs of the string. *)
Lemma match_id_run_first s r :
  match_id_run s = Some r <-> first_id_run s r.
Proof.
  rewrite <- first_maximal_run_spec. split.
  - intros H. pose proof (match_id_run_spec s) as Hs. now rewrite H in Hs.
  - intros (pre & post & -> & [Hall Hlen] & He & Hs & Hno).
    now apply match_id_run_complete.
Qed.

Lemma match_id_run_none s : match_id_run s = None <-> ~ holds_id_run s.
Proof.
  rewrite <- has_long_run_holds. split.
  - apply no_long_run_by_matching.
  - intros Hno. pose proof (match_id_run_spec s) as Hs.
    destruct (match_id_run s) as [r |]; [| reflexivity].
    exfalso. apply Hno. destruct Hs as (pre & post & E & Hr & _).
    now exists pre, r, post.
Qed.

(** C9. For every non-empty string, [extractDriveId] returns a non-empty
    string and not [null]: the first maximal run of 25 or more word or
    hyphen characters of the argument when there is one, and the argument
    itself otherwise, and nothing else; and the handler, given a request
    whose [driveLinkOrId] is that string, never answers "Could not extract
    Drive ID from the provided link.", whatever the services answer. *)
Theorem drive_id_always_extracted link :
  link <> EmptyString ->
  (forall r,
      extractDriveId (JStr link) = Ok (Some r)
      <-> first_id_run link r \/ (~ holds_id_run link /\ r = link))
  /\ (exists r, extractDriveId (JStr link) = Ok (Some r) /\ r <> EmptyString)
  /\ forall drive hub fuel req w,
       body_driveLinkOrId req = JStr link ->
       exists made,
         res_calls (fst (create_repo drive hub fuel req w)) = res_calls w ++ made
         /\ ~ In (ResSend msg_no_drive_id) made.
Proof.
  intros Hlink.
  assert (extractDriveId (JStr link)
          = Ok (Some match match_id_run link with
                     | Some folderMatch => folderMatch
                     | None => link
                     end)) as Hx.
  { unfold extractDriveId. simpl js_truthy. unfold str_truthy.
    destruct (String.eqb_spec link EmptyString) as [-> | _];
      [now destruct Hlink |].
    simpl negb. cbv iota. now destruct (match_id_run link). }
  split; [| split].
  - intros r. rewrite Hx. split.
    + intros H. injection H as <-.
      destruct (match_id_run link) as [m |] eqn:Hm.
      * left. now apply match_id_run_first.
      * right. split; [now apply match_id_run_none | reflexivity].
    + intros [H | [Hno ->]].
      * apply match_id_run_first in H. now rewrite H.
      * apply match_id_run_none in Hno. now rewrite Hno.
  - rewrite Hx. eexists. split; [reflexivity |].
    pose proof (match_id_run_truthy link) as Htruthy.
    destruct (match_id_run link) as [m |]; [| assumption].
    intros ->. specialize (Htruthy EmptyString eq_refl). discriminate.
  - intros drive hub fuel req w _.
    destruct (create_repo drive hub fuel req w) as [w' o] eqn:Hrun.
    destruct (no_drive_id_answer_dead drive hub fuel req _ _ _ Hrun)
      as (made & E & F).
    exists made. split; [exact E |].
    intros Hin. rewrite Forall_forall in F. now apply (F _ Hin).
Qed.

Lemma drive_id_always_extracted_witness :
  extractDriveId (JStr Demo.drive_link) = Ok (Some Sample.a_folder_id)
  /\ first_id_run Demo.drive_link Sample.a_folder_id
  /\ forall drive hub fuel req w,
       body_driveLinkOrId req = JStr Demo.drive_link ->
       exists made,
         res_calls (fst (create_repo drive hub fuel req w)) = res_calls w ++ made
         /\ ~ In (ResSend msg_no_drive_id) made.
Proof.
  destruct (drive_id_always_extracted Demo.drive_link) as (Hiff & _ & Hdead);
    [discriminate |].
  split; [reflexivity |]. split; [| exact Hdead].
  destruct (proj1 (Hiff Sample.a_folder_id) eq_refl) as [H | [_ H]];
    [exact H | discriminate H].
Defined.

(** X1. A Drive link of one of the usual shapes (a folder link, a file
    link, an [open?id=] link, or the bare identifier), whose identifier
    has 25 or more word or hyphen characters and is followed by nothing
    or by a character outside that class, yields exactly its identifier. *)
Theorem extract_from_drive_links id rest :
  all_in_class id = true -> 25 <= String.length id ->
  starts_in_class rest = false ->
  extractDriveId (JStr (folder_link_prefix ++ id ++ rest)) = Ok (Some id)
  /\ extractDriveId (JStr (file_link_prefix ++ id ++ rest)) = Ok (Some id)
  /\ extractDriveId (JStr (open_link_prefix ++ id ++ rest)) = Ok (Some id)
  /\ extractDriveId (JStr (id ++ rest)) = Ok (Some id).
Proof.
  intros Hid Hlen Hrest.
  assert (forall pre,
            match_id_run pre = None -> ends_in_class pre = false ->
            extractDriveId (JStr (pre ++ id ++ rest)) = Ok (Some id)) as H.
  { intros pre Hnone Hends. unfold extractDriveId.
    rewrite (match_id_run_complete pre id rest
               (no_long_run_by_matching _ Hnone) Hends Hid Hlen Hrest).
    simpl js_truthy. unfold str_truthy.
    destruct (String.eqb_spec (pre ++ id ++ rest) EmptyString) as [E | _];
      [| reflexivity].
    exfalso. destruct pre; [| discriminate]. simpl in E.
    destruct id; [simpl in Hlen; lia | discriminate]. }
  split; [| split; [| split]].
  - apply H; reflexivity.
  - apply H; reflexivity.
  - apply H; reflexivity.
  - apply (H EmptyString); reflexivity.
Qed.

Lemma extract_from_drive_links_witness :
  extractDriveId
    (JStr (folder_link_prefix ++ Sample.a_folder_id ++ "?usp=sharing"))
  = Ok (Some Sample.a_folder_id)
  /\ extractDriveId
       (JStr (file_link_prefix ++ Sample.a_folder_id ++ "?usp=sharing"))
     = Ok (Some Sample.a_folder_id)
  /\ extractDriveId
       (JStr (open_link_prefix ++ Sample.a_folder_id ++ "?usp=sharing"))
     = Ok (Some Sample.a_folder_id)
  /\ extractDriveId (JStr (Sample.a_folder_id ++ "?usp=sharing"))
     = Ok (Some Sample.a_folder_id).
Proof.
  apply (extract_from_drive_links Sample.a_folder_id "?usp=sharing").
  - reflexivity.
  - vm_compute. lia.
  - reflexivity.
Defined.

(** X2. Extraction is idempotent: whatever [extractDriveId] returns for
    a value is returned unchanged when it is given back as the link. *)
Theorem extract_idempotent v r :
  extractDriveId v = Ok (Some r) -> extractDriveId (JStr r) = Ok (Some r).
Proof.
  unfold extractDriveId at 1.
  destruct (js_truthy v) eqn:Hv; simpl; [| discriminate].
  destruct v as [| | b | n | s | l | l]; try discriminate.
  pose proof (match_id_run_spec s) as Hspec.
  pose proof (match_id_run_truthy s) as Htruthy.
  destruct (match_id_run s) as [m |] eqn:Hm; intros H; inversion H; subst.
  - destruct Hspec as (pre & post & _ & [Hall Hlen] & _).
    unfold extractDriveId. simpl js_truthy. rewrite (Htruthy r eq_refl).
    simpl negb. cbv iota.
    pose proof (match_id_run_complete EmptyString r EmptyString
                  no_long_run_empty eq_refl Hall Hlen eq_refl) as Hc.
    simpl in Hc. rewrite append_nil_r in Hc. now rewrite Hc.
  - unfold extractDriveId. rewrite Hv. simpl. now rewrite Hm.
Qed.

Lemma extract_idempotent_witness :
  extractDriveId (JStr Sample.a_folder_id) = Ok (Some Sample.a_folder_id).
Proof.
  apply (extract_idempotent (JStr Demo.drive_link) Sample.a_folder_id).
  reflexivity.
Defined.

(* ===================================================================== *)
(** * Files and content calls                                             *)
(* ===================================================================== *)

Section Counting.

Variable drive : Drive.

Lemma counted_quiet {A} c (answer : DriveTrace -> Result A) :
  is_content_call (mkDriveEvent c None) = false ->
  counted (drive_call c answer).
Proof.
  intros Hc st st' o H. unfold drive_call in H. inversion H; subst; simpl.
  eexists _, []. split; [reflexivity |]. split; [now rewrite app_nil_r |].
  simpl. unfold is_content_call in *. simpl in *. now rewrite Hc.
Qed.

Lemma counted_ret {A} (a : A) : counted (ret a).
Proof.
  intros st st' o H. inversion H; subst. exists [], [].
  now rewrite !app_nil_r.
Qed.

Lemma counted_bind {A B} (m : M CState A) (k : A -> M CState B) :
  counted m -> (forall a, counted (k a)) -> counted (bind m k).
Proof.
  intros Hm Hk st st' o H. apply bind_inv in H.
  destruct H as [(s1 & a & H1 & H2) | [(e & H1 & _) | [H1 _]]].
  - destruct (Hm _ _ _ H1) as (m1 & a1 & E1 & R1 & L1).
    destruct (Hk a _ _ _ H2) as (m2 & a2 & E2 & R2 & L2).
    exists (m1 ++ m2), (a1 ++ a2).
    rewrite E2, E1, R2, R1, !app_assoc. repeat split.
    rewrite filter_app, !length_app. lia.
  - exact (Hm _ _ _ H1).
  - exact (Hm _ _ _ H1).
Qed.

Lemma counted_for_of {A} (xs : list A) (body : A -> M CState unit) :
  (forall x, counted (body x)) -> counted (for_of xs body).
Proof.
  intros Hb. induction xs as [| x xs IH]; simpl.
  - apply counted_ret.
  - apply counted_bind; [apply Hb | intros _; exact IH].
Qed.

(** Fetching a file and pushing it: one file, if the fetch succeeded. *)
Lemma counted_fetch id mime p :
  counted (buf <- downloadFileAsBuffer drive id mime ;;
           push {| path := p; buffer := buf |}).
Proof.
  intros st st' o H. unfold bind in H.
  unfold downloadFileAsBuffer, download_media, drive_call in H.
  destruct (pickExportMimeType mime) as [em |]; [destruct (str_truthy em) |];
    match type of H with
    | context [match ?r with Ok _ => _ | Thrown _ => _ end] =>
        destruct r as [buf | e]
    end;
    unfold push in H; simpl in H; inversion H; subst; simpl;
    first [ eexists _, [_]; split; [reflexivity |]; split; reflexivity
          | eexists _, []; split; [reflexivity |];
            split; [now rewrite app_nil_r | reflexivity] ].
Qed.

Lemma counted_walk fuel :
  forall id prefix tok, counted (walkFolder_from drive fuel id prefix tok).
Proof.
  induction fuel as [| fuel IH]; intros id prefix tok.
  - intros st st' o H. inversion H; subst. exists [], [].
    now rewrite !app_nil_r.
  - cbn [walkFolder_from]. apply counted_bind; [now apply counted_quiet |].
    intros qRes. apply counted_bind.
    + apply counted_for_of. intros f.
      destruct (file_mimeType f =? mime_folder)%string;
        [apply IH | apply counted_fetch].
    + intros _. destruct (opt_truthy (nextPageToken qRes));
        [apply IH | apply counted_ret].
Qed.

Lemma counted_collect fuel driveId : counted (collect_body drive fuel driveId).
Proof.
  unfold collect_body. apply counted_bind; [now apply counted_quiet |].
  intros meta. destruct (meta_mimeType meta =? mime_folder)%string.
  - apply counted_walk.
  - apply counted_fetch.
Qed.

End Counting.

(** X3. In every run of the collector that returns, on any Drive: the
    collection has exactly as many files as the run made content calls
    (exports and raw downloads), and every call of the run succeeded; so
    no file is fetched twice or fetched and dropped, and no entry is
    emitted without a fetch of its own. *)
Theorem one_fetch_per_file drive fuel driveId t t' collected :
  collectDriveFiles drive fuel driveId t = (t', Ret collected) ->
  exists made,
    t' = t ++ made
    /\ all_ok made
    /\ List.length collected = List.length (filter is_content_call made).
Proof.
  unfold collectDriveFiles.
  destruct (collect_body drive fuel driveId {| results := []; dtrace := t |})
    as [st o] eqn:Hrun.
  destruct o as [[] | e |]; try discriminate.
  intros H. inversion H; subst. clear H.
  destruct (counted_collect drive _ _ _ _ _ Hrun) as (made & added & E & R & L).
  destruct (tracked_collect drive _ _ _ _ _ Hrun) as (made' & E' & Hok).
  simpl in E, R, E', Hok.
  assert (made' = made) as -> by (apply (app_inv_head t); congruence).
  exists made. split; [assumption |]. split; [assumption |].
  rewrite R, L. f_equal. clear - Hok.
  induction Hok as [| ev l Hev _ IH]; [reflexivity |].
  simpl. rewrite Hev, andb_true_r, IH. reflexivity.
Qed.

Lemma one_fetch_per_file_witness :
  exists made,
    fst (collectDriveFiles (of_snapshot Demo.snapshot) 2 "1proj" []) = [] ++ made
    /\ all_ok made
    /\ List.length Demo.two_files = List.length (filter is_content_call made).
Proof.
  apply (one_fetch_per_file (of_snapshot Demo.snapshot) 2 "1proj" []).
  reflexivity.
Defined.

(* ===================================================================== *)
(** * More on the publisher: failures                                     *)
(* ===================================================================== *)

Lemma last_of_app {A} (l1 l2 pre : list A) (x : A) :
  l1 ++ l2 = pre ++ [x] ->
  (l2 = [] /\ l1 = pre ++ [x])
  \/ exists pre2, l2 = pre2 ++ [x] /\ pre = l1 ++ pre2.
Proof.
  intros H. destruct l2 as [| y l2].
  - left. rewrite app_nil_r in H. now split.
  - right. destruct (exists_last (l := y :: l2)) as (pre2 & z & E);
      [discriminate |].
    rewrite E, app_assoc in H. apply app_inj_tail in H as [H1 H2].
    subst. now exists pre2.
Qed.

Lemma singleton_last {A} (a x : A) (pre : list A) :
  [a] = pre ++ [x] -> pre = [] /\ a = x.
Proof.
  destruct pre as [| y pre]; simpl; intros H; inversion H; subst.
  - now split.
  - destruct pre; discriminate.
Qed.

Lemma not_own_extension {A} (t pre : list A) (x : A) : t <> t ++ pre ++ [x].
Proof.
  intros H. apply (f_equal (@List.length _)) in H.
  rewrite !length_app in H. simpl in H. lia.
Qed.

Section Failing.

Variable hub : GitHub.

Ltac own_extension :=
  match goal with
  | Hx : ?a = ?a ++ _ ++ [_] |- _ => now destruct (not_own_extension _ _ _ Hx)
  end.

Lemma names_ret {A} (a : A) : names_failure (@ret HubTrace A a).
Proof.
  intros t t' o H pre ev r txt Ht Hr Hok Htxt. inversion H; subst.
  own_extension.
Qed.

Lemma names_lift {A B} (r : Result A) (k : A -> M HubTrace B) :
  (forall a, names_failure (k a)) -> names_failure (bind (lift_result r) k).
Proof.
  intros Hk. destruct r as [a | e].
  - intros t t' o H. exact (Hk a t t' o H).
  - intros t t' o H pre ev r txt Ht Hr Hok Htxt. inversion H; subst.
    own_extension.
Qed.

Lemma names_bind {A B} p1 p2 (m : M HubTrace A) (k : A -> M HubTrace B) :
  follows_plan p1 m -> names_failure m ->
  (forall a, follows_plan p2 (k a)) -> (forall a, names_failure (k a)) ->
  names_failure (bind m k).
Proof.
  intros Fm Nm Fk Nk t t' o H pre ev r txt Ht Hr Hok Htxt.
  apply bind_inv in H.
  destruct H as [(t1 & a & H1 & H2) | [(e & H1 & ->) | [H1 ->]]].
  - destruct (Fm _ _ _ H1) as (_ & m1 & -> & _ & _ & Hret).
    destruct (Hret a eq_refl) as [_ Hall].
    destruct (Fk a _ _ _ H2) as (_ & m2 & -> & _).
    rewrite <- app_assoc in Ht. apply app_inv_head in Ht.
    apply last_of_app in Ht as [[-> ->] | (pre2 & -> & ->)].
    + apply Forall_app in Hall as [_ Hev]. inversion Hev as [| ? ? Hx]; subst.
      destruct Hx as (r' & Hr' & Hok'). congruence.
    + apply (Nk a _ _ _ H2 pre2 ev r txt); try assumption.
      now rewrite <- app_assoc.
  - pose proof (Nm _ _ _ H1 pre ev r txt Ht Hr Hok Htxt) as He.
    inversion He. reflexivity.
  - pose proof (Nm _ _ _ H1 pre ev r txt Ht Hr Hok Htxt) as He.
    discriminate.
Qed.

Lemma names_post {B} p e hdrs b (k : Response -> M HubTrace B) :
  (forall res, follows_plan p (k res)) -> (forall res, names_failure (k res)) ->
  names_failure
    (res <- post hub e hdrs b ;;
     check_ok res (failure_label (stage_for e b)) ;;; k res).
Proof.
  intros Fk Nk t t' o H pre ev r txt Ht Hr Hok Htxt.
  unfold bind at 1 in H. unfold post, fetch in H.
  set (rq := {| endpoint := e; method := "POST";
                headers := hdrs ++ [("Content-Type", "application/json")];
                body := b |}) in *.
  destruct (hub t rq) as [res | err] eqn:Hhub.
  - unfold bind, check_ok in H. destruct (ok res) eqn:Hres; simpl in H.
    + destruct (Fk res _ _ _ H) as (_ & m2 & -> & _).
      rewrite <- app_assoc in Ht. apply app_inv_head in Ht.
      apply last_of_app in Ht as [[-> Hone] | (pre2 & -> & ->)].
      * apply singleton_last in Hone as [_ <-].
        simpl in Hr. inversion Hr; subst. congruence.
      * apply (Nk res _ _ _ H pre2 ev r txt); try assumption.
        now rewrite <- app_assoc.
    + assert (t' = t ++ [mkHubEvent rq (Ok res)]
              /\ o = match text res with
                     | Ok s => Throw (Error (failure_label (stage_for e b) ++ s))
                     | Thrown e' => Throw e'
                     end) as [-> ->].
      { unfold lift_result, ret, throw in H. destruct (text res); now inversion H. }
      apply app_inv_head in Ht. apply singleton_last in Ht as [_ <-].
      simpl in Hr. inversion Hr; subst r. now rewrite Htxt.
  - injection H as Et Eo. rewrite <- Et in Ht. apply app_inv_head in Ht.
    apply singleton_last in Ht as [_ <-]. discriminate.
Qed.

Lemma create_blobs_names hdrs owner repoName files :
  forall blobs,
    names_failure (create_blobs hub hdrs owner repoName files blobs).
Proof.
  induction files as [| f files IH]; intros blobs.
  - apply names_ret.
  - cbn [create_blobs].
    apply (names_post (blob_stages files) (GitBlobs owner repoName) hdrs
             (blob_payload f)).
    + intros res. apply follows_lift. intros blobJson.
      apply follows_lift. intros sha. apply create_blobs_follows.
    + intros res. apply names_lift. intros blobJson.
      apply names_lift. intros sha. apply IH.
Qed.

Lemma publisher_names_failure githubToken ownerOrOrg repoName files :
  names_failure
    (createGitHubRepoAndPush hub githubToken ownerOrOrg repoName files).
Proof.
  unfold createGitHubRepoAndPush.
  apply (names_post (blob_stages files ++ [TreeStage; CommitStage; RefStage])
           UserRepos).
  { intros createRes.
    apply follows_lift. intros repoJson.
    apply follows_lift. intros repoOwner.
    apply follows_lift. intros ownerLogin.
    apply follows_bind; [apply create_blobs_follows |]. intros blobs.
    apply (follows_post hub [CommitStage; RefStage] (GitTrees _ _)). intros treeRes.
    apply follows_lift. intros treeJson.
    apply follows_lift. intros treeSha.
    apply (follows_post hub [RefStage] (GitCommits _ _)). intros commitRes.
    apply follows_lift. intros commitJson.
    apply follows_lift. intros commitSha.
    apply (follows_post hub [] (GitRefs _ _)). intros refRes.
    apply follows_lift. intros html_url. apply follows_ret. }
  intros createRes.
  apply names_lift. intros repoJson.
  apply names_lift. intros repoOwner.
  apply names_lift. intros ownerLogin.
  apply (names_bind (blob_stages files) [TreeStage; CommitStage; RefStage]);
    [apply create_blobs_follows | apply create_blobs_names | |].
  { intros blobs.
    apply (follows_post hub [CommitStage; RefStage] (GitTrees _ _)). intros treeRes.
    apply follows_lift. intros treeJson.
    apply follows_lift. intros treeSha.
    apply (follows_post hub [RefStage] (GitCommits _ _)). intros commitRes.
    apply follows_lift. intros commitJson.
    apply follows_lift. intros commitSha.
    apply (follows_post hub [] (GitRefs _ _)). intros refRes.
    apply follows_lift. intros html_url. apply follows_ret. }
  intros blobs.
  apply (names_post [CommitStage; RefStage] (GitTrees _ _)).
  { intros treeRes.
    apply follows_lift. intros treeJson.
    apply follows_lift. intros treeSha.
    apply (follows_post hub [RefStage] (GitCommits _ _)). intros commitRes.
    apply follows_lift. intros commitJson.
    apply follows_lift. intros commitSha.
    apply (follows_post hub [] (GitRefs _ _)). intros refRes.
    apply follows_lift. intros html_url. apply follows_ret. }
  intros treeRes.
  apply names_lift. intros treeJson.
  apply names_lift. intros treeSha.
  apply (names_post [RefStage] (GitCommits _ _)).
  { intros commitRes.
    apply follows_lift. intros commitJson.
    apply follows_lift. intros commitSha.
    apply (follows_post hub [] (GitRefs _ _)). intros refRes.
    apply follows_lift. intros html_url. apply follows_ret. }
  intros commitRes.
  apply names_lift. intros commitJson.
  apply names_lift. intros commitSha.
  apply (names_post [] (GitRefs _ _)).
  { intros refRes. apply follows_lift. intros html_url. apply follows_ret. }
  intros refRes. apply names_lift. intros html_url. apply names_ret.
Qed.

End Failing.

(** X5. The publisher stops at the first call that fails: in every run,
    a call that did not return with [ok] (at any stage) is the last call
    of the run, every call before it returned with [ok], and the run
    throws.  In particular, when the creation of the repository fails,
    that request is the only one the publisher makes. *)
Theorem publisher_stops_at_failure hub githubToken ownerOrOrg repoName files
    t t' o made ev :
  createGitHubRepoAndPush hub githubToken ownerOrOrg repoName files t = (t', o) ->
  t' = t ++ made ->
  In ev made ->
  ~ returned_ok ev ->
  (exists pre, made = pre ++ [ev] /\ Forall returned_ok pre)
  /\ (exists e, o = Throw e)
  /\ (stage_of ev = RepoStage -> made = [ev]).
Proof.
  intros Hrun Ht Hin Hfail.
  destruct (publisher_follows_plan hub _ _ _ _ _ _ _ Hrun)
    as (Hne & made' & Ht' & Hlast & [rest Hplan] & Hret).
  assert (made' = made) as -> by (apply (app_inv_head t); congruence).
  assert (exists pre, made = pre ++ [ev] /\ Forall returned_ok pre)
    as (pre & -> & Hpre).
  { apply in_split in Hin as (pre & post & ->).
    destruct post as [| x post].
    - exists pre. split; [reflexivity |].
      now rewrite removelast_last in Hlast.
    - exfalso. apply Hfail.
      rewrite removelast_app in Hlast by discriminate.
      apply Forall_app in Hlast as [_ Hl]. simpl in Hl.
      destruct post; now inversion Hl. }
  split; [now exists pre |]. split.
  - destruct o as [a | e |]; [| now exists e | now destruct Hne].
    destruct (Hret a eq_refl) as [_ Hall].
    apply Forall_app in Hall as [_ Hev]. inversion Hev; subst.
    now destruct Hfail.
  - intros Hstage. destruct pre as [| x pre]; [reflexivity |]. exfalso.
    rewrite map_app in Hplan. simpl in Hplan. unfold stage_plan in Hplan.
    inversion Hplan as [[Hx Htail]].
    assert (In RepoStage
              (blob_stages files ++ [TreeStage; CommitStage; RefStage])) as Hbad.
    { rewrite <- Htail, <- app_assoc. apply in_or_app. right.
      rewrite Hstage. now left. }
    apply in_app_or in Hbad as [Hbad | [Hbad | [Hbad | [Hbad | []]]]];
      try discriminate.
    apply blob_stages_only in Hbad as [b Hb]. discriminate.
Qed.

Lemma publisher_stops_at_failure_witness :
  (exists pre,
      fst (createGitHubRepoAndPush Sample.crowded "tok" JNull "demo"
             Demo.two_files [])
      = pre ++ [mkHubEvent (repo_request "tok" "demo") (Ok Sample.name_taken)]
      /\ Forall returned_ok pre)
  /\ (exists e,
         snd (createGitHubRepoAndPush Sample.crowded "tok" JNull "demo"
                Demo.two_files []) = Throw e)
  /\ (stage_of (mkHubEvent (repo_request "tok" "demo") (Ok Sample.name_taken))
      = RepoStage ->
      fst (createGitHubRepoAndPush Sample.crowded "tok" JNull "demo"
             Demo.two_files [])
      = [mkHubEvent (repo_request "tok" "demo") (Ok Sample.name_taken)]).
Proof.
  apply (publisher_stops_at_failure Sample.crowded "tok" JNull "demo"
           Demo.two_files []
           (fst (createGitHubRepoAndPush Sample.crowded "tok" JNull "demo"
                   Demo.two_files []))
           (snd (createGitHubRepoAndPush Sample.crowded "tok" JNull "demo"
                   Demo.two_files []))).
  - apply surjective_pairing.
  - reflexivity.
  - left. reflexivity.
  - intros (r & Hr & Hok). inversion Hr; subst. discriminate.
Defined.

(** X6. Each stage names its failure: when a call of the publisher gets
    a response that is not [ok], the publisher throws [Error] with the
    message "Failed to create repo: ", "... blob: ", "... tree: ",
    "... commit: " or "... ref: ", according to the stage of the call,
    followed by the text of the response. *)
Theorem publisher_names_stage hub githubToken ownerOrOrg repoName files
    t t' o made ev r txt :
  createGitHubRepoAndPush hub githubToken ownerOrOrg repoName files t = (t', o) ->
  t' = t ++ made ->
  In ev made ->
  response ev = Ok r -> ok r = false -> text r = Ok txt ->
  o = Throw (Error (failure_label (stage_of ev) ++ txt)).
Proof.
  intros Hrun Ht Hin Hr Hok Htxt.
  destruct (publisher_follows_plan hub _ _ _ _ _ _ _ Hrun)
    as (_ & made' & Ht' & Hlast & _).
  assert (made' = made) as -> by (apply (app_inv_head t); congruence).
  apply in_split in Hin as (pre & post & ->).
  destruct post as [| x post].
  - apply (publisher_names_failure hub _ _ _ _ _ _ _ Hrun pre ev r txt);
      assumption.
  - exfalso. rewrite removelast_app in Hlast by discriminate.
    apply Forall_app in Hlast as [_ Hl]. simpl in Hl.
    assert (returned_ok ev) as (r' & Hr' & Hok')
        by (destruct post; now inversion Hl).
    congruence.
Qed.

Lemma publisher_names_stage_witness :
  snd (createGitHubRepoAndPush Demo.stingy "tok" JNull "demo" Demo.two_files [])
  = Throw (Error "Failed to create blob: Validation Failed")
  /\ snd (createGitHubRepoAndPush Sample.crowded "tok" JNull "demo"
            Demo.two_files [])
     = Throw (Error "Failed to create repo: name already exists on this account").
Proof.
  split.
  - apply (publisher_names_stage Demo.stingy "tok" JNull "demo" Demo.two_files []
             (fst (createGitHubRepoAndPush Demo.stingy "tok" JNull "demo"
                     Demo.two_files []))
             _ (fst (createGitHubRepoAndPush Demo.stingy "tok" JNull "demo"
                       Demo.two_files []))
             (mkHubEvent
                (mkRequest (GitBlobs "octocat" "demo") "POST"
                   (auth_headers "tok" ++ [("Content-Type", "application/json")])
                   (blob_payload (mkCollected "proj/logo.png" Demo.png_bytes)))
                (Ok Demo.refusal))
             Demo.refusal "Validation Failed").
    + apply surjective_pairing.
    + reflexivity.
    + vm_compute. right. right. left. reflexivity.
    + reflexivity.
    + reflexivity.
    + reflexivity.
  - apply (publisher_names_stage Sample.crowded "tok" JNull "demo"
             Demo.two_files []
             (fst (createGitHubRepoAndPush Sample.crowded "tok" JNull "demo"
                     Demo.two_files []))
             _ (fst (createGitHubRepoAndPush Sample.crowded "tok" JNull "demo"
                       Demo.two_files []))
             (mkHubEvent (repo_request "tok" "demo") (Ok Sample.name_taken))
             Sample.name_taken "name already exists on this account").
    + apply surjective_pairing.
    + reflexivity.
    + left. reflexivity.
    + reflexivity.
    + reflexivity.
    + reflexivity.
Defined.

(* ===================================================================== *)
(** * More on the publisher: the object graph                             *)
(* ===================================================================== *)

Section Wiring.

Variable hub : GitHub.

Lemma create_blobs_wired hdrs owner repoName files :
  forall blobs0 t t1 blobs,
    create_blobs hub hdrs owner repoName files blobs0 t = (t1, Ret blobs) ->
    exists evs new,
      t1 = t ++ evs
      /\ blobs = blobs0 ++ new
      /\ Forall2 (fun f ev =>
                    request ev
                    = mkRequest (GitBlobs owner repoName) "POST"
                        (hdrs ++ [("Content-Type", "application/json")])
                        (blob_payload f)) files evs
      /\ Forall2 (fun ev b => response_sha ev = Ok (blob_sha b)) evs new
      /\ map blob_path new = map path files.
Proof.
  induction files as [| f files IH]; intros blobs0 t t1 blobs H.
  - inversion H; subst. exists [], []. rewrite !app_nil_r.
    repeat split; constructor.
  - cbn [create_blobs] in H.
    apply bind_inv in H.
    destruct H as [(s1 & res & H1 & H) | [(e & _ & He) | [_ He]]];
      try discriminate.
    apply post_ret in H1 as [_ ->].
    apply bind_inv in H.
    destruct H as [(s2 & [] & H2 & H) | [(e & _ & He) | [_ He]]];
      try discriminate.
    apply check_ok_ret in H2 as [_ ->].
    apply bind_inv in H.
    destruct H as [(s3 & blobJson & H3 & H) | [(e & _ & He) | [_ He]]];
      try discriminate.
    apply lift_ret in H3 as [Hjson ->].
    apply bind_inv in H.
    destruct H as [(s4 & sha & H4 & H) | [(e & _ & He) | [_ He]]];
      try discriminate.
    apply lift_ret in H4 as [Hsha ->].
    apply IH in H as (evs & new & -> & -> & Hreq & Hres & Hpaths).
    eexists (_ :: evs), ({| blob_path := path f; blob_sha := sha |} :: new).
    rewrite <- !app_assoc. cbn [app].
    split; [reflexivity |]. split; [reflexivity |].
    split; [constructor; [reflexivity | assumption] |].
    split; [| simpl; now rewrite Hpaths].
    constructor; [| assumption].
    unfold response_sha. simpl. now rewrite Hjson.
Qed.

(** What a publication that returns consists of. *)
Lemma publish_success_inv githubToken ownerOrOrg repoName files t t' result :
  createGitHubRepoAndPush hub githubToken ownerOrOrg repoName files t
  = (t', Ret result) ->
  exists repoEv blobEvs treeEv commitEv refEv blobs treeSha commitSha login,
    t' = t ++ repoEv :: blobEvs ++ [treeEv; commitEv; refEv]
    /\ request repoEv = repo_request githubToken repoName
    /\ created_owner repoEv = Ok login
    /\ Forall2 (fun f ev =>
                  request ev
                  = mkRequest (GitBlobs (js_string_of login) repoName) "POST"
                      (auth_headers githubToken
                       ++ [("Content-Type", "application/json")])
                      (blob_payload f)) files blobEvs
    /\ Forall2 (fun ev b => response_sha ev = Ok (blob_sha b)) blobEvs blobs
    /\ map blob_path blobs = map path files
    /\ request treeEv
       = mkRequest (GitTrees (js_string_of login) repoName) "POST"
           (auth_headers githubToken ++ [("Content-Type", "application/json")])
           (JObj [("tree", JArr (map tree_item blobs))])
    /\ response_sha treeEv = Ok treeSha
    /\ request commitEv
       = mkRequest (GitCommits (js_string_of login) repoName) "POST"
           (auth_headers githubToken ++ [("Content-Type", "application/json")])
           (JObj [("message", JStr commit_message); ("tree", treeSha)])
    /\ response_sha commitEv = Ok commitSha
    /\ request refEv
       = mkRequest (GitRefs (js_string_of login) repoName) "POST"
           (auth_headers githubToken ++ [("Content-Type", "application/json")])
           (JObj [("ref", JStr "refs/heads/main"); ("sha", commitSha)])
    /\ exists createRes repoJson url,
         response repoEv = Ok createRes
         /\ json createRes = Ok repoJson
         /\ get_prop repoJson "html_url" = Ok url
         /\ result = JObj [("html_url", url)].
Proof.
  intros H. unfold createGitHubRepoAndPush in H.
  returned H createRes H1. apply post_ret in H1 as [Hrepo ->].
  returned H u1 H2. apply check_ok_ret in H2 as [_ ->].
  returned H repoJson H3. apply lift_ret in H3 as [Hjson ->].
  returned H repoOwner H4. apply lift_ret in H4 as [Howner ->].
  returned H ownerLogin H5. apply lift_ret in H5 as [Hlogin ->].
  returned H blobs H6.
  apply create_blobs_wired in H6 as (evs & new & -> & Hnew & Hreq & Hres & Hpaths).
  simpl in Hnew. subst new.
  returned H treeRes H7. apply post_ret in H7 as [_ ->].
  returned H u2 H8. apply check_ok_ret in H8 as [_ ->].
  returned H treeJson H9. apply lift_ret in H9 as [Htj ->].
  returned H treeSha H10. apply lift_ret in H10 as [Hts ->].
  returned H commitRes H11. apply post_ret in H11 as [_ ->].
  returned H u3 H12. apply check_ok_ret in H12 as [_ ->].
  returned H commitJson H13. apply lift_ret in H13 as [Hcj ->].
  returned H commitSha H14. apply lift_ret in H14 as [Hcs ->].
  returned H refRes H15. apply post_ret in H15 as [_ ->].
  returned H u4 H16. apply check_ok_ret in H16 as [_ ->].
  returned H html_url H17. apply lift_ret in H17 as [Hurl ->].
  inversion H; subst. clear H.
  rewrite <- !app_assoc. cbn [app].
  eexists _, evs, _, _, _, blobs, treeSha, commitSha, ownerLogin.
  split; [reflexivity |]. split; [reflexivity |].
  split; [unfold created_owner; simpl; now rewrite Hjson, Howner |].
  split; [exact Hreq |]. split; [exact Hres |]. split; [exact Hpaths |].
  split; [reflexivity |].
  split; [unfold response_sha; simpl; now rewrite Htj |].
  split; [reflexivity |].
  split; [unfold response_sha; simpl; now rewrite Hcj |].
  split; [reflexivity |].
  exists createRes, repoJson, html_url. now repeat split.
Qed.

Lemma sends_ret {A} P (a : A) : sends P (@ret HubTrace A a).
Proof.
  intros t t' o H. inversion H; subst. exists []. now rewrite app_nil_r.
Qed.

Lemma sends_lift {A B} P (r : Result A) (k : A -> M HubTrace B) :
  (forall a, r = Ok a -> sends P (k a)) -> sends P (bind (lift_result r) k).
Proof.
  intros Hk. destruct r as [a | e].
  - intros t t' o H. exact (Hk a eq_refl t t' o H).
  - intros t t' o H. inversion H; subst. exists []. now rewrite app_nil_r.
Qed.

Lemma sends_bind {A B} P (m : M HubTrace A) (k : A -> M HubTrace B) :
  sends P m -> (forall a, sends P (k a)) -> sends P (bind m k).
Proof.
  intros Hm Hk t t' o H. apply bind_inv in H.
  destruct H as [(t1 & a & H1 & H2) | [(e & H1 & _) | [H1 _]]].
  - destruct (Hm _ _ _ H1) as (m1 & -> & F1).
    destruct (Hk a _ _ _ H2) as (m2 & -> & F2).
    exists (m1 ++ m2). rewrite app_assoc. split; [reflexivity |].
    apply Forall_app. now split.
  - exact (Hm _ _ _ H1).
  - exact (Hm _ _ _ H1).
Qed.

Lemma sends_check {B} P res what (k : unit -> M HubTrace B) :
  sends P (k tt) -> sends P (bind (check_ok res what) k).
Proof.
  intros Hk t t' o H. unfold bind, check_ok in H.
  destruct (ok res); simpl in H; [exact (Hk _ _ _ H) |].
  exists []. rewrite app_nil_r. split; [| constructor].
  unfold lift_result, ret, throw in H. destruct (text res); now inversion H.
Qed.

Lemma sends_post {B} (P : HubEvent -> Prop) e hdrs b
    (k : Response -> M HubTrace B) :
  (forall resp,
      P (mkHubEvent
           (mkRequest e "POST" (hdrs ++ [("Content-Type", "application/json")]) b)
           resp)) ->
  (forall res, sends P (k res)) ->
  sends P (bind (post hub e hdrs b) k).
Proof.
  intros Hp Hk. apply sends_bind; [| exact Hk].
  intros t t' o H. unfold post, fetch in H. inversion H; subst.
  eexists. split; [reflexivity |]. constructor; [apply Hp | constructor].
Qed.

Lemma create_blobs_sends P hdrs owner repoName files :
  (forall b resp,
      P (mkHubEvent
           (mkRequest (GitBlobs owner repoName) "POST"
              (hdrs ++ [("Content-Type", "application/json")]) b) resp)) ->
  forall blobs, sends P (create_blobs hub hdrs owner repoName files blobs).
Proof.
  intros Hp. induction files as [| f files IH]; intros blobs.
  - apply sends_ret.
  - cbn [create_blobs]. apply sends_post; [intros resp; apply Hp |].
    intros res. apply sends_check.
    apply sends_lift. intros blobJson _. apply sends_lift. intros sha _.
    apply IH.
Qed.

End Wiring.

(* ===================================================================== *)
(** * The result of a publication, and the tree it created               *)
(* ===================================================================== *)

(** C5 (amended). On success the publisher returns an object with one
    property, [html_url], whose value is the [html_url] of the response to
    the repository-creation request, the first request of the run; the
    object has no [filesPublished] property.  The calls of the run are the
    repository creation, one blob upload per file, then the creation of
    the tree, of the commit and of the reference, all of which returned
    with [ok]; the tree call is the only call of its stage, a POST to the
    trees of the created repository, and its body lists one entry per file
    of the input collection, in order, at the path of the file. *)
Theorem publish_result hub githubToken ownerOrOrg repoName files t t' result :
  createGitHubRepoAndPush hub githubToken ownerOrOrg repoName files t
  = (t', Ret result) ->
  exists repoEv blobEvs treeEv commitEv refEv createRes repoJson html_url
         login blobs,
    t' = t ++ repoEv :: blobEvs ++ [treeEv; commitEv; refEv]
    /\ map stage_of (repoEv :: blobEvs ++ [treeEv; commitEv; refEv])
       = stage_plan files
    /\ Forall returned_ok (repoEv :: blobEvs ++ [treeEv; commitEv; refEv])
    /\ request repoEv = repo_request githubToken repoName
    /\ response repoEv = Ok createRes
    /\ json createRes = Ok repoJson
    /\ get_prop repoJson "html_url" = Ok html_url
    /\ result = JObj [("html_url", html_url)]
    /\ get_prop result "filesPublished" = Ok JUndefined
    /\ created_owner repoEv = Ok login
    /\ request treeEv
       = mkRequest (GitTrees (js_string_of login) repoName) "POST"
           (auth_headers githubToken ++ [("Content-Type", "application/json")])
           (JObj [("tree", JArr (map tree_item blobs))])
    /\ (forall ev,
          In ev (repoEv :: blobEvs ++ [treeEv; commitEv; refEv]) ->
          stage_of ev = TreeStage -> ev = treeEv)
    /\ map blob_path blobs = map path files
    /\ List.length blobs = List.length files.
Proof.
  intros H.
  destruct (publish_success_inv hub _ _ _ _ _ _ _ H)
    as (repoEv & blobEvs & treeEv & commitEv & refEv & blobs & treeSha
        & commitSha & login & Ht & Hrepo & Hlogin & Hreq & _ & Hpaths & Htree
        & _ & Hcommit & _ & Href & createRes & repoJson & html_url & Hres
        & Hjson & Hurl & ->).
  destruct (publisher_follows_plan hub _ _ _ _ _ _ _ H)
    as (_ & made & Ht' & _ & _ & Hret).
  destruct (Hret _ eq_refl) as [Hplan Hok].
  assert (made = repoEv :: blobEvs ++ [treeEv; commitEv; refEv]) as ->
      by (apply (app_inv_head t); congruence).
  exists repoEv, blobEvs, treeEv, commitEv, refEv, createRes, repoJson,
         html_url, login, blobs.
  repeat (split; [assumption || reflexivity |]).
  split; [| split; [exact Hpaths |]].
  - intros ev Hin Hstage. destruct Hin as [<- | Hin].
    + unfold stage_of in Hstage. rewrite Hrepo in Hstage. discriminate.
    + apply in_app_or in Hin as [Hin | [<- | [<- | [<- | []]]]].
      * exfalso. clear - Hreq Hin Hstage.
        induction Hreq as [| f ev' fs evs Hev _ IH]; [contradiction |].
        destruct Hin as [<- | Hin]; [| now apply IH].
        unfold stage_of in Hstage. rewrite Hev in Hstage. discriminate.
      * reflexivity.
      * unfold stage_of in Hstage. rewrite Hcommit in Hstage. discriminate.
      * unfold stage_of in Hstage. rewrite Href in Hstage. discriminate.
  - apply (f_equal (@List.length _)) in Hpaths.
    now rewrite !length_map in Hpaths.
Qed.

Lemma publish_result_witness :
  exists repoEv blobEvs treeEv commitEv refEv createRes repoJson html_url
         login blobs,
    fst (createGitHubRepoAndPush Demo.hub "tok" JNull "demo" Demo.two_files [])
    = [] ++ repoEv :: blobEvs ++ [treeEv; commitEv; refEv]
    /\ map stage_of (repoEv :: blobEvs ++ [treeEv; commitEv; refEv])
       = stage_plan Demo.two_files
    /\ Forall returned_ok (repoEv :: blobEvs ++ [treeEv; commitEv; refEv])
    /\ request repoEv = repo_request "tok" "demo"
    /\ response repoEv = Ok createRes
    /\ json createRes = Ok repoJson
    /\ get_prop repoJson "html_url" = Ok html_url
    /\ JObj [("html_url", JStr "https://github.com/octocat/demo")]
       = JObj [("html_url", html_url)]
    /\ get_prop (JObj [("html_url", JStr "https://github.com/octocat/demo")])
         "filesPublished" = Ok JUndefined
    /\ created_owner repoEv = Ok login
    /\ request treeEv
       = mkRequest (GitTrees (js_string_of login) "demo") "POST"
           (auth_headers "tok" ++ [("Content-Type", "application/json")])
           (JObj [("tree", JArr (map tree_item blobs))])
    /\ (forall ev,
          In ev (repoEv :: blobEvs ++ [treeEv; commitEv; refEv]) ->
          stage_of ev = TreeStage -> ev = treeEv)
    /\ map blob_path blobs = map path Demo.two_files
    /\ List.length blobs = List.length Demo.two_files.
Proof.
  apply (publish_result Demo.hub "tok" JNull "demo" Demo.two_files []).
  vm_compute. reflexivity.
Defined.

(** C5 as stated fails: the object returned for a publication of two
    files has the repository URL and nothing else. *)
Lemma publish_result_lacks_count :
  exists t',
    createGitHubRepoAndPush Demo.hub "tok" JNull "demo" Demo.two_files []
    = (t', Ret (JObj [("html_url", JStr "https://github.com/octocat/demo")]))
    /\ List.length Demo.two_files = 2
    /\ get_prop (JObj [("html_url", JStr "https://github.com/octocat/demo")])
         "filesPublished" = Ok JUndefined
    /\ get_prop (JObj [("html_url", JStr "https://github.com/octocat/demo")])
         "filesPublished" <> Ok (JNum "2").
Proof.
  eexists. split; [vm_compute; reflexivity |].
  repeat split. discriminate.
Qed.

(** X7. A publication that returns has built a connected object graph:
    after the repository call it uploaded the files in order, one blob
    each; the tree request lists, for every file in order, the path of the
    file with mode "100644", type "blob" and the [sha] the upload of that
    file returned; the commit request names the [sha] the tree call
    returned; and the reference request points [refs/heads/main] at the
    [sha] the commit call returned. *)
Theorem publication_is_wired hub githubToken ownerOrOrg repoName files t t'
    result :
  createGitHubRepoAndPush hub githubToken ownerOrOrg repoName files t
  = (t', Ret result) ->
  exists repoEv blobEvs treeEv commitEv refEv shas treeSha commitSha,
    t' = t ++ repoEv :: blobEvs ++ [treeEv; commitEv; refEv]
    /\ map (fun ev => body (request ev)) blobEvs = map blob_payload files
    /\ map response_sha blobEvs = map Ok shas
    /\ body (request treeEv)
       = JObj [("tree",
                JArr (map (fun fs =>
                             JObj [("path", JStr (path (fst fs)));
                                   ("mode", JStr "100644");
                                   ("type", JStr "blob");
                                   ("sha", snd fs)])
                        (combine files shas)))]
    /\ List.length shas = List.length files
    /\ response_sha treeEv = Ok treeSha
    /\ body (request commitEv)
       = JObj [("message", JStr commit_message); ("tree", treeSha)]
    /\ response_sha commitEv = Ok commitSha
    /\ body (request refEv)
       = JObj [("ref", JStr "refs/heads/main"); ("sha", commitSha)].
Proof.
  intros H.
  destruct (publish_success_inv hub _ _ _ _ _ _ _ H)
    as (repoEv & blobEvs & treeEv & commitEv & refEv & blobs & treeSha
        & commitSha & login & Ht & _ & _ & Hreq & Hres & Hpaths & Htree
        & Hts & Hcommit & Hcs & Href & _).
  exists repoEv, blobEvs, treeEv, commitEv, refEv, (map blob_sha blobs),
         treeSha, commitSha.
  split; [exact Ht |].
  split.
  { clear - Hreq. induction Hreq as [| f ev fs evs Hev _ IH]; [reflexivity |].
    simpl. now rewrite Hev, IH. }
  split.
  { clear - Hres. induction Hres as [| ev b evs bs Hev _ IH]; [reflexivity |].
    simpl. now rewrite Hev, IH. }
  split.
  { rewrite Htree. simpl.
    assert (map tree_item blobs
            = map (fun fs : CollectedFile * Json =>
                     JObj [("path", JStr (path (fst fs)));
                           ("mode", JStr "100644");
                           ("type", JStr "blob");
                           ("sha", snd fs)])
                (combine files (map blob_sha blobs))) as ->; [| reflexivity].
    clear - Hpaths.
    revert files Hpaths. induction blobs as [| b blobs IH];
      intros [| f files] Hp; try discriminate; [reflexivity |].
    simpl in *. inversion Hp as [[Hb Hrest]].
    unfold tree_item at 1. rewrite Hb. f_equal. now apply IH. }
  split.
  { rewrite length_map. apply (f_equal (@List.length _)) in Hpaths.
    now rewrite !length_map in Hpaths. }
  split; [exact Hts |].
  split; [now rewrite Hcommit |].
  split; [exact Hcs |]. now rewrite Href.
Qed.

Lemma publication_is_wired_witness :
  exists repoEv blobEvs treeEv commitEv refEv shas treeSha commitSha,
    fst (createGitHubRepoAndPush Demo.hub "tok" JNull "demo" Demo.two_files [])
    = [] ++ repoEv :: blobEvs ++ [treeEv; commitEv; refEv]
    /\ map (fun ev => body (request ev)) blobEvs = map blob_payload Demo.two_files
    /\ map response_sha blobEvs = map Ok shas
    /\ body (request treeEv)
       = JObj [("tree",
                JArr (map (fun fs =>
                             JObj [("path", JStr (path (fst fs)));
                                   ("mode", JStr "100644");
                                   ("type", JStr "blob");
                                   ("sha", snd fs)])
                        (combine Demo.two_files shas)))]
    /\ List.length shas = List.length Demo.two_files
    /\ response_sha treeEv = Ok treeSha
    /\ body (request commitEv)
       = JObj [("message", JStr commit_message); ("tree", treeSha)]
    /\ response_sha commitEv = Ok commitSha
    /\ body (request refEv)
       = JObj [("ref", JStr "refs/heads/main"); ("sha", commitSha)].
Proof.
  apply (publication_is_wired Demo.hub "tok" JNull "demo" Demo.two_files []
           _ (JObj [("html_url", JStr "https://github.com/octocat/demo")])).
  reflexivity.
Defined.

(** X8. Every request of the publisher is a POST that carries the
    caller's token in its [Authorization] header; the first request is
    the creation of the repository, and every later request, in failing
    runs too, addresses the repository of the given name under the owner
    login that the creation response reported. *)
Theorem publisher_requests hub githubToken ownerOrOrg repoName files t :
  exists first rest,
    fst (createGitHubRepoAndPush hub githubToken ownerOrOrg repoName files t)
    = t ++ first :: rest
    /\ request first = repo_request githubToken repoName
    /\ Forall (fun ev =>
                 method (request ev) = "POST"
                 /\ headers (request ev)
                    = [("Authorization", ("token " ++ githubToken)%string);
                       ("User-Agent", "drive-to-github-app");
                       ("Accept", "application/vnd.github.v3+json");
                       ("Content-Type", "application/json")]
                 /\ exists login,
                      created_owner first = Ok login
                      /\ repo_target (endpoint (request ev))
                         = Some (js_string_of login, repoName)) rest.
Proof.
  destruct (createGitHubRepoAndPush hub githubToken ownerOrOrg repoName files t)
    as [t' o] eqn:H.
  unfold createGitHubRepoAndPush in H. unfold bind at 1 in H.
  unfold post at 1, fetch in H.
  match type of H with
  | context [hub t ?rq] => set (first := rq) in *; destruct (hub t first)
                             as [createRes | err] eqn:Hhub
  end.
  2:{ inversion H; subst. exists (mkHubEvent first (Thrown err)), [].
      repeat split. constructor. }
  set (ev1 := mkHubEvent first (Ok createRes)).
  set (P := fun ev : HubEvent =>
              method (request ev) = "POST"
              /\ headers (request ev)
                 = [("Authorization", ("token " ++ githubToken)%string);
                    ("User-Agent", "drive-to-github-app");
                    ("Accept", "application/vnd.github.v3+json");
                    ("Content-Type", "application/json")]
              /\ exists login,
                   created_owner ev1 = Ok login
                   /\ repo_target (endpoint (request ev))
                      = Some (js_string_of login, repoName)).
  match type of H with
  | ?m _ = _ => assert (sends P m) as Hs
  end.
  { apply sends_check.
    apply sends_lift. intros repoJson Hjson.
    apply sends_lift. intros repoOwner Howner.
    apply sends_lift. intros ownerLogin Hlogin.
    assert (created_owner ev1 = Ok ownerLogin) as Hown.
    { unfold created_owner, ev1. simpl. now rewrite Hjson, Howner. }
    apply sends_bind.
    { apply create_blobs_sends. intros b resp.
      repeat split. now exists ownerLogin. }
    intros blobs. apply sends_post.
    { intros resp. repeat split. now exists ownerLogin. }
    intros treeRes. apply sends_check.
    apply sends_lift. intros treeJson _. apply sends_lift. intros treeSha _.
    apply sends_post.
    { intros resp. repeat split. now exists ownerLogin. }
    intros commitRes. apply sends_check.
    apply sends_lift. intros commitJson _. apply sends_lift. intros commitSha _.
    apply sends_post.
    { intros resp. repeat split. now exists ownerLogin. }
    intros refRes. apply sends_check.
    apply sends_lift. intros html_url _. apply sends_ret. }
  destruct (Hs _ _ _ H) as (rest & -> & Hrest).
  exists ev1, rest. rewrite <- app_assoc. repeat split. exact Hrest.
Qed.

(** X9. With an empty list of files the publisher uploads no blob; if it
    returns, it has made four calls: it created the repository, a tree
    with no entry, a commit and the reference. *)
Theorem publish_nothing hub githubToken ownerOrOrg repoName t :
  exists made,
    fst (createGitHubRepoAndPush hub githubToken ownerOrOrg repoName [] t)
    = t ++ made
    /\ (forall ev b, In ev made -> stage_of ev <> BlobStage b)
    /\ (forall result,
           snd (createGitHubRepoAndPush hub githubToken ownerOrOrg repoName [] t)
           = Ret result ->
           exists repoEv treeEv commitEv refEv,
             made = [repoEv; treeEv; commitEv; refEv]
             /\ map stage_of made = [RepoStage; TreeStage; CommitStage; RefStage]
             /\ body (request treeEv) = JObj [("tree", JArr [])]).
Proof.
  destruct (createGitHubRepoAndPush hub githubToken ownerOrOrg repoName [] t)
    as [t' o] eqn:H.
  destruct (publisher_follows_plan hub _ _ _ _ _ _ _ H)
    as (_ & made & -> & _ & [rest Hplan] & Hret).
  exists made. split; [reflexivity |]. split.
  - intros ev b Hin Hstage.
    assert (In (BlobStage b) (stage_plan [])) as Hbad.
    { rewrite <- Hplan. apply in_or_app. left. rewrite <- Hstage.
      now apply in_map. }
    simpl in Hbad. destruct Hbad as [Hb | [Hb | [Hb | [Hb | []]]]]; discriminate.
  - simpl. intros result ->.
    destruct (publish_success_inv hub _ _ _ _ _ _ _ H)
      as (repoEv & blobEvs & treeEv & commitEv & refEv & blobs & treeSha
          & commitSha & login & Ht & _ & _ & Hreq & _ & Hpaths & Htree & _).
    inversion Hreq; subst blobEvs. apply app_inv_head in Ht. subst made.
    destruct blobs; [| discriminate].
    exists repoEv, treeEv, commitEv, refEv.
    split; [reflexivity |]. split; [exact (proj1 (Hret _ eq_refl)) |].
    now rewrite Htree.
Qed.

(* ===================================================================== *)
(** * The paths of the request handler                                    *)
(* ===================================================================== *)

Lemma call_trim_ok what v token :
  call_trim what v = Ok token -> exists s, v = JStr s /\ token = trim s.
Proof. destruct v; simpl; intros H; inversion H. now eexists. Qed.

Lemma answered_nothing w calls dt ht :
  {| res_calls := res_calls w ++ calls; console_errors := console_errors w;
     drive_trace := dt; hub_trace := ht |}
  = answered w calls [] dt ht.
Proof. unfold answered. now rewrite app_nil_r. Qed.

Lemma extracted_id_truthy v id :
  js_truthy v = true -> extractDriveId v = Ok (Some id) -> str_truthy id = true.
Proof.
  intros Hv Hx. destruct (extractDriveId_truthy _ _ Hv Hx) as (i & Hi & Ht).
  now inversion Hi.
Qed.

Lemma extraction_finds_something v :
  js_truthy v = true -> extractDriveId v <> Ok None.
Proof.
  intros Hv Hx. destruct (extractDriveId_truthy _ _ Hv Hx) as (i & Hi & _).
  discriminate.
Qed.

Section Paths.

Variable drive : Drive.
Variable hub : GitHub.
Variable fuel : nat.
Variable req : HttpRequest.
Variable w : World.

Ltac enter_handler :=
  unfold create_repo, with_fresh_response, try_catch, create_repo_try.

Ltac leave_handler :=
  unfold answered, error_answer, head_200; simpl;
  rewrite ?app_nil_r; reflexivity.

Lemma path_not_signed_in :
  js_truthy (session_googleTokens req) = false ->
  create_repo drive hub fuel req w
  = (answered w [ResStatus 400; ResSend msg_sign_in_first] []
       (drive_trace w) (hub_trace w), Ret tt).
Proof.
  intros H. enter_handler. rewrite H. cbn [negb]. leave_handler.
Qed.

Lemma path_missing_field :
  js_truthy (session_googleTokens req) = true ->
  js_truthy (body_githubToken req) && js_truthy (body_repoName req)
  && js_truthy (body_driveLinkOrId req) = false ->
  create_repo drive hub fuel req w
  = (answered w [ResStatus 400; ResSend msg_missing] []
       (drive_trace w) (hub_trace w), Ret tt).
Proof.
  intros H1 H. enter_handler. rewrite H1. cbn [negb].
  assert (negb (js_truthy (body_githubToken req))
          || negb (js_truthy (body_repoName req))
          || negb (js_truthy (body_driveLinkOrId req)) = true) as ->.
  { destruct (js_truthy (body_githubToken req)),
      (js_truthy (body_repoName req)),
      (js_truthy (body_driveLinkOrId req)); simpl in *; congruence. }
  leave_handler.
Qed.

Hypothesis signed_in : js_truthy (session_googleTokens req) = true.
Hypothesis has_token : js_truthy (body_githubToken req) = true.
Hypothesis has_name : js_truthy (body_repoName req) = true.
Hypothesis has_link : js_truthy (body_driveLinkOrId req) = true.

Ltac pass_checks :=
  enter_handler;
  rewrite signed_in, has_token, has_name, has_link; cbn [negb orb].

(** An error thrown before the head was written is answered with status
    500. *)
Lemma path_extraction_throws e :
  extractDriveId (body_driveLinkOrId req) = Thrown e ->
  create_repo drive hub fuel req w
  = (answered w (error_answer e) [e] (drive_trace w) (hub_trace w), Ret tt).
Proof.
  intros Hx. pass_checks. rewrite Hx.
  erewrite bind_throw by reflexivity.
  leave_handler.
Qed.

Variable id : string.
Hypothesis extracted : extractDriveId (body_driveLinkOrId req) = Ok (Some id).

Ltac enter_main :=
  pass_checks; rewrite extracted;
  erewrite bind_ret by reflexivity; cbv beta iota;
  rewrite (extracted_id_truthy _ _ has_link extracted); cbn [negb];
  erewrite bind_ret by reflexivity;
  erewrite bind_ret by reflexivity.

Ltac collected Hc :=
  erewrite bind_ret
    by (unfold on_drive; simpl drive_trace; rewrite Hc; reflexivity).

(** An error thrown after the head was written: the [catch] block logs
    it and sets the status, and its [res.send] throws in turn. *)
Lemma path_collection_throws dt e :
  collectDriveFiles drive fuel id (drive_trace w) = (dt, Throw e) ->
  create_repo drive hub fuel req w
  = (answered w [head_200; ResWrite msg_collecting; ResStatus 500] [e]
       dt (hub_trace w), Throw (headers_sent_error "set")).
Proof.
  intros Hc. enter_main.
  erewrite bind_throw
    by (unfold on_drive; simpl drive_trace; rewrite Hc; reflexivity).
  leave_handler.
Qed.

Lemma path_collection_unfinished dt :
  collectDriveFiles drive fuel id (drive_trace w) = (dt, OutOfFuel) ->
  create_repo drive hub fuel req w
  = (answered w [head_200; ResWrite msg_collecting] [] dt (hub_trace w),
     OutOfFuel).
Proof.
  intros Hc. enter_main.
  erewrite bind_out_of_fuel
    by (unfold on_drive; simpl drive_trace; rewrite Hc; reflexivity).
  leave_handler.
Qed.

Lemma path_no_files dt :
  collectDriveFiles drive fuel id (drive_trace w) = (dt, Ret []) ->
  create_repo drive hub fuel req w
  = (answered w [head_200; ResWrite msg_collecting; ResWrite msg_no_files; ResEnd]
       [] dt (hub_trace w), Ret tt).
Proof.
  intros Hc. enter_main. collected Hc.
  cbn [List.length Nat.eqb]. erewrite bind_ret by reflexivity.
  leave_handler.
Qed.

Variable dt : DriveTrace.
Variable f : CollectedFile.
Variable fs : list CollectedFile.
Hypothesis collection :
  collectDriveFiles drive fuel id (drive_trace w) = (dt, Ret (f :: fs)).

Ltac enter_publish :=
  enter_main; collected collection;
  cbn [List.length Nat.eqb]; erewrite bind_ret by reflexivity.

Lemma path_token_not_a_string e :
  call_trim "githubToken" (body_githubToken req) = Thrown e ->
  create_repo drive hub fuel req w
  = (answered w
       [head_200; ResWrite msg_collecting;
        ResWrite (msg_collected (S (List.length fs))); ResStatus 500]
       [e] dt (hub_trace w), Throw (headers_sent_error "set")).
Proof.
  intros Ht. enter_publish. rewrite Ht.
  erewrite bind_throw by reflexivity. leave_handler.
Qed.

Lemma path_name_not_a_string token e :
  call_trim "githubToken" (body_githubToken req) = Ok token ->
  call_trim "repoName" (body_repoName req) = Thrown e ->
  create_repo drive hub fuel req w
  = (answered w
       [head_200; ResWrite msg_collecting;
        ResWrite (msg_collected (S (List.length fs))); ResStatus 500]
       [e] dt (hub_trace w), Throw (headers_sent_error "set")).
Proof.
  intros Ht Hn. enter_publish. rewrite Ht, Hn.
  erewrite bind_ret by reflexivity.
  erewrite bind_throw by reflexivity. leave_handler.
Qed.

Variable token name : string.
Hypothesis trimmed_token :
  call_trim "githubToken" (body_githubToken req) = Ok token.
Hypothesis trimmed_name :
  call_trim "repoName" (body_repoName req) = Ok name.

Lemma path_publication_throws ht e :
  createGitHubRepoAndPush hub token JNull name (f :: fs) (hub_trace w)
  = (ht, Throw e) ->
  create_repo drive hub fuel req w
  = (answered w
       [head_200; ResWrite msg_collecting;
        ResWrite (msg_collected (S (List.length fs))); ResStatus 500]
       [e] dt ht, Throw (headers_sent_error "set")).
Proof.
  intros Hp. enter_publish. rewrite trimmed_token, trimmed_name.
  erewrite bind_ret by reflexivity.
  erewrite bind_ret by reflexivity.
  erewrite bind_throw
    by (unfold on_hub; simpl hub_trace; rewrite Hp; reflexivity).
  leave_handler.
Qed.

Lemma path_published ht url :
  createGitHubRepoAndPush hub token JNull name (f :: fs) (hub_trace w)
  = (ht, Ret (JObj [("html_url", url)])) ->
  create_repo drive hub fuel req w
  = (answered w
       [head_200; ResWrite msg_collecting;
        ResWrite (msg_collected (S (List.length fs)));
        ResWrite (msg_done (js_string_of url)); ResEnd]
       [] dt ht, Ret tt).
Proof.
  intros Hp. enter_publish. rewrite trimmed_token, trimmed_name.
  erewrite bind_ret by reflexivity.
  erewrite bind_ret by reflexivity.
  erewrite bind_ret
    by (unfold on_hub; simpl hub_trace; rewrite Hp; reflexivity).
  erewrite bind_ret by reflexivity.
  erewrite bind_ret by reflexivity.
  leave_handler.
Qed.

End Paths.

(* ===================================================================== *)
(** * What the request handler does, path by path                         *)
(* ===================================================================== *)

Lemma flatten_length :
  (forall n prefix, List.length (flatten prefix n) = leaf_count n)
  /\ (forall ps prefix, List.length (flatten_pages prefix ps) = leaf_count_pages ps)
  /\ (forall ns prefix, List.length (flatten_nodes prefix ns) = leaf_count_nodes ns).
Proof.
  apply Tree_mutind; simpl; intros; rewrite ?length_app; auto.
Qed.

(** Case analysis on a run of the handler: each branch leaves the run
    rewritten to the world it ends in. *)
Ltac publication_paths drive hub fuel req w Hs Hg Hn Hl Hx Hc Ht Hm Hp :=
  match type of Hc with
  | _ = (_, Ret ?files) =>
      match type of Ht with
      | _ = Ok ?tk =>
          match type of Hm with
          | _ = Ok ?nm =>
              destruct (createGitHubRepoAndPush hub tk JNull nm files
                          (hub_trace w)) as [?ht [?result | ?e |]] eqn:Hp;
              [ let Hi := fresh "Hi" in
                pose proof (publish_success_inv hub _ _ _ _ _ _ _ Hp) as Hi;
                destruct Hi as (?repoEv & ?blobEvs & ?treeEv & ?commitEv
                                & ?refEv & ?blobs & ?treeSha & ?commitSha
                                & ?login & ?Hmade & ?Hfirst & ?Hwired);
                let Hr := fresh "Hr" in
                pose proof Hwired as Hr;
                do 9 apply proj2 in Hr;
                destruct Hr as (?createRes & ?repoJson & ?url & ?Hres
                                & ?Hjson & ?Hurl & ?Hresult);
                subst result;
                rewrite (path_published drive hub fuel req w Hs Hg Hn Hl
                           _ Hx _ _ _ Hc _ _ Ht Hm _ _ Hp) in *
              | rewrite (path_publication_throws drive hub fuel req w Hs Hg
                           Hn Hl _ Hx _ _ _ Hc _ _ Ht Hm _ _ Hp) in *
              | now destruct (proj1 (publisher_follows_plan hub _ _ _ _ _ _ _
                                       Hp)) ]
          end
      end
  end.

Ltac handler_paths drive hub fuel req w :=
  let Hs := fresh "Hs" in
  let Hg := fresh "Hg" in
  let Hn := fresh "Hn" in
  let Hl := fresh "Hl" in
  let Hx := fresh "Hx" in
  let Hc := fresh "Hc" in
  let Ht := fresh "Ht" in
  let Hm := fresh "Hm" in
  let Hp := fresh "Hp" in
  destruct (js_truthy (session_googleTokens req)) eqn:Hs;
  [ destruct (js_truthy (body_githubToken req)) eqn:Hg;
    [ destruct (js_truthy (body_repoName req)) eqn:Hn;
      [ destruct (js_truthy (body_driveLinkOrId req)) eqn:Hl;
        [ destruct (extractDriveId (body_driveLinkOrId req))
            as [[?id |] | ?e] eqn:Hx;
          [ match type of Hx with
            | _ = Ok (Some ?i) =>
                destruct (collectDriveFiles drive fuel i (drive_trace w))
                  as [?dt [[| ?f ?fs] | ?e |]] eqn:Hc
            end;
            [ rewrite (path_no_files drive hub fuel req w Hs Hg Hn Hl _ Hx _ Hc)
                in *
            | destruct (call_trim "githubToken" (body_githubToken req))
                as [?token | ?e] eqn:Ht;
              [ destruct (call_trim "repoName" (body_repoName req))
                  as [?name | ?e] eqn:Hm;
                [ publication_paths drive hub fuel req w Hs Hg Hn Hl Hx Hc Ht Hm Hp
                | rewrite (path_name_not_a_string drive hub fuel req w Hs Hg Hn
                             Hl _ Hx _ _ _ Hc _ _ Ht Hm) in * ]
              | rewrite (path_token_not_a_string drive hub fuel req w Hs Hg Hn Hl
                           _ Hx _ _ _ Hc _ Ht) in * ]
            | rewrite (path_collection_throws drive hub fuel req w Hs Hg Hn Hl
                         _ Hx _ _ Hc) in *
            | rewrite (path_collection_unfinished drive hub fuel req w Hs Hg Hn
                         Hl _ Hx _ Hc) in * ]
          | now destruct (extraction_finds_something _ Hl Hx)
          | rewrite (path_extraction_throws drive hub fuel req w Hs Hg Hn Hl _ Hx)
              in * ]
        | rewrite (path_missing_field drive hub fuel req w Hs) in *
            by (rewrite Hg, Hn, Hl; reflexivity) ]
      | rewrite (path_missing_field drive hub fuel req w Hs) in *
          by (rewrite Hg, Hn; reflexivity) ]
    | rewrite (path_missing_field drive hub fuel req w Hs) in *
        by (rewrite Hg; reflexivity) ]
  | rewrite (path_not_signed_in drive hub fuel req w Hs) in * ].

(** X10. A request that is not signed in, or that lacks one of the three
    fields, or whose [driveLinkOrId] is not a string, makes the handler
    call neither Drive nor GitHub: it answers with status 400 in the first
    two cases, and in the third with status 500 and the [TypeError] the
    missing [match] method raises. *)
Theorem invalid_request_makes_no_call drive hub fuel req w :
  (js_truthy (session_googleTokens req) = false ->
   create_repo drive hub fuel req w
   = (answered w [ResStatus 400; ResSend msg_sign_in_first] []
        (drive_trace w) (hub_trace w), Ret tt))
  /\ (js_truthy (session_googleTokens req) = true ->
      js_truthy (body_githubToken req) && js_truthy (body_repoName req)
      && js_truthy (body_driveLinkOrId req) = false ->
      create_repo drive hub fuel req w
      = (answered w [ResStatus 400; ResSend msg_missing] []
           (drive_trace w) (hub_trace w), Ret tt))
  /\ (js_truthy (session_googleTokens req) = true ->
      js_truthy (body_githubToken req) = true ->
      js_truthy (body_repoName req) = true ->
      js_truthy (body_driveLinkOrId req) = true ->
      (forall s, body_driveLinkOrId req <> JStr s) ->
      create_repo drive hub fuel req w
      = (answered w
           [ResStatus 500;
            ResSend "Error: TypeError: linkOrId.match is not a function"]
           [TypeError_not_a_function "linkOrId.match"]
           (drive_trace w) (hub_trace w), Ret tt)).
Proof.
  split; [apply path_not_signed_in |]. split; [apply path_missing_field |].
  intros Hs Hg Hn Hl Hnot.
  apply (path_extraction_throws drive hub fuel req w Hs Hg Hn Hl
           (TypeError_not_a_function "linkOrId.match")).
  unfold extractDriveId. rewrite Hl. simpl.
  destruct (body_driveLinkOrId req); try reflexivity.
  now destruct (Hnot s).
Qed.

Lemma invalid_request_makes_no_call_witness :
  create_repo (of_snapshot Demo.snapshot) Demo.hub 2
    (request_in_session JUndefined (JStr "t") (JStr "demo") (JStr "1proj"))
    new_world
  = (answered new_world [ResStatus 400; ResSend msg_sign_in_first] [] [] [],
     Ret tt)
  /\ create_repo (of_snapshot Demo.snapshot) Demo.hub 2
       (request_in_session Sample.granted_tokens (JStr "t") (JStr "")
          (JStr "1proj")) new_world
     = (answered new_world [ResStatus 400; ResSend msg_missing] [] [] [], Ret tt)
  /\ create_repo (of_snapshot Demo.snapshot) Demo.hub 2
       (request_in_session Sample.granted_tokens (JStr "t") (JStr "demo")
          (JArr [JStr "1proj"])) new_world
     = (answered new_world
          [ResStatus 500;
           ResSend "Error: TypeError: linkOrId.match is not a function"]
          [TypeError_not_a_function "linkOrId.match"] [] [], Ret tt).
Proof.
  split; [| split].
  - apply (proj1 (invalid_request_makes_no_call (of_snapshot Demo.snapshot)
                    Demo.hub 2 _ new_world)).
    reflexivity.
  - apply (proj1 (proj2 (invalid_request_makes_no_call
                           (of_snapshot Demo.snapshot) Demo.hub 2 _ new_world)));
      reflexivity.
  - apply (proj2 (proj2 (invalid_request_makes_no_call
                           (of_snapshot Demo.snapshot) Demo.hub 2 _ new_world)));
      try reflexivity.
    intros s. discriminate.
Defined.

(** X11. The handler contacts GitHub only after the collection returned
    at least one file: whenever a run of the handler adds to the calls
    made to GitHub, the link yielded an identifier, the collector returned
    a non-empty collection for it, the token and the repository name are
    strings, and the calls added are those of the publisher run on the
    trimmed token, the trimmed name and exactly the collected files. *)
Theorem publisher_gets_the_collection drive hub fuel req w :
  hub_trace (fst (create_repo drive hub fuel req w)) <> hub_trace w ->
  exists id dt collected githubToken repoName,
    extractDriveId (body_driveLinkOrId req) = Ok (Some id)
    /\ collectDriveFiles drive fuel id (drive_trace w) = (dt, Ret collected)
    /\ collected <> []
    /\ body_githubToken req = JStr githubToken
    /\ body_repoName req = JStr repoName
    /\ drive_trace (fst (create_repo drive hub fuel req w)) = dt
    /\ hub_trace (fst (create_repo drive hub fuel req w))
       = fst (createGitHubRepoAndPush hub (trim githubToken) JNull
                (trim repoName) collected (hub_trace w)).
Proof.
  intros Hneq.
  handler_paths drive hub fuel req w;
    try (simpl in Hneq; now destruct Hneq).
  - apply call_trim_ok in Ht as (a & Ha & ->).
    apply call_trim_ok in Hm as (b & Hb & ->).
    eexists _, _, _, a, b. repeat split; try eassumption; try discriminate.
    simpl. now rewrite Hp.
  - apply call_trim_ok in Ht as (a & Ha & ->).
    apply call_trim_ok in Hm as (b & Hb & ->).
    eexists _, _, _, a, b. repeat split; try eassumption; try discriminate.
    simpl. now rewrite Hp.
Qed.

Lemma publisher_gets_the_collection_witness :
  exists id dt collected githubToken repoName,
    extractDriveId (JStr "1proj") = Ok (Some id)
    /\ collectDriveFiles (of_snapshot Demo.snapshot) 2 id [] = (dt, Ret collected)
    /\ collected <> []
    /\ JStr " ghp_token " = JStr githubToken
    /\ JStr "demo" = JStr repoName
    /\ drive_trace
         (fst (create_repo (of_snapshot Demo.snapshot) Demo.hub 2
                 (Demo.request_for "1proj") new_world)) = dt
    /\ hub_trace
         (fst (create_repo (of_snapshot Demo.snapshot) Demo.hub 2
                 (Demo.request_for "1proj") new_world))
       = fst (createGitHubRepoAndPush Demo.hub (trim githubToken) JNull
                (trim repoName) collected []).
Proof.
  apply (publisher_gets_the_collection (of_snapshot Demo.snapshot) Demo.hub 2
           (Demo.request_for "1proj") new_world).
  vm_compute. discriminate.
Defined.

(** A call of the collector that failed decides the outcome of the run. *)
Lemma collect_failed_call drive fuel driveId t made o ev e :
  collectDriveFiles drive fuel driveId t = (t ++ made, o) ->
  In ev made -> derror ev = Some e -> o = Throw e.
Proof.
  unfold collectDriveFiles. intros H Hin Hev.
  destruct (collect_body drive fuel driveId {| results := []; dtrace := t |})
    as [st o'] eqn:Hrun.
  destruct (tracked_collect drive fuel driveId _ _ _ Hrun) as (made' & E & F).
  simpl in E.
  assert (made' = made) as ->.
  { apply (app_inv_head t). rewrite <- E.
    destruct o' as [[] | e' |]; inversion H; subst; congruence. }
  assert (~ all_ok made) as Hbad.
  { intros Hok. unfold all_ok in Hok. rewrite Forall_forall in Hok.
    specialize (Hok ev Hin). congruence. }
  destruct o' as [[] | e' |]; simpl in F; try contradiction.
  destruct F as (pre & c & -> & Hpre).
  inversion H; subst. clear H.
  apply in_app_or in Hin as [Hin | [<- | []]].
  - unfold all_ok in Hpre. rewrite Forall_forall in Hpre.
    specialize (Hpre ev Hin). congruence.
  - simpl in Hev. now inversion Hev.
Qed.

Lemma no_growth {A} (t made : list A) : t = t ++ made -> made = [].
Proof.
  intros H. apply (app_inv_head t). now rewrite app_nil_r.
Qed.

(** X12. A failure of Drive after the response was opened leaves the
    request without an answer: whenever a call to Drive made while a
    request is handled fails with an error [e], the handler has written
    the 200 head and the progress line; its [catch] block logs [e] and
    calls [res.status(500)], and the [res.send] that follows throws
    [ERR_HTTP_HEADERS_SENT], since the head has gone out.  The handler is
    left by that error: the text ["Error: " + String(e)] is not sent, the
    response is not ended, and no call is made to GitHub. *)
Theorem drive_failure_after_head drive hub fuel req w made ev e :
  drive_trace (fst (create_repo drive hub fuel req w)) = drive_trace w ++ made ->
  In ev made ->
  derror ev = Some e ->
  create_repo drive hub fuel req w
  = (answered w [head_200; ResWrite msg_collecting; ResStatus 500] [e]
       (drive_trace w ++ made) (hub_trace w),
     Throw (headers_sent_error "set")).
Proof.
  intros Hd Hin Hev.
  handler_paths drive hub fuel req w; simpl in Hd;
    try (apply no_growth in Hd; subst made; now destruct Hin);
    subst;
    match goal with
    | Hc : collectDriveFiles _ _ _ _ = _ |- _ =>
        pose proof (collect_failed_call _ _ _ _ _ _ _ _ Hc Hin Hev) as Ho
    end;
    try discriminate.
  inversion Ho. reflexivity.
Qed.

Lemma drive_failure_after_head_witness :
  create_repo (of_snapshot Demo.broken) Demo.hub 5 (Demo.request_for "1proj")
    new_world
  = (answered new_world [head_200; ResWrite msg_collecting; ResStatus 500]
       [Demo.rate_limit]
       (drive_trace
          (fst (create_repo (of_snapshot Demo.broken) Demo.hub 5
                  (Demo.request_for "1proj") new_world)))
       [],
     Throw
       (mkError "Error" "Cannot set headers after they are sent to the client")).
Proof.
  apply (drive_failure_after_head (of_snapshot Demo.broken) Demo.hub 5
           (Demo.request_for "1proj") new_world
           (drive_trace
              (fst (create_repo (of_snapshot Demo.broken) Demo.hub 5
                      (Demo.request_for "1proj") new_world)))
           Demo.failed_download Demo.rate_limit).
  - reflexivity.
  - vm_compute. do 5 right. left. reflexivity.
  - reflexivity.
Defined.

(** X13. What a run of the handler comes to.  In every run, whatever
    the request and the services, exactly one of three things happens.
    The handler returns: then the last call it made on [res] is a [send]
    or an [end], no earlier call of the run is one, and an error was
    logged only if it was thrown before the head was written, in which
    case the calls are [status(500)] and the [send] of the error text.
    Or an error was thrown after the head was written: then that error is
    the one error logged, [status(500)] is the last call that returned,
    the response was never finished by a [send] or an [end], and the
    handler is left by [ERR_HTTP_HEADERS_SENT].  Or the collection did not
    finish. *)
Theorem handler_outcomes drive hub fuel req w :
  exists calls errs dt ht,
    fst (create_repo drive hub fuel req w) = answered w calls errs dt ht
    /\ ((snd (create_repo drive hub fuel req w) = Ret tt
         /\ (exists before last,
               calls = before ++ [last]
               /\ ends_response last = true
               /\ forallb (fun c => negb (ends_response c)) before = true)
         /\ (errs = [] \/ exists e, errs = [e] /\ calls = error_answer e))
        \/ (snd (create_repo drive hub fuel req w)
            = Throw (headers_sent_error "set")
            /\ (exists e before,
                  errs = [e]
                  /\ calls = head_200 :: before ++ [ResStatus 500])
            /\ forallb (fun c => negb (ends_response c)) calls = true)
        \/ (snd (create_repo drive hub fuel req w) = OutOfFuel
            /\ errs = []
            /\ forallb (fun c => negb (ends_response c)) calls = true
            /\ exists id,
                 extractDriveId (body_driveLinkOrId req) = Ok (Some id)
                 /\ snd (collectDriveFiles drive fuel id (drive_trace w))
                    = OutOfFuel)).
Proof.
  handler_paths drive hub fuel req w;
    eexists _, _, _, _; (split; [reflexivity |]);
    first
      [ left; split; [reflexivity |]; split;
        [ unfold error_answer;
          match goal with
          | |- exists b x, ?l = _ /\ _ =>
              exists (List.removelast l), (List.last l ResEnd)
          end; repeat split; reflexivity
        | first [ left; reflexivity
                | right; eexists; split; reflexivity ] ]
      | right; left; split; [reflexivity |]; split;
        [ eexists _, _; split; [reflexivity |];
          match goal with
          | |- head_200 :: ?l = _ =>
              instantiate (1 := removelast l); reflexivity
          end
        | reflexivity ]
      | right; right; split; [reflexivity |]; split; [reflexivity |];
        split; [reflexivity |];
        eexists; split; [reflexivity |];
        match goal with
        | Hc : collectDriveFiles _ _ _ _ = _ |- _ => now rewrite Hc
        end ].
Qed.

(** Each of the three outcomes occurs. *)
Example three_outcomes_occur :
  snd (create_repo (of_snapshot Demo.snapshot) Demo.hub 2
         (Demo.request_for "1proj") new_world) = Ret tt
  /\ snd (create_repo (of_snapshot Demo.broken) Demo.hub 5
            (Demo.request_for "1proj") new_world)
     = Throw (headers_sent_error "set")
  /\ snd (create_repo (of_snapshot Sample.endless) Demo.hub 5
            (Demo.request_for "1proj") new_world) = OutOfFuel.
Proof. repeat split. Qed.





(* ===================================================================== *)
(** * Configuration                                                       *)
(* ===================================================================== *)

(** X15. The two places that read [PORT] agree.  The constant [PORT]
    (line 12: the variable when it is set and not empty, else 3000) is
    what the program passes to [app.listen] and prints at start-up;
    [makeOAuthClient] reads the variable again and has a default of its
    own.  Without a [BASE_URL] (unset or empty) the two agree for every
    environment: there is one text [p], the variable when it is set and
    not empty and "3000" otherwise, such that the start-up line is
    "App listening on port p" and the redirect URI is
    [http://localhost:p/oauth2callback].  With a [BASE_URL], the URI is
    that base followed by [/oauth2callback], whatever the port.  This is
    about the configured value, not about the port the server gets bound
    to. *)
Theorem redirect_names_configured_port env :
  (opt_truthy (env_BASE_URL env) = false ->
   exists p,
     js_string_of (PORT env) = p
     /\ ((env_PORT env = Some p /\ p <> EmptyString)
         \/ (opt_truthy (env_PORT env) = false /\ p = "3000"%string))
     /\ listening_message env = ("App listening on port " ++ p)%string
     /\ redirect_uri (makeOAuthClient env)
        = ("http://localhost:" ++ p ++ "/oauth2callback")%string)
  /\ (forall base,
        env_BASE_URL env = Some base -> str_truthy base = true ->
        redirect_uri (makeOAuthClient env) = (base ++ "/oauth2callback")%string).
Proof.
  unfold listening_message, makeOAuthClient, PORT, env_or, opt_truthy.
  simpl. split.
  - intros Hb. eexists. split; [reflexivity |].
    destruct (env_BASE_URL env) as [b |];
      [rewrite Hb |];
      (destruct (env_PORT env) as [p |];
       [destruct (str_truthy p) eqn:Hp |]; simpl;
       (split; [| split; reflexivity]);
       first [ right; split; reflexivity
             | left; split; [reflexivity |];
               intros ->; discriminate ]).
  - intros base -> ->. reflexivity.
Qed.

Lemma redirect_names_configured_port_witness :
  exists p,
    js_string_of (PORT Sample.env) = p
    /\ ((env_PORT Sample.env = Some p /\ p <> EmptyString)
        \/ (opt_truthy (env_PORT Sample.env) = false /\ p = "3000"%string))
    /\ listening_message Sample.env = "App listening on port 8080"%string
    /\ redirect_uri (makeOAuthClient Sample.env)
       = "http://localhost:8080/oauth2callback"%string.
Proof.
  destruct (proj1 (redirect_names_configured_port Sample.env) eq_refl)
    as (p & Hp & Hcase & Hline & Huri).
  exists p. split; [exact Hp |]. split; [exact Hcase |].
  split; [reflexivity | reflexivity].
Defined.

(** X16. The fallback secret is never used silently: when the start-up
    check prints no warning, the session is signed with the configured
    [SESSION_SECRET], which is not empty, and the OAuth client carries a
    client identifier and a client secret that are not empty.  Conversely
    a session signed with a secret that was not configured is signed with
    ["dev-secret"], and the warning was printed. *)
Theorem no_silent_fallback env :
  (warns_at_startup env = false ->
   env_SESSION_SECRET env = Some (session_secret env)
   /\ session_secret env <> ""%string
   /\ exists i c,
        client_id (makeOAuthClient env) = Some i /\ i <> ""%string
        /\ client_secret (makeOAuthClient env) = Some c /\ c <> ""%string)
  /\ (env_SESSION_SECRET env <> Some (session_secret env) ->
      session_secret env = "dev-secret"%string /\ warns_at_startup env = true).
Proof.
  unfold warns_at_startup, session_secret, env_or, opt_truthy, str_truthy,
    makeOAuthClient; simpl.
  destruct (env_SESSION_SECRET env) as [s |].
  2:{ split; [intros H | intros _].
      - rewrite !orb_true_r in H. discriminate.
      - split; [reflexivity | apply orb_true_r]. }
  destruct (String.eqb_spec s "") as [-> | Hs]; cbn [negb].
  { split; [intros H | intros _].
    - rewrite !orb_true_r in H. discriminate.
    - split; [reflexivity | apply orb_true_r]. }
  split; [| intros H; now destruct H].
  intros H. rewrite orb_false_r in H. apply orb_false_elim in H as [Hi Hc].
  split; [reflexivity |]. split; [exact Hs |].
  destruct (env_GOOGLE_CLIENT_ID env) as [i |]; [| discriminate].
  destruct (env_GOOGLE_CLIENT_SECRET env) as [c |]; [| discriminate].
  exists i, c.
  destruct (i =? "")%string eqn:Ei; [discriminate |].
  destruct (c =? "")%string eqn:Ec; [discriminate |].
  apply String.eqb_neq in Ei, Ec. now repeat split.
Qed.

Lemma no_silent_fallback_witness :
  env_SESSION_SECRET Sample.env = Some (session_secret Sample.env)
  /\ session_secret Sample.env <> ""%string
  /\ exists i c,
       client_id (makeOAuthClient Sample.env) = Some i /\ i <> ""%string
       /\ client_secret (makeOAuthClient Sample.env) = Some c /\ c <> ""%string.
Proof.
  apply (proj1 (no_silent_fallback Sample.env)). reflexivity.
Defined.

(* ===================================================================== *)
(** * Signing in                                                          *)
(* ===================================================================== *)

(** X17. The OAuth callback asks Google once and never fails: every run
    makes exactly one token request, with the client built from the
    environment and the code of the query, and returns.  When the request
    is rejected with [e], the session keeps the tokens it had, [e] is
    logged, and the answer is status 500 with
    ["Google OAuth error: " + String(e)].  When it resolves to an object,
    the session receives the [tokens] property of that object and the
    answer is the page that confirms the access, with nothing logged. *)
Theorem callback_outcome env oauth code aw :
  token_requests (fst (oauth2callback env oauth code aw))
  = token_requests aw ++ [mkTokenRequest (makeOAuthClient env) code]
  /\ snd (oauth2callback env oauth code aw) = Ret tt
  /\ (forall e,
        oauth (token_requests aw) (makeOAuthClient env) code = Thrown e ->
        session_tokens (fst (oauth2callback env oauth code aw))
        = session_tokens aw
        /\ auth_console (fst (oauth2callback env oauth code aw))
           = auth_console aw ++ [e]
        /\ auth_res (fst (oauth2callback env oauth code aw))
           = auth_res aw
             ++ [ResStatus 500;
                 ResSend ("Google OAuth error: " ++ error_to_string e)])
  /\ (forall fields,
        oauth (token_requests aw) (makeOAuthClient env) code = Ok (JObj fields) ->
        session_tokens (fst (oauth2callback env oauth code aw))
        = lookup_field "tokens" fields
        /\ auth_console (fst (oauth2callback env oauth code aw))
           = auth_console aw
        /\ auth_res (fst (oauth2callback env oauth code aw))
           = auth_res aw ++ [ResSend msg_granted]).
Proof.
  unfold oauth2callback, try_catch, getToken, bind.
  destruct (oauth (token_requests aw) (makeOAuthClient env) code)
    as [answer | e]; simpl.
  - destruct (destructure answer "tokens" "(intermediate value)")
      as [tokens | e] eqn:Hd; simpl.
    + split; [reflexivity |]. split; [reflexivity |].
      split; [discriminate |].
      intros fields E. inversion E; subst. simpl in Hd. inversion Hd.
      now repeat split.
    + split; [reflexivity |]. split; [reflexivity |].
      split; [discriminate |].
      intros fields E. inversion E; subst. discriminate.
  - split; [reflexivity |]. split; [reflexivity |].
    split; [| discriminate].
    intros e' E. inversion E; subst.
    repeat split. now rewrite <- app_assoc.
Qed.

(** A request of a signed-in session is never answered with the demand to
    sign in. *)
Lemma signed_in_not_rejected drive hub fuel req w :
  js_truthy (session_googleTokens req) = true ->
  fst (create_repo drive hub fuel req w)
  <> answered w [ResStatus 400; ResSend msg_sign_in_first] []
       (drive_trace w) (hub_trace w).
Proof.
  intros Hin Heq.
  handler_paths drive hub fuel req w; try discriminate;
    apply (f_equal res_calls) in Heq; simpl in Heq;
    apply app_inv_head in Heq;
    unfold head_200, error_answer, msg_missing, msg_sign_in_first in Heq;
    discriminate.
Qed.

(** X18. The session opens the way to [/create-repo] exactly when the
    callback stored tokens: starting from a session without tokens, a
    request to [/create-repo] that follows the callback is answered with
    status 400 and the demand to sign in, without any call to Drive or
    GitHub, if and only if the token request was rejected, or resolved to
    a value without (truthy) [tokens]. *)
Theorem sign_in_gate env oauth code aw drive hub fuel g r l w :
  session_tokens aw = JUndefined ->
  create_repo drive hub fuel
    (request_in_session
       (session_tokens (fst (oauth2callback env oauth code aw))) g r l) w
  = (answered w [ResStatus 400; ResSend msg_sign_in_first] []
       (drive_trace w) (hub_trace w), Ret tt)
  <-> (forall answer tokens,
         oauth (token_requests aw) (makeOAuthClient env) code = Ok answer ->
         destructure answer "tokens" "(intermediate value)" = Ok tokens ->
         js_truthy tokens = false).
Proof.
  intros Hfresh.
  assert (session_tokens (fst (oauth2callback env oauth code aw))
          = match oauth (token_requests aw) (makeOAuthClient env) code with
            | Ok answer =>
                match destructure answer "tokens" "(intermediate value)" with
                | Ok tokens => tokens
                | Thrown _ => JUndefined
                end
            | Thrown _ => JUndefined
            end) as Hsession.
  { unfold oauth2callback, try_catch, getToken, bind.
    destruct (oauth (token_requests aw) (makeOAuthClient env) code)
      as [answer | e]; simpl; [| exact Hfresh].
    destruct (destructure answer "tokens" "(intermediate value)");
      simpl; [reflexivity | exact Hfresh]. }
  split.
  - intros Hrun answer tokens Ha Hd.
    rewrite Ha, Hd in Hsession.
    destruct (js_truthy tokens) eqn:Htruthy; [| reflexivity].
    destruct (signed_in_not_rejected drive hub fuel
                (request_in_session
                   (session_tokens (fst (oauth2callback env oauth code aw)))
                   g r l) w).
    + simpl. now rewrite Hsession.
    + now rewrite Hrun.
  - intros Hfalsy. apply path_not_signed_in. simpl. rewrite Hsession.
    destruct (oauth (token_requests aw) (makeOAuthClient env) code)
      as [answer | e]; [| reflexivity].
    destruct (destructure answer "tokens" "(intermediate value)")
      as [tokens | e] eqn:Hd; [| reflexivity].
    now apply (Hfalsy answer tokens).
Qed.

Lemma sign_in_gate_witness :
  create_repo (of_snapshot Demo.snapshot) Demo.hub 2
    (request_in_session
       (session_tokens
          (fst (oauth2callback Sample.env Sample.oauth (JStr "expired")
                  Sample.fresh)))
       (JStr "t") (JStr "demo") (JStr "1proj")) new_world
  = (answered new_world [ResStatus 400; ResSend msg_sign_in_first] [] [] [],
     Ret tt).
Proof.
  apply (proj2 (sign_in_gate Sample.env Sample.oauth (JStr "expired")
                  Sample.fresh (of_snapshot Demo.snapshot) Demo.hub 2
                  (JStr "t") (JStr "demo") (JStr "1proj") new_world eq_refl)).
  intros answer tokens Ha. vm_compute in Ha. discriminate.
Defined.

(* ===================================================================== *)
(** * Pagination without an end                                           *)
(* ===================================================================== *)

Section Endless.

Variable drive : Drive.
Variable folderId : string.

Hypothesis always_more :
  forall t pageToken,
    exists page,
      files_list drive t (list_query folderId) pageToken = Ok page
      /\ opt_truthy (nextPageToken page) = true
      /\ files_or_empty page = [].

Lemma walk_endless fuel :
  forall pathPrefix pageToken st,
    exists made,
      walkFolder_from drive fuel folderId pathPrefix pageToken st
      = (extend st [] made, OutOfFuel)
      /\ List.length made = fuel
      /\ Forall (fun ev => exists token,
                   ev = ok_event (FilesList (list_query folderId) list_fields token))
           made.
Proof.
  induction fuel as [| fuel IH]; intros pathPrefix pageToken st.
  - exists []. repeat split; [| constructor].
    unfold extend. simpl. rewrite !app_nil_r. now destruct st.
  - destruct (always_more (dtrace st) pageToken) as (page & Hpage & Hmore & Hfiles).
    cbn [walkFolder_from].
    erewrite bind_ret
      by (unfold drive_call; rewrite Hpage; reflexivity).
    rewrite Hfiles, Hmore. cbn [for_of].
    erewrite bind_ret by reflexivity.
    edestruct IH as (made & -> & Hlen & Hall).
    exists (ok_event (FilesList (list_query folderId) list_fields pageToken) :: made).
    split; [| split].
    + unfold extend. simpl. now rewrite !app_nil_r, <- app_assoc.
    + simpl. now rewrite Hlen.
    + constructor; [now exists pageToken | exact Hall].
Qed.

End Endless.

(** X19. The collector follows [nextPageToken] without a bound: on a
    folder whose every listing is empty and announces a further page, the
    collector neither returns nor throws; after any number of pages it
    has made the metadata call and that many listing calls, all of them
    successful, and is still asking. *)
Theorem pagination_is_unbounded drive driveId meta fuel t :
  (forall t', files_get drive t' driveId = Ok meta) ->
  meta_mimeType meta = mime_folder ->
  (forall t' pageToken,
     exists page,
       files_list drive t' (list_query driveId) pageToken = Ok page
       /\ opt_truthy (nextPageToken page) = true
       /\ files_or_empty page = []) ->
  exists listings,
    collectDriveFiles drive fuel driveId t
    = (t ++ ok_event (FilesGet driveId meta_fields) :: listings, OutOfFuel)
    /\ List.length listings = fuel
    /\ Forall (fun ev => exists token,
                 ev = ok_event (FilesList (list_query driveId) list_fields token))
         listings.
Proof.
  intros Hmeta Hfolder Hmore.
  unfold collectDriveFiles, collect_body.
  erewrite bind_ret
    by (unfold getMeta, drive_call; rewrite Hmeta; reflexivity).
  rewrite Hfolder, String.eqb_refl. unfold walkFolder.
  edestruct (walk_endless drive driveId Hmore fuel) as (made & -> & Hlen & Hall).
  exists made. split; [| now split].
  simpl. now rewrite <- app_assoc.
Qed.

Lemma pagination_is_unbounded_witness :
  exists listings,
    collectDriveFiles (of_snapshot Sample.endless) 7 "1loop" []
    = ([] ++ ok_event (FilesGet "1loop" meta_fields) :: listings, OutOfFuel)
    /\ List.length listings = 7
    /\ Forall (fun ev => exists token,
                 ev = ok_event (FilesList (list_query "1loop") list_fields token))
         listings.
Proof.
  apply (pagination_is_unbounded (of_snapshot Sample.endless) "1loop"
           (mkMeta "1loop" "loop" mime_folder []) 7 []).
  - reflexivity.
  - reflexivity.
  - intros t' pageToken. eexists. repeat split.
Defined.
